(** * apple-music-local: the now-playing server and its display client

    A shallow embedding of [server/index.ts] (class [AppleMusicNowPlaying]
    and the HTTP handler) and of the progress logic of [src/App.tsx].

    Conventions of the embedding.
    - JavaScript numbers are IEEE-754 binary64 values: Rocq's primitive
      [float].  Strings are byte strings (UTF-8), compared by [String.eqb].
    - Everything the program asks of the outside world (the [osascript]
      shell, the file system, the network, the tag reader, the clock) is
      answered by an oracle [Env].  An answer may depend on the whole
      history of calls made so far, and any call that can throw in
      JavaScript may answer [Threw].
    - The class instance ([this]) and the history of external calls form
      the [World] that the monad [M] threads; an exception keeps the
      world it was raised in, as in JavaScript.
    - A method of the class is a computation of [M]: one call, from its
      first statement to its return, with nothing else running in
      between.  The methods [start()] leaves running at the same time
      (the call of [sendCurrentSong] it does not await, and the timer's
      calls of [checkForChanges]) are interleaved at
      [await this.getAlbumArt()] by the event loop of module [Loop].
      Diagnostic [console.log] lines are left out; the line that prints
      the published payload is the event [Publish]. *)

From Stdlib Require Import String Ascii List ZArith NArith Bool Floats Lia.
Import ListNotations.
Local Open Scope list_scope.
Local Open Scope string_scope.

(** ** JavaScript values *)

Set Warnings "-register-all".

Module JS.

(** [!!s] for a string. *)
Definition truthy (s : string) : bool := negb (String.eqb s "").

(** [!!x] for a number: [0], [-0] and [NaN] are falsy. *)
Definition truthyNum (x : float) : bool := negb (is_nan x || is_zero x).

(** [x || 0] for a number. *)
Definition orZero (x : float) : float := if truthyNum x then x else 0%float.

(** [x || 0] for an optional number ([undefined || 0] is [0]). *)
Definition optOrZero (x : option float) : float :=
  match x with Some v => orZero v | None => 0%float end.

(** [s || d] for a string. *)
Definition orElse (s d : string) : string := if truthy s then s else d.

(** [s || d] for an optional string. *)
Definition optOrElse (s : option string) (d : string) : string :=
  match s with Some v => orElse v d | None => d end.

(** [s || undefined]. *)
Definition orUndefined (s : string) : option string :=
  if truthy s then Some s else None.

(** [!!x] for an optional number. *)
Definition optTruthyNum (x : option float) : bool :=
  match x with Some v => truthyNum v | None => false end.

(** [!!s] for an optional string. *)
Definition optTruthy (s : option string) : bool :=
  match s with Some v => truthy v | None => false end.

Definition Math_abs (x : float) : float := PrimFloat.abs x.

(** [Math.min(a, b)] (ECMA-262): [NaN] if either is [NaN]; starting
    from [a], [b] replaces it when [b < a] or when [b] is [-0] and [a]
    is [+0]. *)
Definition Math_min (a b : float) : float :=
  if is_nan a || is_nan b then nan
  else if PrimFloat.ltb b a
          || (is_zero a && is_zero b && get_sign b && negb (get_sign a))
       then b else a.

(** [s.replace(pat, rep)] with a string pattern: the first occurrence. *)
Fixpoint replace (pat rep s : string) : string :=
  if String.prefix pat s
  then rep ++ substring (String.length pat) (String.length s - String.length pat) s
  else match s with
       | EmptyString => EmptyString
       | String c r => String c (replace pat rep r)
       end.

(** [encodeURIComponent] on UTF-8 bytes: the unreserved characters are
    kept, every other byte becomes [%XX]. *)
Definition hexDigit (n : N) : ascii :=
  nth (N.to_nat n) (list_ascii_of_string "0123456789ABCDEF") "0"%char.

Definition isUnreserved (c : ascii) : bool :=
  let n := N_of_ascii c in
  ((65 <=? n) && (n <=? 90) || (97 <=? n) && (n <=? 122)
   || (48 <=? n) && (n <=? 57))%N
  || existsb (Ascii.eqb c) (list_ascii_of_string "-_.!~*'()").

Fixpoint encodeURIComponent (s : string) : string :=
  match s with
  | EmptyString => EmptyString
  | String c r =>
      if isUnreserved c then String c (encodeURIComponent r)
      else let n := N_of_ascii c in
           String "%" (String (hexDigit (n / 16)) (String (hexDigit (n mod 16))
                                                          (encodeURIComponent r)))
  end.

(** [Buffer.toString('base64')]. *)
Definition b64Alphabet : list ascii :=
  list_ascii_of_string
    "ABCDEFGHIJKLMNOPQRSTUVWXYZabcdefghijklmnopqrstuvwxyz0123456789+/".

Definition b64 (n : N) : ascii := nth (N.to_nat n) b64Alphabet "A"%char.

Fixpoint base64 (bs : list Byte.byte) : string :=
  match bs with
  | [] => EmptyString
  | [a] =>
      let x := Byte.to_N a in
      String (b64 (x / 4)) (String (b64 ((x mod 4) * 16)) "==")
  | [a; b] =>
      let x := Byte.to_N a in
      let y := Byte.to_N b in
      String (b64 (x / 4))
        (String (b64 ((x mod 4) * 16 + y / 16))
           (String (b64 ((y mod 16) * 4)) "="))
  | a :: b :: c :: rest =>
      let x := Byte.to_N a in
      let y := Byte.to_N b in
      let z := Byte.to_N c in
      String (b64 (x / 4))
        (String (b64 ((x mod 4) * 16 + y / 16))
           (String (b64 ((y mod 16) * 4 + z / 64))
              (String (b64 (z mod 64)) (base64 rest))))
  end.

(** JSON values, as [JSON.stringify] sees them. *)
Inductive JSON : Type :=
| JNull
| JNumber (x : float)
| JString (s : string)
| JObject (fields : list (string * JSON)).

(** A number in JSON: non-finite numbers are written [null]. *)
Definition jsonNumber (x : float) : JSON :=
  if is_nan x || is_infinity x then JNull else JNumber x.

(** An optional property: [undefined] properties are left out. *)
Definition jsonField {A : Type} (k : string) (f : A -> JSON) (v : option A)
  : list (string * JSON) :=
  match v with Some a => [(k, f a)] | None => [] end.

End JS.

(** ** The server: [server/index.ts] *)

Module Server.

(** *** Data *)

(** [interface SongData].  [state] is the string AppleScript returned:
    the annotation ['playing' | 'paused'] is a cast, not a check. *)
Record SongData : Type := mkSongData {
  title : string;
  artist : string;
  album : string;
  state : string;
  albumArt : option string;
  duration : option float;
  position : option float;
  timestamp : option float
}.

Record iTunesResult : Type := mkITunesResult {
  artistName : string;
  collectionName : string;
  artworkUrl100 : option string
}.

Record iTunesResponse : Type := mkITunesResponse {
  results : option (list iTunesResult);
  resultCount : float
}.

(** [interface LastFmImage]; [text] is the property ['#text']. *)
Record LastFmImage : Type := mkLastFmImage {
  size : string;
  text : string
}.

Record LastFmAlbum : Type := mkLastFmAlbum {
  name : string;
  albumArtist : string;
  image : option (list LastFmImage)
}.

Record LastFmResponse : Type := mkLastFmResponse {
  lfAlbum : option LastFmAlbum
}.

(** What a JavaScript call gives back: a value, or an exception. *)
Inductive outcome (A : Type) : Type :=
| Returned (a : A)
| Threw.
Arguments Returned {A} a.
Arguments Threw {A}.

(** A [fetch] response.  Its body is given as what [json()] yields at
    the type the caller casts it to, and as what [arrayBuffer()] yields;
    a body of another shape throws at its first property access, inside
    the same [try] as [json()]. *)
Record Response : Type := mkResponse {
  ok : bool;
  status : nat;
  json_iTunes : outcome iTunesResponse;
  json_LastFm : outcome LastFmResponse;
  arrayBuffer : outcome (list Byte.byte)
}.

(** [metadata.common.picture] of music-metadata's [parseFile]. *)
Record Picture : Type := mkPicture {
  format : string;
  data : list Byte.byte
}.

Record Metadata : Type := mkMetadata {
  picture : option (list Picture)
}.

(** The payload [sendSongToDeskThing] builds. *)
Record Payload : Type := mkPayload {
  p_version : float;
  p_title : string;
  p_artist : string;
  p_album : string;
  p_state : string;
  p_timestamp : float;
  p_albumArt : option string;
  p_duration : option float;
  p_position : option float
}.

(** The AppleScript programs handed to [osascript], by what they return
    when Music is running and the inner [try] succeeds. *)
Inductive script : Type :=
| PlayerStateScript   (* player state as string, else "stopped" *)
| TrackTitleScript    (* name of current track, else "" *)
| TrackArtistScript   (* artist of current track, else "" *)
| TrackAlbumScript    (* album of current track, else "" *)
| DurationScript      (* duration of current track, else 0 *)
| PositionScript      (* player position, else 0 *)
| ArtworkScript       (* path of the temp file artwork 1 was written to, else "" *)
| LocationScript.     (* POSIX path of the track's location, else "" *)

(** The program's interactions with the outside world. *)
Inductive event : Type :=
| ExecSync (s : script)
| ExistsSync (path : string)
| ReadFileSync (path : string)
| ReaddirSync (path : string)
| StatSync (path : string)
| Fetch (url : string) (userAgent : bool)
| ParseFile (path : string)
| DateNow
| Publish (p : Payload).

(** The outside world.  Each answer may depend on the history so far.
    [osascript] gives [execSync(...).trim()]; [parseInt], [parseFloat]
    and [join] are the JavaScript and Node functions of those names. *)
Record Env : Type := mkEnv {
  osascript : list event -> script -> outcome string;
  parseInt : string -> float;
  parseFloat : string -> float;
  existsSync : list event -> string -> bool;
  readFileSync : list event -> string -> outcome (list Byte.byte);
  readdirSync : list event -> string -> outcome (list string);
  statSync_mtime : list event -> string -> outcome Z;
  fetch : list event -> string -> outcome Response;
  parseFile : list event -> string -> outcome Metadata;
  Date_now : list event -> float;
  env_HOME : option string;
  env_LASTFM_API_KEY : option string;
  join : string -> string -> string
}.

(** The fields of [class AppleMusicNowPlaying] that the methods read and
    write ([positionIntervalId] is the timer handle). *)
Record App : Type := mkApp {
  lastSongData : option SongData;
  currentSong : option SongData;
  lastSongKey : string
}.

(** [new AppleMusicNowPlaying()]. *)
Definition newApp : App :=
  {| lastSongData := None; currentSong := None; lastSongKey := "" |}.

Record World : Type := mkWorld {
  this : App;
  history : list event
}.

(** *** The monad of methods *)

Definition M (A : Type) : Type := World -> outcome A * World.

Definition ret {A : Type} (a : A) : M A := fun w => (Returned a, w).

Definition throw {A : Type} : M A := fun w => (Threw, w).

Definition bind {A B : Type} (m : M A) (k : A -> M B) : M B :=
  fun w => match m w with
           | (Returned a, w') => k a w'
           | (Threw, w') => (Threw, w')
           end.

(** [try { m } catch { h }]. *)
Definition try_catch {A : Type} (m : M A) (h : M A) : M A :=
  fun w => match m w with
           | (Returned a, w') => (Returned a, w')
           | (Threw, w') => h w'
           end.

Declare Scope js_scope.
Delimit Scope js_scope with js.
Notation "x <- c ;; k" := (bind c (fun x => k))
  (at level 61, c at next level, right associativity) : js_scope.
Notation "c ;;; k" := (bind c (fun _ => k))
  (at level 61, right associativity) : js_scope.
Local Open Scope js_scope.

(** An external call: the world answers from the history, and the call
    joins the history. *)
Definition external {A : Type} (e : event) (answer : list event -> outcome A) : M A :=
  fun w => (answer (history w), {| this := this w; history := (history w ++ [e])%list |}).

Definition getThis : M App := fun w => (Returned (this w), w).

Definition setThis (a : App) : M unit :=
  fun w => (Returned tt, {| this := a; history := history w |}).

Definition set_lastSongKey (k : string) : M unit :=
  a <- getThis ;;
  setThis {| lastSongData := lastSongData a; currentSong := currentSong a; lastSongKey := k |}.

Definition set_currentSong (s : option SongData) : M unit :=
  a <- getThis ;;
  setThis {| lastSongData := lastSongData a; currentSong := s; lastSongKey := lastSongKey a |}.

Definition set_lastSongData (s : option SongData) : M unit :=
  a <- getThis ;;
  setThis {| lastSongData := s; currentSong := currentSong a; lastSongKey := lastSongKey a |}.

(** Record updates of a song. *)
Definition with_albumArt (s : SongData) (a : option string) : SongData :=
  {| title := title s; artist := artist s; album := album s; state := state s;
     albumArt := a; duration := duration s; position := position s;
     timestamp := timestamp s |}.

Definition with_timestamp (s : SongData) (t : float) : SongData :=
  {| title := title s; artist := artist s; album := album s; state := state s;
     albumArt := albumArt s; duration := duration s; position := position s;
     timestamp := Some t |}.

(** [song.position = p; song.duration = d; song.state = st]. *)
Definition with_playback (s : SongData) (p d : option float) (st : string) : SongData :=
  {| title := title s; artist := artist s; album := album s; state := st;
     albumArt := albumArt s; duration := d; position := p;
     timestamp := timestamp s |}.

Section Methods.

Variable E : Env.

(** *** External calls *)

Definition execSync (s : script) : M string :=
  external (ExecSync s) (fun h => osascript E h s).

Definition fs_existsSync (path : string) : M bool :=
  external (ExistsSync path) (fun h => Returned (existsSync E h path)).

Definition fs_readFileSync (path : string) : M (list Byte.byte) :=
  external (ReadFileSync path) (fun h => readFileSync E h path).

Definition fs_readdirSync (path : string) : M (list string) :=
  external (ReaddirSync path) (fun h => readdirSync E h path).

Definition fs_statSync_mtime (path : string) : M Z :=
  external (StatSync path) (fun h => statSync_mtime E h path).

Definition net_fetch (url : string) (userAgent : bool) : M Response :=
  external (Fetch url userAgent) (fun h => fetch E h url).

Definition mm_parseFile (path : string) : M Metadata :=
  external (ParseFile path) (fun h => parseFile E h path).

Definition now : M float :=
  external DateNow (fun h => Returned (Date_now E h)).

(** [await p] of a promise whose outcome is known. *)
Definition await {A : Type} (o : outcome A) : M A :=
  match o with Returned a => ret a | Threw => throw end.

(** *** Player queries *)

Definition getPlayerState : M string :=
  try_catch (execSync PlayerStateScript) (ret "stopped").

Definition getTrackTitle : M string :=
  try_catch (execSync TrackTitleScript) (ret "").

Definition getTrackArtist : M string :=
  try_catch (execSync TrackArtistScript) (ret "").

Definition getTrackAlbum : M string :=
  try_catch (execSync TrackAlbumScript) (ret "").

Definition getSongDuration : M float :=
  try_catch
    (result <- execSync DurationScript ;;
     ret (JS.orZero (parseInt E result)))
    (ret 0%float).

Definition getSongPosition : M float :=
  try_catch
    (result <- execSync PositionScript ;;
     ret (JS.orZero (parseFloat E result)))
    (ret 0%float).

Definition getBasicSongInfo : M (option SongData) :=
  try_catch
    (playerState <- getPlayerState ;;
     if String.eqb playerState "stopped" then ret None
     else
       title <- getTrackTitle ;;
       artist <- getTrackArtist ;;
       album <- getTrackAlbum ;;
       duration <- getSongDuration ;;
       position <- getSongPosition ;;
       if negb (JS.truthy title) || negb (JS.truthy artist) then ret None
       else ret (Some {| title := title;
                         artist := artist;
                         album := JS.orElse album "Unknown Album";
                         state := playerState;
                         albumArt := None;
                         duration := if PrimFloat.ltb 0 duration then Some duration else None;
                         position := if PrimFloat.ltb 0 position then Some position else None;
                         timestamp := None |}))
    (ret None).

(** *** The five artwork strategies *)

(** The template literal [data:${mime};base64,${base64}]. *)
Definition dataURI (mime : string) (bytes : list Byte.byte) : string :=
  "data:" ++ mime ++ ";base64," ++ JS.base64 bytes.

(** Each method below is [try { ... } catch { return '' }]; the
    definition with the suffix [_try] is its [try] block. *)
Definition fetchAndConvertImage_try (imageUrl : string) : M string :=
  imageResponse <- net_fetch imageUrl false ;;
  if ok imageResponse then
    imageBuffer <- await (arrayBuffer imageResponse) ;;
    ret (dataURI "image/jpeg" imageBuffer)
  else ret "".

Definition fetchAndConvertImage (imageUrl : string) : M string :=
  try_catch (fetchAndConvertImage_try imageUrl) (ret "").

(** Tier 1: the artwork embedded in the player's current track. *)
Definition getAppleScriptArtworkBase64_try : M string :=
  result <- execSync ArtworkScript ;;
  if JS.truthy result then
    there <- fs_existsSync result ;;
    if there then
      imageData <- fs_readFileSync result ;;
      ret (dataURI "image/jpeg" imageData)
    else ret ""
  else ret "".

Definition getAppleScriptArtworkBase64 : M string :=
  try_catch getAppleScriptArtworkBase64_try (ret "").

Definition itunesSearchUrl (term : string) : string :=
  "https://itunes.apple.com/search?term=" ++ JS.encodeURIComponent term
  ++ "&entity=album&limit=1".

(** What both the search loop and the artist fallback do with a
    response: decode it, take the first result's artwork URL at 600x600
    and convert the image.  The empty string when the response has
    nothing to convert, else the result of [fetchAndConvertImage]. *)
Definition itunesImage (response : Response) : M string :=
  if ok response then
    data <- await (json_iTunes response) ;;
    match results data with
    | Some (result :: _) =>
        match option_map (JS.replace "100x100" "600x600") (artworkUrl100 result) with
        | Some artworkUrl =>
            if JS.truthy artworkUrl then fetchAndConvertImage artworkUrl
            else ret ""
        | None => ret ""
        end
    | _ => ret ""
    end
  else ret "".

(** The [for (const searchTerm of searchTerms)] loop: [Some r] when an
    iteration returned [r] from the method, [None] when the loop ran out. *)
Fixpoint itunesSearchLoop (searchTerms : list string) : M (option string) :=
  match searchTerms with
  | [] => ret None
  | searchTerm :: rest =>
      response <- net_fetch (itunesSearchUrl searchTerm) true ;;
      imageResult <- itunesImage response ;;
      if JS.truthy imageResult then ret (Some imageResult)
      else itunesSearchLoop rest
  end.

(** Tier 2: the iTunes search API. *)
Definition getItunesArtwork_try : M string :=
  title <- getTrackTitle ;;
  artist <- getTrackArtist ;;
  album <- getTrackAlbum ;;
  if negb (JS.truthy title) || negb (JS.truthy artist) then ret ""
  else
    let searchTerms :=
      [ artist ++ " " ++ JS.orElse album title;
        artist ++ " " ++ title;
        title ++ " " ++ artist ] in
    found <- itunesSearchLoop searchTerms ;;
    match found with
    | Some imageResult => ret imageResult
    | None =>
        artistResponse <- net_fetch (itunesSearchUrl artist) false ;;
        imageResult <- itunesImage artistResponse ;;
        if JS.truthy imageResult then ret imageResult
        else ret ""
    end.

Definition getItunesArtwork : M string :=
  try_catch getItunesArtwork_try (ret "").

(** [images.find(large) || images.find(medium) || images[images.length - 1]]. *)
Definition pickImage (images : list LastFmImage) : option LastFmImage :=
  match find (fun img => String.eqb (size img) "large") images with
  | Some img => Some img
  | None =>
      match find (fun img => String.eqb (size img) "medium") images with
      | Some img => Some img
      | None => nth_error images (List.length images - 1)
      end
  end.

Definition lastfmUrl (searchParams API_KEY : string) : string :=
  "https://ws.audioscrobbler.com/2.0/?method=album.getinfo&" ++ searchParams
  ++ "&api_key=" ++ API_KEY ++ "&format=json".

(** The [for (const searchParams of searchStrategies)] loop. *)
Fixpoint lastfmSearchLoop (API_KEY : string) (searchStrategies : list string)
  : M (option string) :=
  match searchStrategies with
  | [] => ret None
  | searchParams :: rest =>
      response <- net_fetch (lastfmUrl searchParams API_KEY) true ;;
      found <-
        (if ok response then
           data <- await (json_LastFm response) ;;
           match lfAlbum data with
           | Some alb =>
               match image alb with
               | Some (i :: is') =>
                   match pickImage (i :: is') with
                   | Some largeImage =>
                       if JS.truthy (text largeImage) then
                         imageResult <- fetchAndConvertImage (text largeImage) ;;
                         ret (JS.orUndefined imageResult)
                       else ret None
                   | None => ret None
                   end
               | _ => ret None
               end
           | None => ret None
           end
         else ret None) ;;
      match found with
      | Some imageResult => ret (Some imageResult)
      | None => lastfmSearchLoop API_KEY rest
      end
  end.

(** Tier 3: the Last.fm API. *)
Definition getLastfmArtwork_try : M string :=
  title <- getTrackTitle ;;
  artist <- getTrackArtist ;;
  album <- getTrackAlbum ;;
  if negb (JS.truthy title) || negb (JS.truthy artist) then ret ""
  else
    let API_KEY :=
      JS.optOrElse (env_LASTFM_API_KEY E) "15ea39b489ea0fb56936a1573b5f6383" in
    let searchStrategies :=
      List.app
        (if JS.truthy album
         then ["album=" ++ JS.encodeURIComponent album
               ++ "&artist=" ++ JS.encodeURIComponent artist]
         else [])
        [ "track=" ++ JS.encodeURIComponent title
          ++ "&artist=" ++ JS.encodeURIComponent artist;
          "artist=" ++ JS.encodeURIComponent artist ] in
    found <- lastfmSearchLoop API_KEY searchStrategies ;;
    match found with
    | Some imageResult => ret imageResult
    | None => ret ""
    end.

Definition getLastfmArtwork : M string :=
  try_catch getLastfmArtwork_try (ret "").

(** Tier 4: the picture in the tags of the track's local file. *)
Definition getMetadataArtwork_try : M string :=
  filePath <- execSync LocationScript ;;
  if JS.truthy filePath then
    there <- fs_existsSync filePath ;;
    if there then
      metadata <- mm_parseFile filePath ;;
      match picture metadata with
      | Some (pic :: _) => ret (dataURI (format pic) (data pic))
      | _ => ret ""
      end
    else ret ""
  else ret "".

Definition getMetadataArtwork : M string :=
  try_catch getMetadataArtwork_try (ret "").

(** [files.map(file => ({ name, path, mtime: statSync(path).mtime }))]. *)
Fixpoint statFiles (artworkPath : string) (files : list string)
  : M (list (string * string * Z)) :=
  match files with
  | [] => ret []
  | file :: rest =>
      mtime <- fs_statSync_mtime (join E artworkPath file) ;;
      others <- statFiles artworkPath rest ;;
      ret ((file, join E artworkPath file, mtime) :: others)
  end.

(** [Array.prototype.sort] with the comparator
    [(a, b) => b.mtime.getTime() - a.mtime.getTime()]: a stable sort,
    newest first. *)
Fixpoint insertByMtime (x : string * string * Z) (l : list (string * string * Z))
  : list (string * string * Z) :=
  match l with
  | [] => [x]
  | y :: r => if (snd y <=? snd x)%Z then x :: y :: r else y :: insertByMtime x r
  end.

Definition sortByMtime (l : list (string * string * Z)) : list (string * string * Z) :=
  fold_right insertByMtime [] l.

(** Tier 5: the newest file of the player's artwork cache directory. *)
Definition getCachedArtwork_try : M string :=
  let artworkPath :=
    join E (JS.optOrElse (env_HOME E) "")
      "Library/Containers/com.apple.AMPMusic/Data/Documents/Artwork" in
  there <- fs_existsSync artworkPath ;;
  if there then
    files <- fs_readdirSync artworkPath ;;
    stats <- statFiles artworkPath files ;;
    match sortByMtime stats with
    | latestFile :: _ =>
        imageData <- fs_readFileSync (snd (fst latestFile)) ;;
        ret (dataURI "image/jpeg" imageData)
    | [] => ret ""
    end
  else ret "".

Definition getCachedArtwork : M string :=
  try_catch getCachedArtwork_try (ret "").

(** *** The resolver *)

Definition getAlbumArt : M string :=
  base64Art <- getAppleScriptArtworkBase64 ;;
  if JS.truthy base64Art then ret base64Art
  else
    itunesArt <- getItunesArtwork ;;
    if JS.truthy itunesArt then ret itunesArt
    else
      lastfmArt <- getLastfmArtwork ;;
      if JS.truthy lastfmArt then ret lastfmArt
      else
        metadataArt <- getMetadataArtwork ;;
        if JS.truthy metadataArt then ret metadataArt
        else
          cachedArt <- getCachedArtwork ;;
          if JS.truthy cachedArt then ret cachedArt
          else ret "".

(** The strategies by name, in the order [getAlbumArt] lists them. *)
Inductive strategy : Type :=
| AppleScript | ITunes | LastFm | FileTags | Cache.

Definition tiers : list strategy := [AppleScript; ITunes; LastFm; FileTags; Cache].

Definition runStrategy (s : strategy) : M string :=
  match s with
  | AppleScript => getAppleScriptArtworkBase64
  | ITunes => getItunesArtwork
  | LastFm => getLastfmArtwork
  | FileTags => getMetadataArtwork
  | Cache => getCachedArtwork
  end.

(** The [try] block of a strategy. *)
Definition tryBlock (s : strategy) : M string :=
  match s with
  | AppleScript => getAppleScriptArtworkBase64_try
  | ITunes => getItunesArtwork_try
  | LastFm => getLastfmArtwork_try
  | FileTags => getMetadataArtwork_try
  | Cache => getCachedArtwork_try
  end.

(** The waterfall in the words of the specification: go through an
    ordered list of strategies and stop at the first non-empty result.
    It gives the attempts made, each with what it returned, and the
    world the last attempt left. *)
Definition valueOf (o : outcome string) : string :=
  match o with Returned r => r | Threw => "" end.

Fixpoint waterfall (l : list strategy) (w : World) : list (strategy * string) * World :=
  match l with
  | [] => ([], w)
  | s :: rest =>
      let (o, w') := runStrategy s w in
      if JS.truthy (valueOf o) then ([(s, valueOf o)], w')
      else let (more, w'') := waterfall rest w' in ((s, valueOf o) :: more, w'')
  end.

(** The image a list of attempts ends with: the last attempt's result. *)
Definition resolved (tried : list (strategy * string)) : string :=
  snd (last tried (AppleScript, "")).

(** *** Change detection and publishing *)

(** The template literal [${artist}-${title}-${album}]. *)
Definition songKey (s : SongData) : string :=
  artist s ++ "-" ++ title s ++ "-" ++ album s.

Definition payloadOf (song : SongData) (t : float) : Payload :=
  {| p_version := 2%float;
     p_title := title song;
     p_artist := artist song;
     p_album := album song;
     p_state := state song;
     p_timestamp := t;
     p_albumArt := albumArt song;
     p_duration := duration song;
     p_position := position song |}.

Definition sendSongToDeskThing (song : SongData) : M unit :=
  try_catch
    (t <- now ;;
     external (Publish (payloadOf song t)) (fun _ => Returned tt))
    (ret tt).

(** [Math.abs((cur.position || 0) - (basicSong.position || 0)) > 1]. *)
Definition positionDrifted (cur basicSong : SongData) : bool :=
  PrimFloat.ltb 1
    (JS.Math_abs (JS.optOrZero (position cur) - JS.optOrZero (position basicSong))).

Definition checkForChanges : M unit :=
  try_catch
    (basic <- getBasicSongInfo ;;
     match basic with
     | None => ret tt
     | Some basicSong =>
         a <- getThis ;;
         let currentSongKey := songKey basicSong in
         let hasSongChanged := negb (String.eqb currentSongKey (lastSongKey a)) in
         let hasPositionChanged :=
           match currentSong a with
           | Some cur => positionDrifted cur basicSong
           | None => true
           end in
         let hasStateChanged :=
           match currentSong a with
           | Some cur => negb (String.eqb (state cur) (state basicSong))
           | None => true
           end in
         if hasSongChanged then
           set_lastSongKey currentSongKey ;;;
           albumArt <- getAlbumArt ;;
           let fullSong := with_albumArt basicSong (JS.orUndefined albumArt) in
           set_currentSong (Some fullSong) ;;;
           sendSongToDeskThing fullSong ;;;
           t <- now ;;
           set_lastSongData (Some (with_timestamp fullSong t))
         else if hasPositionChanged || hasStateChanged then
           match currentSong a with
           | Some cur =>
               let cur' :=
                 with_playback cur (position basicSong) (duration basicSong)
                   (state basicSong) in
               set_currentSong (Some cur') ;;;
               sendSongToDeskThing cur'
           | None => set_currentSong (Some basicSong)
           end
         else ret tt
     end)
    (ret tt).

Definition getCurrentSong : M (option SongData) :=
  try_catch
    (basic <- getBasicSongInfo ;;
     match basic with
     | None => ret None
     | Some basicSong =>
         albumArt <- getAlbumArt ;;
         ret (Some (with_albumArt basicSong (JS.orUndefined albumArt)))
     end)
    (ret None).

Definition sendCurrentSong : M unit :=
  try_catch
    (song <- getCurrentSong ;;
     set_currentSong song ;;;
     match song with
     | Some s =>
         sendSongToDeskThing s ;;;
         t <- now ;;
         set_lastSongData (Some (with_timestamp s t)) ;;;
         set_lastSongKey (songKey s)
     | None => ret tt
     end)
    (ret tt).

(** The private method [hasSongChanged], which compares field by field
    (no caller in the class). *)
Definition hasSongChanged (song : SongData) : M bool :=
  a <- getThis ;;
  match lastSongData a with
  | None => ret true
  | Some l =>
      ret (negb (String.eqb (title l) (title song))
           || negb (String.eqb (artist l) (artist song))
           || negb (String.eqb (album l) (album song))
           || negb (String.eqb (state l) (state song)))
  end.

End Methods.

(** *** The HTTP handler *)

Definition getCurrentSongData (a : App) : option SongData := currentSong a.

(** [JSON.stringify] of a [SongData]: the properties that are defined. *)
Definition songJSON (s : SongData) : JS.JSON :=
  JS.JObject
    (List.app
       [ ("title", JS.JString (title s));
         ("artist", JS.JString (artist s));
         ("album", JS.JString (album s));
         ("state", JS.JString (state s)) ]
       (List.app (JS.jsonField "duration" JS.jsonNumber (duration s))
          (List.app (JS.jsonField "position" JS.jsonNumber (position s))
             (List.app (JS.jsonField "albumArt" JS.JString (albumArt s))
                (JS.jsonField "timestamp" JS.jsonNumber (timestamp s)))))).

(** [JSON.stringify(currentSong)], [null] included. *)
Definition currentSongJSON (s : option SongData) : JS.JSON :=
  match s with Some song => songJSON song | None => JS.JNull end.

(** A request: its method, and [parse(req.url || '', true).pathname]. *)
Record Request : Type := mkRequest {
  method : string;
  pathname : option string
}.

Inductive Body : Type :=
| NoBody
| JsonBody (j : JS.JSON)
| TextBody (s : string).

Record Reply : Type := mkReply {
  code : nat;
  headers : list (string * string);
  body : Body
}.

Definition corsHeaders : list (string * string) :=
  [ ("Access-Control-Allow-Origin", "*");
    ("Access-Control-Allow-Methods", "GET, POST, OPTIONS");
    ("Access-Control-Allow-Headers", "Content-Type") ].

Definition pathIs (p : option string) (s : string) : bool :=
  match p with Some q => String.eqb q s | None => false end.

(** What the request listener writes with [res.writeHead] and [res.end]. *)
Definition respond (a : App) (req : Request) : Reply :=
  if String.eqb (method req) "OPTIONS" then
    {| code := 200; headers := corsHeaders; body := NoBody |}
  else if pathIs (pathname req) "/api/current-song" then
    {| code := 200;
       headers := List.app corsHeaders [("Content-Type", "application/json")];
       body := JsonBody (currentSongJSON (getCurrentSongData a)) |}
  else
    {| code := 404;
       headers := List.app corsHeaders [("Content-Type", "text/plain")];
       body := TextBody "Not Found" |}.

(** What [node:http] sends for it: the reply to a [HEAD] request keeps
    the status and the headers, and what [res.end] was given is not
    sent. *)
Definition handler (a : App) (req : Request) : Reply :=
  let r := respond a req in
  if String.eqb (method req) "HEAD" then
    {| code := code r; headers := headers r; body := NoBody |}
  else r.

End Server.

(** ** The display client: the progress logic of [src/App.tsx] *)

Module Client.

Local Open Scope float_scope.

Record SongData : Type := mkSongData {
  title : string;
  artist : string;
  album : string;
  state : string;
  timestamp : float;
  albumArt : option string;
  duration : option float;
  position : option float
}.

(** The React state the progress bar depends on. *)
Record View : Type := mkView {
  currentSong : option SongData;
  displaySong : option SongData;
  progress : float;
  lastUpdateTime : float;
  lastPosition : float
}.

Definition setProgress (p : float) (v : View) : View :=
  {| currentSong := currentSong v; displaySong := displaySong v; progress := p;
     lastUpdateTime := lastUpdateTime v; lastPosition := lastPosition v |}.

Definition setCurrentSong (s : option SongData) (v : View) : View :=
  {| currentSong := s; displaySong := displaySong v; progress := progress v;
     lastUpdateTime := lastUpdateTime v; lastPosition := lastPosition v |}.

(** [currentSong || displaySong]. *)
Definition songToUse (v : View) : option SongData :=
  match currentSong v with Some s => Some s | None => displaySong v end.

(** [song?.duration && song?.position], with the two numbers. *)
Definition timing (s : option SongData) : option (float * float) :=
  match s with
  | Some song =>
      match duration song, position song with
      | Some d, Some p =>
          if JS.truthyNum d && JS.truthyNum p then Some (d, p) else None
      | _, _ => None
      end
  | None => None
  end.

(** The effect that follows the song's position and duration, run when
    [Date.now()] is [now]. *)
Definition syncProgress (now : float) (v : View) : View :=
  match timing (songToUse v) with
  | Some (d, p) =>
      {| currentSong := currentSong v; displaySong := displaySong v;
         progress := p / d * 100; lastUpdateTime := now; lastPosition := p |}
  | None =>
      {| currentSong := currentSong v; displaySong := displaySong v;
         progress := 0; lastUpdateTime := 0; lastPosition := 0 |}
  end.

(** The guard of the simulation effect: the song the interval is set up
    for, or [None] when the effect returns before [setInterval]. *)
Definition simulated (v : View) : option SongData :=
  match songToUse v with
  | Some song =>
      if negb (JS.optTruthyNum (duration song))
         || negb (JS.optTruthyNum (position song))
         || negb (String.eqb (state song) "playing")
      then None else Some song
  | None => None
  end.

(** The closure [simulateProgress], called when [Date.now()] is [now]. *)
Definition simulateProgress (song : SongData) (now : float) (v : View) : View :=
  let timeSinceUpdate := (now - lastUpdateTime v) / 1000 in
  let simulatedPosition := lastPosition v + timeSinceUpdate in
  let progressPercent :=
    simulatedPosition
    / (match duration song with Some d => if JS.truthyNum d then d else 1 | None => 1 end)
    * 100 in
  if PrimFloat.leb progressPercent 100 then setProgress progressPercent v else v.

(** One firing of the 100 ms interval, if the effect set one up. *)
Definition intervalTick (now : float) (v : View) : View :=
  match simulated v with
  | Some song => simulateProgress song now v
  | None => v
  end.

(** The effect that pins the progress while the song is paused. *)
Definition pauseEffect (v : View) : View :=
  match currentSong v with
  | Some song =>
      if String.eqb (state song) "paused" then
        match timing (Some song) with
        | Some (d, p) => setProgress (p / d * 100) v
        | None => v
        end
      else v
  | None => v
  end.

(** The width of the bar, in percent: [Math.min(progress, 100)]. *)
Definition progressBarWidth (v : View) : float := JS.Math_min (progress v) 100.

End Client.

(** ** Observing a run *)

Module Observe.

Import Server.

(** [total m]: [m] returns, whatever the world. *)
Definition total {A : Type} (m : M A) : Prop :=
  forall w, exists a, fst (m w) = Returned a.

(** [only P m]: [m] leaves the fields of [this] alone, and the external
    calls it makes all satisfy [P]. *)
Definition only {A : Type} (P : event -> bool) (m : M A) : Prop :=
  forall w, this (snd (m w)) = this w
            /\ exists d, history (snd (m w)) = (history w ++ d)%list
                         /\ forallb P d = true.

(** The events a computation added to the history. *)
Definition since (w w' : World) : list event :=
  skipn (List.length (history w)) (history w').

(** [startsWith e P m]: [m] leaves the fields of [this] alone, its first
    external call is [e], and the calls after it all satisfy [P]. *)
Definition startsWith {A : Type} (e : event) (P : event -> bool) (m : M A) : Prop :=
  forall w, this (snd (m w)) = this w
            /\ exists d, history (snd (m w)) = (history w ++ e :: d)%list
                         /\ forallb P d = true.

(** [yields Q m]: whatever [m] returns satisfies [Q]. *)
Definition yields {A : Type} (Q : A -> Prop) (m : M A) : Prop :=
  forall w a, fst (m w) = Returned a -> Q a.

(** The empty string, or a data URI tagged image/jpeg. *)
Definition jpegOrEmpty (r : string) : Prop :=
  r = "" \/ exists bytes, r = dataURI "image/jpeg" bytes.

(** The same for the result of a search loop. *)
Definition jpegIfFound (o : option string) : Prop :=
  forall r, o = Some r -> jpegOrEmpty r.

(** The empty string, or a data URI with some MIME tag. *)
Definition imageOrEmpty (r : string) : Prop :=
  r = "" \/ exists mime bytes, r = dataURI mime bytes.

(** *** Where a data URI comes from

    In the three definitions below [h0] is the history when a call
    began and [H] the history when it returned. *)

(** The last external call was a [fetch] without headers, made since
    [h0]; the answer was [ok], and [r] is the bytes of its body under
    the tag image/jpeg. *)
Definition fetchedJpeg (E : Env) (h0 H : list event) (r : string) : Prop :=
  exists d url resp bytes,
    H = (h0 ++ d ++ [Fetch url false])%list
    /\ fetch E (h0 ++ d)%list url = Returned resp
    /\ ok resp = true
    /\ arrayBuffer resp = Returned bytes
    /\ r = "data:image/jpeg;base64," ++ JS.base64 bytes.

(** The last external call read a file, and [r] is the bytes read under
    the tag image/jpeg. *)
Definition readJpeg (E : Env) (h0 H : list event) (r : string) : Prop :=
  exists d path bytes,
    H = (h0 ++ d ++ [ReadFileSync path])%list
    /\ readFileSync E (h0 ++ d)%list path = Returned bytes
    /\ r = "data:image/jpeg;base64," ++ JS.base64 bytes.

(** The last external call parsed the tags of a file, and [r] is the
    data of the first picture found under the format found with it. *)
Definition taggedPicture (E : Env) (h0 H : list event) (r : string) : Prop :=
  exists d path meta pic pics,
    H = (h0 ++ d ++ [ParseFile path])%list
    /\ parseFile E (h0 ++ d)%list path = Returned meta
    /\ picture meta = Some (pic :: pics)
    /\ r = "data:" ++ format pic ++ ";base64," ++ JS.base64 (data pic).

(** What a non-empty result of each strategy is. *)
Definition producedBy (E : Env) (s : strategy)
  : list event -> list event -> string -> Prop :=
  match s with
  | AppleScript | Cache => readJpeg E
  | ITunes | LastFm => fetchedJpeg E
  | FileTags => taggedPicture E
  end.

(** The same for a result that may be empty, and for the result of a
    search loop. *)
Definition ifAny (Q : list event -> list event -> string -> Prop)
    (h0 H : list event) (r : string) : Prop :=
  r <> "" -> Q h0 H r.

Definition ifFound (Q : list event -> list event -> string -> Prop)
    (h0 H : list event) (o : option string) : Prop :=
  forall r, o = Some r -> r <> "" /\ Q h0 H r.

(** [traces Q m]: whatever [m] returns satisfies [Q] with the history
    before and the history after. *)
Definition traces {A : Type} (Q : list event -> list event -> A -> Prop) (m : M A)
  : Prop :=
  forall w a, fst (m w) = Returned a -> Q (history w) (history (snd (m w))) a.

(** [grows m]: [m] only adds to the history. *)
Definition grows {A : Type} (m : M A) : Prop :=
  forall w, exists d, history (snd (m w)) = (history w ++ d)%list.


(** Events by kind. *)
Definition isPublish (e : event) : bool :=
  match e with Publish _ => true | _ => false end.

Definition isArtworkQuery (e : event) : bool :=
  match e with ExecSync ArtworkScript => true | _ => false end.

(** Neither the query that opens a resolution nor a publication. *)
Definition background (e : event) : bool :=
  negb (isPublish e) && negb (isArtworkQuery e).

(** The six queries of [getBasicSongInfo], in order. *)
Definition basicQueries : list event :=
  [ ExecSync PlayerStateScript; ExecSync TrackTitleScript; ExecSync TrackArtistScript;
    ExecSync TrackAlbumScript; ExecSync DurationScript; ExecSync PositionScript ].

(** How often a resolution was begun, and what was published. *)
Definition resolutions (l : list event) : nat :=
  List.length (filter isArtworkQuery l).

Definition publications (l : list event) : list Payload :=
  flat_map (fun e => match e with Publish p => [p] | _ => [] end) l.

(** The detector's invariant: the stored key is the key of the stored
    song. *)
Definition keyed (a : App) : Prop :=
  match currentSong a with
  | Some cur => lastSongKey a = songKey cur
  | None => True
  end.


(** An answer that yields no value: an exception, or the string [none]. *)
Definition noAnswer (o : outcome string) (none : string) : bool :=
  match o with Returned s => String.eqb s none | Threw => true end.

(** The poller cannot obtain basic song info: the player state is
    "stopped", or the title or the artist is empty, or one of these
    three queries throws. *)
Definition cannotObtain (E : Env) (w : World) : bool :=
  noAnswer (osascript E (history w) PlayerStateScript) "stopped"
  || noAnswer (osascript E (history w ++ [ExecSync PlayerStateScript])%list
                 TrackTitleScript) ""
  || noAnswer (osascript E
                 (history w ++ [ExecSync PlayerStateScript; ExecSync TrackTitleScript])%list
                 TrackArtistScript) "".

(** The first external call of each strategy. *)
Definition firstCall (E : Env) (s : strategy) : event :=
  match s with
  | AppleScript => ExecSync ArtworkScript
  | ITunes => ExecSync TrackTitleScript
  | LastFm => ExecSync TrackTitleScript
  | FileTags => ExecSync LocationScript
  | Cache =>
      ExistsSync
        (join E (JS.optOrElse (env_HOME E) "")
           "Library/Containers/com.apple.AMPMusic/Data/Documents/Artwork")
  end.

Definition anyEvent (e : event) : bool := true.

End Observe.

(** ** Sample worlds *)

Module Demo.

Import Server.

(** Decimal readers standing for [parseInt] and [parseFloat] on what a
    player prints: an optional sign and digits, for [parseFloat] with an
    optional fraction.  As in JavaScript, reading stops at the first
    character that does not belong to the number, and a string that
    starts with no number gives [NaN].  Leading white space and
    exponents, which the trimmed output of the sample players never
    has, are not read; a number of up to fifteen digits is read
    exactly as JavaScript reads it. *)
Definition digit (c : ascii) : option float :=
  let n := N_of_ascii c in
  if ((48 <=? n) && (n <=? 57))%N
  then Some (nth (N.to_nat (n - 48))
               [0; 1; 2; 3; 4; 5; 6; 7; 8; 9]%float nan)
  else None.

(** The digits [s] starts with, read onto [acc] and counted in [scale];
    whether there was one; and what follows them. *)
Fixpoint readDigits (s : string) (acc scale : float) (seen : bool)
  : float * float * bool * string :=
  match s with
  | EmptyString => (acc, scale, seen, s)
  | String c r =>
      match digit c with
      | Some d => readDigits r (acc * 10 + d)%float (scale * 10)%float true
      | None => (acc, scale, seen, s)
      end
  end.

Definition signed (read : string -> float) (s : string) : float :=
  match s with
  | String "-" r => (- read r)%float
  | String "+" r => read r
  | _ => read s
  end.

Definition readInt : string -> float :=
  signed (fun s =>
    let '(n, _, seen, _) := readDigits s 0%float 1%float false in
    if seen then n else nan).

Definition readFloat : string -> float :=
  signed (fun s =>
    let '(n, _, seenInt, rest) := readDigits s 0%float 1%float false in
    match rest with
    | String "." r =>
        let '(m, scale, seenFrac, _) := readDigits r n 1%float false in
        if seenInt || seenFrac then (m / scale)%float else nan
    | _ => if seenInt then n else nan
    end).

(** [path.join] on the paths of the sample worlds, which have no dot
    segment and no trailing separator: an empty first part is left
    out. *)
Definition pathJoin (a b : string) : string :=
  if String.eqb a "" then b else a ++ "/" ++ b.

(** What the player answers to the eight scripts. *)
Record Player : Type := mkPlayer {
  playerState : string;
  trackName : string;
  trackArtist : string;
  trackAlbum : string;
  trackDuration : string;
  playerPosition : string;
  artworkFile : string;
  trackLocation : string
}.

Definition answer (p : Player) (s : script) : string :=
  match s with
  | PlayerStateScript => playerState p
  | TrackTitleScript => trackName p
  | TrackArtistScript => trackArtist p
  | TrackAlbumScript => trackAlbum p
  | DurationScript => trackDuration p
  | PositionScript => playerPosition p
  | ArtworkScript => artworkFile p
  | LocationScript => trackLocation p
  end.

(** A machine without network: the player answers, the files of [disk]
    exist, every request and every directory listing fails. *)
Definition offline (p : Player) (disk : string -> option (list Byte.byte)) : Env :=
  {| osascript := fun _ s => Returned (answer p s);
     parseInt := readInt;
     parseFloat := readFloat;
     existsSync := fun _ path => match disk path with Some _ => true | None => false end;
     readFileSync := fun _ path =>
                       match disk path with Some b => Returned b | None => Threw end;
     readdirSync := fun _ _ => Threw;
     statSync_mtime := fun _ _ => Threw;
     fetch := fun _ _ => Threw;
     parseFile := fun _ _ => Threw;
     Date_now := fun _ => 1700000000000%float;
     env_HOME := Some "/Users/me";
     env_LASTFM_API_KEY := None;
     join := pathJoin |}.

(** A machine on which every call that can fail does. *)
Definition hostile : Env :=
  {| osascript := fun _ _ => Threw;
     parseInt := readInt;
     parseFloat := readFloat;
     existsSync := fun _ _ => false;
     readFileSync := fun _ _ => Threw;
     readdirSync := fun _ _ => Threw;
     statSync_mtime := fun _ _ => Threw;
     fetch := fun _ _ => Threw;
     parseFile := fun _ _ => Threw;
     Date_now := fun _ => 1700000000000%float;
     env_HOME := None;
     env_LASTFM_API_KEY := None;
     join := pathJoin |}.

Definition noDisk (path : string) : option (list Byte.byte) := None.

(** A disk holding one three-byte file, the exported artwork. *)
Definition artDisk (path : string) : option (list Byte.byte) :=
  if String.eqb path "/tmp/album_art_1234.jpg"
  then Some [Byte.x4d; Byte.x61; Byte.x6e] else None.

(** Track B by A on album C, playing at second 30 of 200. *)
Definition playingABC : Player :=
  {| playerState := "playing"; trackName := "B"; trackArtist := "A"; trackAlbum := "C";
     trackDuration := "200"; playerPosition := "30";
     artworkFile := ""; trackLocation := "" |}.


(** The same track with embedded artwork. *)
Definition playingABCart : Player :=
  {| playerState := "playing"; trackName := "B"; trackArtist := "A"; trackAlbum := "C";
     trackDuration := "200"; playerPosition := "30";
     artworkFile := "/tmp/album_art_1234.jpg"; trackLocation := "" |}.

(** A player that is not playing. *)
Definition stopped : Player :=
  {| playerState := "stopped"; trackName := ""; trackArtist := ""; trackAlbum := "";
     trackDuration := "0"; playerPosition := "0";
     artworkFile := ""; trackLocation := "" |}.

(** Two different tracks whose keys coincide: title C by artist A-B,
    then title B-C by artist A, both on album D. *)
Definition trackC_byAB : Player :=
  {| playerState := "playing"; trackName := "C"; trackArtist := "A-B"; trackAlbum := "D";
     trackDuration := "200"; playerPosition := "30";
     artworkFile := ""; trackLocation := "" |}.

Definition trackBC_byA : Player :=
  {| playerState := "playing"; trackName := "B-C"; trackArtist := "A"; trackAlbum := "D";
     trackDuration := "180"; playerPosition := "30";
     artworkFile := ""; trackLocation := "" |}.

(** The song the server holds for [playingABC]. *)
Definition songABC : SongData :=
  {| title := "B"; artist := "A"; album := "C"; state := "playing";
     albumArt := None; duration := Some 200%float; position := Some 30%float;
     timestamp := None |}.

(** A fresh instance, as [start()] finds it. *)
Definition fresh : World := {| this := newApp; history := [] |}.

(** The world after a call of [sendCurrentSong] while [playingABC]
    plays: the server holds [songABC] under the key A-B-C. *)
Definition holdingABC : World :=
  snd (sendCurrentSong (offline playingABC noDisk) fresh).

(** The image list of a Last.fm album, smallest size first. *)
Definition lastfmImages : list LastFmImage :=
  [ {| size := "small"; text := "https://img/34s.png" |};
    {| size := "medium"; text := "https://img/64s.png" |};
    {| size := "large"; text := "https://img/174s.png" |};
    {| size := "extralarge"; text := "https://img/300x300.png" |};
    {| size := "mega"; text := "https://img/600x600.png" |} ].

End Demo.

From Stdlib Require Import Permutation.

(** ** Measuring a run *)

Module Measure.

Import Server Observe.

(** Network requests. *)
Definition isFetch (e : event) : bool :=
  match e with Fetch _ _ => true | _ => false end.

Definition offNetwork (e : event) : bool := negb (isFetch e).

Definition fetches (l : list event) : nat := List.length (filter isFetch l).

(** [costs n m]: [m] only adds to the history, and what it adds holds
    at most [n] network requests. *)
Definition costs {A : Type} (n : nat) (m : M A) : Prop :=
  forall w, exists d, history (snd (m w)) = (history w ++ d)%list /\ fetches d <= n.

(** A player that answers each script the same way whenever it is
    asked. *)
Definition steady (E : Env) : Prop :=
  forall h h' s, osascript E h s = osascript E h' s.

(** A player without a current track: the title query never yields a
    title. *)
Definition untitled (E : Env) : Prop :=
  forall h, noAnswer (osascript E h TrackTitleScript) "" = true.

(** The keys of a JSON object. *)
Definition jsonKeys (j : JS.JSON) : list string :=
  match j with JS.JObject fields => map fst fields | _ => [] end.

(** The JSON body of a reply, if it has one. *)
Definition jsonBody (r : Reply) : option JS.JSON :=
  match body r with JsonBody j => Some j | _ => None end.

(** The modification time of an entry of [sortedFiles]. *)
Definition mtimeOf (f : string * string * Z) : Z := snd f.

(** Newest first. *)
Inductive newestFirst : list (string * string * Z) -> Prop :=
| newestFirst_nil : newestFirst []
| newestFirst_cons x l :
    Forall (fun y => (mtimeOf y <= mtimeOf x)%Z) l -> newestFirst l ->
    newestFirst (x :: l).

(** The cache directory [getCachedArtwork] scans. *)
Definition artworkPath (E : Env) : string :=
  join E (JS.optOrElse (env_HOME E) "")
    "Library/Containers/com.apple.AMPMusic/Data/Documents/Artwork".

(** How often a character occurs in a string. *)
Fixpoint occurrences (c : ascii) (s : string) : nat :=
  match s with
  | EmptyString => 0
  | String x r => (if Ascii.eqb x c then 1 else 0) + occurrences c r
  end.

(** The song served over HTTP carries no timestamp. *)
Definition untimed (a : App) : Prop :=
  forall s, currentSong a = Some s -> timestamp s = None.

(** A cache directory that does not change while it is scanned: it
    exists and lists [files], the file [f] was modified at [mt f], and a
    path [p] reads as [content p]. *)
Definition stillCache (E : Env) (files : list string) (mt : string -> Z)
    (content : string -> list Byte.byte) : Prop :=
  (forall h, existsSync E h (artworkPath E) = true)
  /\ (forall h, readdirSync E h (artworkPath E) = Returned files)
  /\ (forall h f, statSync_mtime E h (join E (artworkPath E) f) = Returned (mt f))
  /\ (forall h p, readFileSync E h p = Returned (content p)).

End Measure.

(** ** More sample worlds *)

Module Demo2.

Import Server.

(** A cache directory with three files; b.jpg and c.jpg are the newest. *)
Definition cacheFiles : list string := ["a.jpg"; "b.jpg"; "c.jpg"].

Definition cacheMtime (f : string) : Z :=
  if String.eqb f "a.jpg" then 100%Z else 300%Z.

Definition cacheContent (path : string) : list Byte.byte :=
  if String.eqb path
       "/Users/me/Library/Containers/com.apple.AMPMusic/Data/Documents/Artwork/b.jpg"
  then [Byte.x4d; Byte.x61; Byte.x6e] else [Byte.x4d].

(** A machine without network and without a player, with that cache. *)
Definition cached : Env :=
  {| osascript := fun _ _ => Threw;
     parseInt := Demo.readInt;
     parseFloat := Demo.readFloat;
     existsSync := fun _ _ => true;
     readFileSync := fun _ path => Returned (cacheContent path);
     readdirSync := fun _ _ => Returned cacheFiles;
     statSync_mtime :=
       fun _ path =>
         Returned
           (if String.eqb path
                 "/Users/me/Library/Containers/com.apple.AMPMusic/Data/Documents/Artwork/a.jpg"
            then 100%Z else 300%Z);
     fetch := fun _ _ => Threw;
     parseFile := fun _ _ => Threw;
     Date_now := fun _ => 1700000000000%float;
     env_HOME := Some "/Users/me";
     env_LASTFM_API_KEY := None;
     join := Demo.pathJoin |}.

(** A network on which every search finds an album and no image can be
    downloaded. *)
Definition searchHit : Response :=
  {| ok := true;
     status := 200;
     json_iTunes :=
       Returned {| results := Some [ {| artistName := "A"; collectionName := "C";
                                        artworkUrl100 := Some "https://img/100x100bb.jpg" |} ];
                   resultCount := 1%float |};
     json_LastFm :=
       Returned {| lfAlbum := Some {| name := "C"; albumArtist := "A";
                                      image := Some Demo.lastfmImages |} |};
     arrayBuffer := Threw |}.

Definition notFound : Response :=
  {| ok := false; status := 404; json_iTunes := Threw; json_LastFm := Threw;
     arrayBuffer := Threw |}.

Definition isSearch (url : string) : bool :=
  String.prefix "https://itunes.apple.com/" url
  || String.prefix "https://ws.audioscrobbler.com/" url.

Definition noImages : Env :=
  {| osascript := fun _ s => Returned (Demo.answer Demo.playingABC s);
     parseInt := Demo.readInt;
     parseFloat := Demo.readFloat;
     existsSync := fun _ _ => false;
     readFileSync := fun _ _ => Threw;
     readdirSync := fun _ _ => Threw;
     statSync_mtime := fun _ _ => Threw;
     fetch := fun _ url => Returned (if isSearch url then searchHit else notFound);
     parseFile := fun _ _ => Threw;
     Date_now := fun _ => 1700000000000%float;
     env_HOME := Some "/Users/me";
     env_LASTFM_API_KEY := None;
     join := Demo.pathJoin |}.

(** The eight bytes every PNG file begins with. *)
Definition pngBytes : list Byte.byte :=
  [Byte.x89; Byte.x50; Byte.x4e; Byte.x47; Byte.x0d; Byte.x0a; Byte.x1a; Byte.x0a].

(** An image server that answers with a PNG file. *)
Definition pngImage : Response :=
  {| ok := true; status := 200; json_iTunes := Threw; json_LastFm := Threw;
     arrayBuffer := Returned pngBytes |}.

(** A machine on which [playingABC] plays a file of the local disk, with
    a network [net] and the tags [tags] in that file; no artwork can be
    exported and there is no cache directory. *)
Definition localFile : Demo.Player :=
  {| Demo.playerState := "playing"; Demo.trackName := "B"; Demo.trackArtist := "A";
     Demo.trackAlbum := "C"; Demo.trackDuration := "200"; Demo.playerPosition := "30.5";
     Demo.artworkFile := ""; Demo.trackLocation := "/Users/me/Music/b.m4a" |}.

(** The song the server holds for [localFile]. *)
Definition songLocal : SongData :=
  {| title := "B"; artist := "A"; album := "C"; state := "playing";
     albumArt := None; duration := Some 200%float; position := Some 30.5%float;
     timestamp := None |}.

Definition machine (net : string -> outcome Response) (tags : outcome Metadata) : Env :=
  {| osascript := fun _ s => Returned (Demo.answer localFile s);
     parseInt := Demo.readInt;
     parseFloat := Demo.readFloat;
     existsSync := fun _ path => String.eqb path "/Users/me/Music/b.m4a";
     readFileSync := fun _ _ => Threw;
     readdirSync := fun _ _ => Threw;
     statSync_mtime := fun _ _ => Threw;
     fetch := fun _ url => net url;
     parseFile := fun _ _ => tags;
     Date_now := fun _ => 1700000000000%float;
     env_HOME := Some "/Users/me";
     env_LASTFM_API_KEY := None;
     join := Demo.pathJoin |}.

(** Every search finds the album and the image server answers. *)
Definition online : Env :=
  machine (fun url => Returned (if isSearch url then searchHit else pngImage)) Threw.

(** The iTunes search is down, Last.fm finds the album, and the image
    server answers. *)
Definition lastfmOnly : Env :=
  machine (fun url =>
             if String.prefix "https://itunes.apple.com/" url then Threw
             else Returned (if isSearch url then searchHit else pngImage))
    Threw.

(** No network; the file carries a PNG picture and a second picture. *)
Definition tagged : Env :=
  machine (fun _ => Threw)
    (Returned {| picture := Some [ {| format := "image/png"; data := pngBytes |};
                                   {| format := "image/jpeg"; data := [Byte.x4d] |} ] |}).

End Demo2.

(** ** The display client: fetching, transitions and colours *)

Module ClientUI.

Import Client.

(** *** [fetchCurrentSong] *)

(** What [fetch] on one port gives when it returns: [response.ok], and
    what [response.json()] yields ([None] for [null], which is falsy). *)
Record Probe : Type := mkProbe {
  probe_ok : bool;
  probe_json : Server.outcome (option SongData)
}.

(** The network as the client sees it in one call: the outcome of
    [fetch] on each port (a refused connection or a timeout throws). *)
Definition Net : Type := N -> Server.outcome Probe.

Definition ports : list N := [3001; 3002; 3003; 3004; 3005]%N.

(** The [for (const port of ports)] loop: the ports it fetched from, and
    the response it left the loop with. *)
Fixpoint probePorts (net : Net) (ps : list N) : list N * option Probe :=
  match ps with
  | [] => ([], None)
  | port :: rest =>
      match net port with
      | Server.Returned testResponse =>
          if probe_ok testResponse then ([port], Some testResponse)
          else let (tried, response) := probePorts net rest in (port :: tried, response)
      | Server.Threw =>
          let (tried, response) := probePorts net rest in (port :: tried, response)
      end
  end.

(** The state [fetchCurrentSong] writes, and the ports it fetched from. *)
Record Fetched : Type := mkFetched {
  f_currentSong : option SongData;
  f_isLoading : bool;
  f_probed : list N
}.

Definition fetchCurrentSong (net : Net) (currentSong : option SongData)
    (isLoading : bool) : Fetched :=
  let (tried, response) := probePorts net ports in
  match response with
  | Some r =>
      if probe_ok r then
        match probe_json r with
        | Server.Returned (Some songData) =>
            {| f_currentSong := Some songData; f_isLoading := false; f_probed := tried |}
        | Server.Returned None =>
            {| f_currentSong := None; f_isLoading := false; f_probed := tried |}
        | Server.Threw =>
            {| f_currentSong := currentSong; f_isLoading := false; f_probed := tried |}
        end
      else {| f_currentSong := currentSong; f_isLoading := false; f_probed := tried |}
  | None => {| f_currentSong := currentSong; f_isLoading := false; f_probed := tried |}
  end.

(** A port answers when [fetch] returns a response that is ok. *)
Definition answers (net : Net) (port : N) : bool :=
  match net port with
  | Server.Returned r => probe_ok r
  | Server.Threw => false
  end.

(** *** The transition between songs *)

(** The React state of the transition, and the [setTimeout] callbacks
    that are pending, each with the song it captured. *)
Record Stage : Type := mkStage {
  st_current : option SongData;
  st_previous : option SongData;
  st_display : option SongData;
  st_animating : bool;
  st_timers : list SongData
}.

Definition songChanged (a b : SongData) : bool :=
  negb (String.eqb (title a) (title b))
  || negb (String.eqb (artist a) (artist b))
  || negb (String.eqb (album a) (album b)).

(** The effect on [currentSong, previousSong]. *)
Definition songEffect (s : Stage) : Stage :=
  let s1 :=
    match st_current s, st_previous s with
    | Some cur, Some prev =>
        if songChanged cur prev then
          {| st_current := st_current s; st_previous := st_previous s;
             st_display := st_display s; st_animating := true;
             st_timers := (st_timers s ++ [cur])%list |}
        else s
    | Some cur, None =>
        {| st_current := st_current s; st_previous := st_previous s;
           st_display := Some cur; st_animating := st_animating s;
           st_timers := st_timers s |}
    | None, _ => s
    end in
  {| st_current := st_current s1; st_previous := st_current s;
     st_display := st_display s1; st_animating := st_animating s1;
     st_timers := st_timers s1 |}.

(** [setCurrentSong(song)] and the effect it triggers. *)
Definition receive (song : option SongData) (s : Stage) : Stage :=
  songEffect {| st_current := song; st_previous := st_previous s;
                st_display := st_display s; st_animating := st_animating s;
                st_timers := st_timers s |}.

(** The oldest pending callback fires, 500 ms after it was set. *)
Definition timeout (s : Stage) : Stage :=
  match st_timers s with
  | song :: rest =>
      {| st_current := st_current s; st_previous := st_previous s;
         st_display := Some song; st_animating := false; st_timers := rest |}
  | [] => s
  end.

Inductive step : Type :=
| Receive (song : option SongData)
| Timeout.

Definition apply (e : step) (s : Stage) : Stage :=
  match e with
  | Receive song => receive song s
  | Timeout => timeout s
  end.

Definition run (steps : list step) (s : Stage) : Stage :=
  fold_left (fun acc e => apply e acc) steps s.

(** What the component returns. *)
Inductive screen : Type :=
| LoadingScreen
| NoMusicScreen
| PlayerScreen (song : SongData).

Definition render (isLoading : bool) (s : Stage) : screen :=
  match st_display s with
  | None => if isLoading then LoadingScreen else NoMusicScreen
  | Some song => PlayerScreen song
  end.

(** The first render. *)
Definition initial : Stage :=
  {| st_current := None; st_previous := None; st_display := None;
     st_animating := false; st_timers := [] |}.

(** *** Colours *)

Definition hexLower (n : N) : ascii :=
  nth (N.to_nat n) (list_ascii_of_string "0123456789abcdef") "0"%char.

(** [x.toString(16)] for a non-negative integer. *)
Fixpoint toHex (fuel : nat) (x : N) : string :=
  match fuel with
  | O => EmptyString
  | S k =>
      if (x <? 16)%N then String (hexLower x) EmptyString
      else toHex k (x / 16) ++ String (hexLower (x mod 16)) EmptyString
  end.

Definition toString16 (x : N) : string := toHex (S (N.size_nat x)) x.

(** One component: [hex.length === 1 ? '0' + hex : hex]. *)
Definition component (x : N) : string :=
  let hex := toString16 x in
  if Nat.eqb (String.length hex) 1 then "0" ++ hex else hex.

(** [rgbToHex], on the integer components ColorThief returns. *)
Definition rgbToHex (r g b : N) : string :=
  "#" ++ component r ++ component g ++ component b.

End ClientUI.

(** ** The event loop: [start()], the timer and the calls in flight *)

Module Loop.

Import Server Observe.
Local Open Scope js_scope.

(** [start()] calls [sendCurrentSong] without awaiting it and arms a
    timer whose ticks call [checkForChanges], so several calls can be
    in flight.  JavaScript runs one of them at a time and switches only
    where a call waits for something outside: a timer tick cannot run
    between two synchronous statements, nor between an [await] of a
    promise that is already settled and the statement after it.  The
    player queries, the file system calls, [Date.now] and the
    publication are synchronous.  The only waits are those for the
    network and for the tag reader, and they all lie in
    [await this.getAlbumArt()], after the first strategy.

    So a call is cut in two: its _head_, up to the point where the
    resolver has to wait, and its _tail_, from the return of the
    resolver to the end.  Head and tail each run in one piece. *)

Section Calls.

Variable E : Env.

(** [getAlbumArt] after its first strategy. *)
Definition getAlbumArt_rest : M string :=
  itunesArt <- getItunesArtwork E ;;
  if JS.truthy itunesArt then ret itunesArt
  else
    lastfmArt <- getLastfmArtwork E ;;
    if JS.truthy lastfmArt then ret lastfmArt
    else
      metadataArt <- getMetadataArtwork E ;;
      if JS.truthy metadataArt then ret metadataArt
      else
        cachedArt <- getCachedArtwork E ;;
        if JS.truthy cachedArt then ret cachedArt
        else ret "".

(** [checkForChanges] from the return of [getAlbumArt] on. *)
Definition checkForChanges_tail (basicSong : SongData) (albumArt : string) : M unit :=
  let fullSong := with_albumArt basicSong (JS.orUndefined albumArt) in
  set_currentSong (Some fullSong) ;;;
  sendSongToDeskThing E fullSong ;;;
  t <- now E ;;
  set_lastSongData (Some (with_timestamp fullSong t)).

(** [checkForChanges] up to the wait: [Some basicSong] when the call
    now waits for the resolver, [None] when it has run to its end. *)
Definition checkForChanges_head : M (option SongData) :=
  try_catch
    (basic <- getBasicSongInfo E ;;
     match basic with
     | None => ret None
     | Some basicSong =>
         a <- getThis ;;
         let currentSongKey := songKey basicSong in
         let hasSongChanged := negb (String.eqb currentSongKey (lastSongKey a)) in
         let hasPositionChanged :=
           match currentSong a with
           | Some cur => positionDrifted cur basicSong
           | None => true
           end in
         let hasStateChanged :=
           match currentSong a with
           | Some cur => negb (String.eqb (state cur) (state basicSong))
           | None => true
           end in
         if hasSongChanged then
           set_lastSongKey currentSongKey ;;;
           base64Art <- getAppleScriptArtworkBase64 E ;;
           if JS.truthy base64Art then
             checkForChanges_tail basicSong base64Art ;;;
             ret None
           else ret (Some basicSong)
         else
           (if hasPositionChanged || hasStateChanged then
              match currentSong a with
              | Some cur =>
                  let cur' :=
                    with_playback cur (position basicSong) (duration basicSong)
                      (state basicSong) in
                  set_currentSong (Some cur') ;;;
                  sendSongToDeskThing E cur'
              | None => set_currentSong (Some basicSong)
              end
            else ret tt) ;;;
           ret None
     end)
    (ret None).

(** [sendCurrentSong], with [getCurrentSong] in it, from the return of
    [getAlbumArt] on. *)
Definition sendCurrentSong_tail (basicSong : SongData) (albumArt : string) : M unit :=
  let currentSong := with_albumArt basicSong (JS.orUndefined albumArt) in
  set_currentSong (Some currentSong) ;;;
  sendSongToDeskThing E currentSong ;;;
  t <- now E ;;
  set_lastSongData (Some (with_timestamp currentSong t)) ;;;
  set_lastSongKey (songKey currentSong).

(** [sendCurrentSong] up to the wait. *)
Definition sendCurrentSong_head : M (option SongData) :=
  try_catch
    (basic <- getBasicSongInfo E ;;
     match basic with
     | None => set_currentSong None ;;; ret None
     | Some basicSong =>
         base64Art <- getAppleScriptArtworkBase64 E ;;
         if JS.truthy base64Art then
           sendCurrentSong_tail basicSong base64Art ;;;
           ret None
         else ret (Some basicSong)
     end)
    (ret None).

(** A call that waits for the resolver, with the song it polled. *)
Inductive call : Type :=
| Sending (basicSong : SongData)
| Checking (basicSong : SongData).

Definition basicOf (c : call) : SongData :=
  match c with Sending b => b | Checking b => b end.

Definition tail (c : call) (albumArt : string) : M unit :=
  match c with
  | Sending basicSong => sendCurrentSong_tail basicSong albumArt
  | Checking basicSong => checkForChanges_tail basicSong albumArt
  end.

(** The instance with the history, and the calls that wait. *)
Record State : Type := mkState {
  world : World;
  waiting : list call
}.

(** A call begins: its head runs, and the call joins those that wait
    unless it has run to its end. *)
Definition enter (mk : SongData -> call) (head : M (option SongData)) (l : State)
  : State :=
  {| world := snd (head (world l));
     waiting := match fst (head (world l)) with
                | Returned (Some basicSong) => (waiting l ++ [mk basicSong])%list
                | _ => waiting l
                end |}.

(** [start()]: the call of [sendCurrentSong] begins, and the timer is
    armed. *)
Definition start (w : World) : State :=
  enter Sending sendCurrentSong_head {| world := w; waiting := [] |}.

(** What happens next: the timer ticks and a call of [checkForChanges]
    begins; or the resolvers of the waiting calls make external calls
    (any but the query that opens a resolution and a publication, which
    no strategy after the first makes); or the resolver of a waiting
    call returns [albumArt] and the call runs to its end.  The model
    does not say what [albumArt] is nor which calls the resolvers make:
    it covers every answer of the network. *)
Inductive step : State -> State -> Prop :=
| tick l :
    step l (enter Checking checkForChanges_head l)
| resolving l d :
    waiting l <> [] ->
    forallb background d = true ->
    step l {| world := {| this := this (world l);
                          history := (history (world l) ++ d)%list |};
              waiting := waiting l |}
| resume l before c after albumArt :
    waiting l = (before ++ c :: after)%list ->
    step l {| world := snd (tail c albumArt (world l));
              waiting := (before ++ after)%list |}.

Inductive runs : State -> State -> Prop :=
| runs_here l : runs l l
| runs_on l1 l2 l3 : runs l1 l2 -> step l2 l3 -> runs l1 l3.

(** An instance on which no call is in flight. *)
Definition idle (w : World) : State := {| world := w; waiting := [] |}.

(** The invariant of what is served: neither the stored song nor a song
    a waiting call will store has a timestamp. *)
Definition untimedState (l : State) : Prop :=
  (forall s, currentSong (this (world l)) = Some s -> timestamp s = None)
  /\ Forall (fun c => timestamp (basicOf c) = None) (waiting l).

(** The stored song is where the player is: same position, same state. *)
Definition inStep (basic : SongData) (a : App) : Prop :=
  forall c, currentSong a = Some c ->
            position c = position basic /\ state c = state basic.

(** The states of the loop while the player keeps reporting [basic]:
    every waiting call polled [basic]; the stored song is in step;
    every resolution begun was published or still waits; and either
    only the first call has begun and waits, or the key of [basic] is
    stored and one or two resolutions have begun. *)
Definition steadyState (basic : SongData) (l : State) : Prop :=
  let a := this (world l) in
  let h := history (world l) in
  Forall (fun c => basicOf c = basic) (waiting l)
  /\ inStep basic a
  /\ (publications h <> [] -> currentSong a <> None)
  /\ resolutions h = List.length (publications h) + List.length (waiting l)
  /\ ((lastSongKey a = "" /\ waiting l = [Sending basic] /\ publications h = [])
      \/ (lastSongKey a = songKey basic /\ 1 <= resolutions h <= 2)).

(** No call waits, and the instance holds [basic]'s key and a song in
    step with it. *)
Definition settled (basic : SongData) (l : State) : Prop :=
  waiting l = []
  /\ lastSongKey (this (world l)) = songKey basic
  /\ currentSong (this (world l)) <> None
  /\ inStep basic (this (world l)).

End Calls.







End Loop.

(** * Properties of the JavaScript helpers *)

Module JSFacts.

Example base64_Man : JS.base64 [Byte.x4d; Byte.x61; Byte.x6e] = "TWFu".
Proof. reflexivity. Qed.

Example base64_Ma : JS.base64 [Byte.x4d; Byte.x61] = "TWE=".
Proof. reflexivity. Qed.

Example base64_M : JS.base64 [Byte.x4d] = "TQ==".
Proof. reflexivity. Qed.

Example encodeURIComponent_slash_space :
  JS.encodeURIComponent "AC/DC Back in Black" = "AC%2FDC%20Back%20in%20Black".
Proof. reflexivity. Qed.

Example replace_first_only :
  JS.replace "100x100" "600x600" "http://a/100x100/100x100bb.jpg"
  = "http://a/600x600/100x100bb.jpg".
Proof. reflexivity. Qed.

Example Math_min_signed_zero : JS.Math_min 0%float (-0)%float = (-0)%float.
Proof. reflexivity. Qed.

(** Lists three elements at a time, as [base64] reads them. *)
Lemma list_ind3 {A : Type} (P : list A -> Prop) :
  P [] -> (forall a, P [a]) -> (forall a b, P [a; b]) ->
  (forall a b c l, P l -> P (a :: b :: c :: l)) ->
  forall l, P l.
Proof.
  intros H0 H1 H2 H3 l.
  assert (H : P l /\ (forall a, P (a :: l)) /\ (forall a b, P (a :: b :: l))).
  { induction l as [|x l (IH0 & IH1 & IH2)].
    - now repeat split.
    - split; [apply IH1|]. split; [intro a; apply IH2|].
      intros a b. now apply H3. }
  exact (proj1 H).
Qed.

(** The payload has four characters for every three bytes begun. *)
Lemma base64_length bs :
  String.length (JS.base64 bs) = 4 * ((List.length bs + 2) / 3).
Proof.
  induction bs as [| a | a b | a b c l IH] using list_ind3; try reflexivity.
  cbn [JS.base64 String.length List.length]. rewrite IH.
  replace (S (S (S (List.length l))) + 2) with (List.length l + 2 + 1 * 3) by lia.
  rewrite Nat.div_add by lia. lia.
Qed.

End JSFacts.

(** * Properties of the server *)

Module ServerFacts.

Import Server Observe.
Local Open Scope js_scope.

(** ** Reasoning about methods *)

Lemma total_ret {A : Type} (a : A) : total (ret a).
Proof. intro w. exists a. reflexivity. Qed.

Lemma total_bind {A B : Type} (m : M A) (k : A -> M B) :
  total m -> (forall a, total (k a)) -> total (bind m k).
Proof.
  intros Hm Hk w. unfold bind.
  destruct (Hm w) as [a Ha]. destruct (m w) as [o w']. simpl in Ha. subst o.
  apply Hk.
Qed.

Lemma total_try_catch {A : Type} (m h : M A) : total h -> total (try_catch m h).
Proof.
  intros Hh w. unfold try_catch. destruct (m w) as [[a|] w'].
  - exists a. reflexivity.
  - apply Hh.
Qed.

Lemma only_ret {A : Type} P (a : A) : only P (ret a).
Proof.
  intro w. split; [reflexivity|]. exists []. simpl. now rewrite app_nil_r.
Qed.

Lemma only_throw {A : Type} P : only P (@throw A).
Proof.
  intro w. split; [reflexivity|]. exists []. simpl. now rewrite app_nil_r.
Qed.

Lemma only_await {A : Type} P (o : outcome A) : only P (await o).
Proof. destruct o; [apply only_ret | apply only_throw]. Qed.

Lemma only_external {A : Type} (P : event -> bool) e (f : list event -> outcome A) :
  P e = true -> only P (external e f).
Proof.
  intros He w. split; [reflexivity|]. exists [e]. simpl. now rewrite He.
Qed.

Lemma only_getThis P : only P getThis.
Proof.
  intro w. split; [reflexivity|]. exists []. simpl. now rewrite app_nil_r.
Qed.

Lemma only_bind {A B : Type} P (m : M A) (k : A -> M B) :
  only P m -> (forall a, only P (k a)) -> only P (bind m k).
Proof.
  intros Hm Hk w. unfold bind.
  destruct (Hm w) as [Ht [d [Hd Pd]]]. destruct (m w) as [[a|] w']; simpl in *.
  - destruct (Hk a w') as [Ht' [d' [Hd' Pd']]]. split; [congruence|].
    exists (d ++ d')%list. rewrite Hd', Hd, app_assoc, forallb_app, Pd, Pd'. now split.
  - split; [assumption|]. now exists d.
Qed.

Lemma only_try_catch {A : Type} P (m h : M A) :
  only P m -> only P h -> only P (try_catch m h).
Proof.
  intros Hm Hh w. unfold try_catch.
  destruct (Hm w) as [Ht [d [Hd Pd]]]. destruct (m w) as [[a|] w']; simpl in *.
  - split; [assumption|]. now exists d.
  - destruct (Hh w') as [Ht' [d' [Hd' Pd']]]. split; [congruence|].
    exists (d ++ d')%list. rewrite Hd', Hd, app_assoc, forallb_app, Pd, Pd'. now split.
Qed.

Lemma only_weaken {A : Type} (P Q : event -> bool) (m : M A) :
  (forall e, P e = true -> Q e = true) -> only P m -> only Q m.
Proof.
  intros PQ Hm w. destruct (Hm w) as [Ht [d [Hd Pd]]]. split; [assumption|].
  exists d. split; [assumption|]. rewrite forallb_forall in *. auto.
Qed.

Lemma startsWith_external {A : Type} P e (f : list event -> outcome A) :
  startsWith e P (external e f).
Proof. intro w. split; [reflexivity|]. now exists []. Qed.

Lemma startsWith_bind {A B : Type} P e (m : M A) (k : A -> M B) :
  startsWith e P m -> (forall a, only P (k a)) -> startsWith e P (bind m k).
Proof.
  intros Hm Hk w. unfold bind.
  destruct (Hm w) as [Ht [d [Hd Pd]]]. destruct (m w) as [[a|] w']; simpl in *.
  - destruct (Hk a w') as [Ht' [d' [Hd' Pd']]]. split; [congruence|].
    exists (d ++ d')%list.
    rewrite Hd', Hd, <- app_assoc, forallb_app, Pd, Pd'. now split.
  - split; [assumption|]. now exists d.
Qed.

Lemma startsWith_try_catch {A : Type} P e (m h : M A) :
  startsWith e P m -> only P h -> startsWith e P (try_catch m h).
Proof.
  intros Hm Hh w. unfold try_catch.
  destruct (Hm w) as [Ht [d [Hd Pd]]]. destruct (m w) as [[a|] w']; simpl in *.
  - split; [assumption|]. now exists d.
  - destruct (Hh w') as [Ht' [d' [Hd' Pd']]]. split; [congruence|].
    exists (d ++ d')%list.
    rewrite Hd', Hd, <- app_assoc, forallb_app, Pd, Pd'. now split.
Qed.

Lemma startsWith_weaken {A : Type} e (P Q : event -> bool) (m : M A) :
  (forall x, P x = true -> Q x = true) -> startsWith e P m -> startsWith e Q m.
Proof.
  intros PQ Hm w. destruct (Hm w) as [Ht [d [Hd Pd]]]. split; [assumption|].
  exists d. split; [assumption|]. rewrite forallb_forall in *. auto.
Qed.

Lemma only_any {A : Type} (P : event -> bool) (m : M A) : only P m -> only anyEvent m.
Proof. apply only_weaken. reflexivity. Qed.

Lemma since_app w w' d : history w' = (history w ++ d)%list -> since w w' = d.
Proof.
  intro H. unfold since. rewrite H, skipn_app, skipn_all, Nat.sub_diag. reflexivity.
Qed.

Lemma truthy_false s : JS.truthy s = false <-> s = "".
Proof.
  unfold JS.truthy. destruct (String.eqb_spec s ""); simpl; split; congruence.
Qed.

Lemma truthy_true s : JS.truthy s = true <-> s <> "".
Proof.
  unfold JS.truthy. destruct (String.eqb_spec s ""); simpl; split; congruence.
Qed.

Lemma yields_ret {A : Type} (Q : A -> Prop) a : Q a -> yields Q (ret a).
Proof. intros H w b Hb. simpl in Hb. now injection Hb as <-. Qed.

Lemma yields_throw {A : Type} (Q : A -> Prop) : yields Q throw.
Proof. intros w b Hb. discriminate. Qed.

Lemma yields_bind {A B : Type} (Q : B -> Prop) (m : M A) (k : A -> M B) :
  (forall a, yields Q (k a)) -> yields Q (bind m k).
Proof.
  intros Hk w b. unfold bind. destruct (m w) as [[a|] w'].
  - apply Hk.
  - discriminate.
Qed.

Lemma yields_try_catch {A : Type} (Q : A -> Prop) (m h : M A) :
  yields Q m -> yields Q h -> yields Q (try_catch m h).
Proof.
  intros Hm Hh w b. unfold try_catch.
  specialize (Hm w). destruct (m w) as [[a|] w'].
  - exact (Hm b).
  - apply Hh.
Qed.

Lemma yields_bind_with {A B : Type} (P : A -> Prop) (Q : B -> Prop)
      (m : M A) (k : A -> M B) :
  yields P m -> (forall a, P a -> yields Q (k a)) -> yields Q (bind m k).
Proof.
  intros Hm Hk w b. unfold bind. specialize (Hm w). destruct (m w) as [[a|] w'].
  - apply Hk. now apply Hm.
  - discriminate.
Qed.

(** One step of a [yields] proof. *)
Ltac yields_step :=
  match goal with
  | |- yields _ (ret _) => apply yields_ret
  | |- yields _ throw => apply yields_throw
  | |- yields _ (bind _ _) => apply yields_bind; intro
  | |- yields _ (try_catch _ _) => apply yields_try_catch
  | |- yields _ (if ?b then _ else _) => destruct b
  | |- yields _ (match ?x with _ => _ end) => destruct x
  | |- yields _ (let _ := _ in _) => cbv zeta
  end.

(** One step of an [only] proof: a combinator, or a case of the code. *)
Ltac only_step :=
  match goal with
  | |- only _ (ret _) => apply only_ret
  | |- only _ throw => apply only_throw
  | |- only _ (await _) => apply only_await
  | |- only _ getThis => apply only_getThis
  | |- only _ (external _ _) => apply only_external; reflexivity
  | |- only _ (bind _ _) => apply only_bind; [| intro]
  | |- only _ (try_catch _ _) => apply only_try_catch
  | |- only _ (if ?b then _ else _) => destruct b
  | |- only _ (match ?x with _ => _ end) => destruct x
  | |- only _ (let _ := _ in _) => cbv zeta
  end.

Ltac only_solve := repeat only_step; eauto.

Section Facts.

Variable E : Env.

Lemma only_execSync P s : P (ExecSync s) = true -> only P (execSync E s).
Proof. intro H. now apply only_external. Qed.

Lemma background_getBasicSongInfo : only background (getBasicSongInfo E).
Proof.
  unfold getBasicSongInfo, getPlayerState, getTrackTitle, getTrackArtist,
    getTrackAlbum, getSongDuration, getSongPosition, execSync.
  only_solve.
Qed.

Lemma background_fetchAndConvertImage url : only background (fetchAndConvertImage E url).
Proof. unfold fetchAndConvertImage, fetchAndConvertImage_try, net_fetch. only_solve. Qed.

Lemma background_itunesImage r : only background (itunesImage E r).
Proof.
  unfold itunesImage. only_solve; apply background_fetchAndConvertImage.
Qed.

Lemma background_itunesSearchLoop terms : only background (itunesSearchLoop E terms).
Proof.
  induction terms as [|t rest IH]; simpl.
  - apply only_ret.
  - unfold net_fetch. only_solve. apply background_itunesImage.
Qed.

Lemma background_getItunesArtwork : only background (getItunesArtwork E).
Proof.
  unfold getItunesArtwork, getItunesArtwork_try, getTrackTitle, getTrackArtist,
    getTrackAlbum, execSync, net_fetch.
  only_solve;
    first [apply background_itunesSearchLoop | apply background_itunesImage].
Qed.

Lemma background_lastfmSearchLoop key l : only background (lastfmSearchLoop E key l).
Proof.
  induction l as [|p rest IH]; simpl.
  - apply only_ret.
  - unfold net_fetch. only_solve; apply background_fetchAndConvertImage.
Qed.

Lemma background_getLastfmArtwork : only background (getLastfmArtwork E).
Proof.
  unfold getLastfmArtwork, getLastfmArtwork_try, getTrackTitle, getTrackArtist,
    getTrackAlbum, execSync.
  only_solve; apply background_lastfmSearchLoop.
Qed.

Lemma background_getMetadataArtwork : only background (getMetadataArtwork E).
Proof.
  unfold getMetadataArtwork, getMetadataArtwork_try, execSync, fs_existsSync,
    mm_parseFile.
  only_solve.
Qed.

Lemma background_statFiles dir files : only background (statFiles E dir files).
Proof.
  induction files as [|f rest IH]; simpl.
  - apply only_ret.
  - unfold fs_statSync_mtime. only_solve.
Qed.

Lemma background_getCachedArtwork : only background (getCachedArtwork E).
Proof.
  unfold getCachedArtwork, getCachedArtwork_try, fs_existsSync, fs_readdirSync,
    fs_readFileSync.
  only_solve; apply background_statFiles.
Qed.

(** ** The resolver *)

Lemma opens_getAppleScriptArtworkBase64 :
  startsWith (ExecSync ArtworkScript) background (getAppleScriptArtworkBase64 E).
Proof.
  unfold getAppleScriptArtworkBase64, getAppleScriptArtworkBase64_try.
  apply startsWith_try_catch; [| apply only_ret].
  apply startsWith_bind; [apply startsWith_external |].
  intro a. unfold fs_existsSync, fs_readFileSync. only_solve.
Qed.

Lemma opens_getAlbumArt :
  startsWith (ExecSync ArtworkScript) background (getAlbumArt E).
Proof.
  unfold getAlbumArt.
  apply startsWith_bind; [apply opens_getAppleScriptArtworkBase64 |].
  intro a.
  pose proof background_getItunesArtwork. pose proof background_getLastfmArtwork.
  pose proof background_getMetadataArtwork. pose proof background_getCachedArtwork.
  only_solve.
Qed.

(** Every strategy leaves its first call in the history: an attempt
    can be told from no attempt. *)
Lemma runStrategy_firstCall s :
  startsWith (firstCall E s) anyEvent (runStrategy E s).
Proof.
  destruct s; simpl.
  - eapply startsWith_weaken; [| apply opens_getAppleScriptArtworkBase64]. reflexivity.
  - unfold getItunesArtwork, getItunesArtwork_try, getTrackTitle.
    apply startsWith_try_catch; [| apply only_ret].
    apply startsWith_bind.
    + apply startsWith_try_catch; [apply startsWith_external | apply only_ret].
    + intro a. unfold getTrackArtist, getTrackAlbum, execSync, net_fetch.
      only_solve;
        first [ apply (only_any background), background_itunesSearchLoop
              | apply (only_any background), background_itunesImage ].
  - unfold getLastfmArtwork, getLastfmArtwork_try, getTrackTitle.
    apply startsWith_try_catch; [| apply only_ret].
    apply startsWith_bind.
    + apply startsWith_try_catch; [apply startsWith_external | apply only_ret].
    + intro a. unfold getTrackArtist, getTrackAlbum, execSync.
      only_solve; apply (only_any background), background_lastfmSearchLoop.
  - unfold getMetadataArtwork, getMetadataArtwork_try.
    apply startsWith_try_catch; [| apply only_ret].
    apply startsWith_bind; [apply startsWith_external |].
    intro a. unfold fs_existsSync, mm_parseFile. only_solve.
  - unfold getCachedArtwork, getCachedArtwork_try.
    apply startsWith_try_catch; [| apply only_ret].
    cbv zeta. apply startsWith_bind; [apply startsWith_external |].
    intro a. unfold fs_readdirSync, fs_readFileSync.
    only_solve; apply (only_any background), background_statFiles.
Qed.

Lemma total_runStrategy s : total (runStrategy E s).
Proof. destruct s; apply total_try_catch, total_ret. Qed.

Lemma total_getAlbumArt : total (getAlbumArt E).
Proof.
  unfold getAlbumArt.
  repeat (apply total_bind;
          [ first [ apply (total_runStrategy AppleScript) | apply (total_runStrategy ITunes)
                  | apply (total_runStrategy LastFm) | apply (total_runStrategy FileTags)
                  | apply (total_runStrategy Cache) ]
          | let a := fresh "art" in
            intro a; destruct (JS.truthy a); [apply total_ret |] ]).
  apply total_ret.
Qed.

(** The waterfall over any list of strategies. *)

Lemma waterfall_nil l w : fst (waterfall E l w) = [] -> l = [].
Proof.
  destruct l as [|s rest]; [reflexivity|]. simpl.
  destruct (runStrategy E s w) as [o w1].
  destruct (JS.truthy (valueOf o)); [discriminate|].
  destruct (waterfall E rest w1). discriminate.
Qed.

Lemma waterfall_order l : forall w,
  exists rest, l = (map fst (fst (waterfall E l w)) ++ rest)%list.
Proof.
  induction l as [|s l IH]; intro w; simpl.
  - now exists [].
  - destruct (runStrategy E s w) as [o w1].
    destruct (JS.truthy (valueOf o)).
    + now exists l.
    + destruct (IH w1) as [rest Hrest].
      destruct (waterfall E l w1) as [more w2]. simpl in *.
      exists rest. now rewrite <- Hrest.
Qed.

Lemma waterfall_earlier_empty l : forall w,
  Forall (fun a => snd a = "") (removelast (fst (waterfall E l w))).
Proof.
  induction l as [|s l IH]; intro w; simpl.
  - constructor.
  - destruct (runStrategy E s w) as [o w1].
    destruct (JS.truthy (valueOf o)) eqn:T.
    + constructor.
    + specialize (IH w1). destruct (waterfall E l w1) as [more w2]. simpl in *.
      destruct more as [|a more]; [constructor|].
      constructor; [| exact IH]. simpl. now apply truthy_false.
Qed.

Lemma waterfall_exhausts l : forall w,
  resolved (fst (waterfall E l w)) = "" -> map fst (fst (waterfall E l w)) = l.
Proof.
  induction l as [|s l IH]; intro w; simpl; [reflexivity|].
  destruct (runStrategy E s w) as [o w1].
  destruct (JS.truthy (valueOf o)) eqn:T.
  - unfold resolved. simpl. intro H. apply truthy_true in T. contradiction.
  - specialize (IH w1). pose proof (waterfall_nil l w1) as Hnil.
    destruct (waterfall E l w1) as [more w2]. simpl in *.
    destruct more as [|a more].
    + intros _. now rewrite Hnil.
    + unfold resolved in *. intro H. f_equal. now apply IH.
Qed.

(** [getAlbumArt] is the waterfall over the five tiers. *)
Lemma getAlbumArt_is_waterfall w :
  getAlbumArt E w
  = (Returned (resolved (fst (waterfall E tiers w))), snd (waterfall E tiers w)).
Proof.
  unfold getAlbumArt, tiers, bind. simpl waterfall.
  destruct (total_runStrategy AppleScript w) as [r1 H1]. simpl runStrategy in *.
  destruct (getAppleScriptArtworkBase64 E w) as [o1 w1]. simpl in H1. subst o1.
  simpl valueOf. destruct (JS.truthy r1) eqn:T1; [reflexivity|].
  destruct (total_runStrategy ITunes w1) as [r2 H2]. simpl runStrategy in *.
  destruct (getItunesArtwork E w1) as [o2 w2]. simpl in H2. subst o2.
  simpl valueOf. destruct (JS.truthy r2) eqn:T2; [reflexivity|].
  destruct (total_runStrategy LastFm w2) as [r3 H3]. simpl runStrategy in *.
  destruct (getLastfmArtwork E w2) as [o3 w3]. simpl in H3. subst o3.
  simpl valueOf. destruct (JS.truthy r3) eqn:T3; [reflexivity|].
  destruct (total_runStrategy FileTags w3) as [r4 H4]. simpl runStrategy in *.
  destruct (getMetadataArtwork E w3) as [o4 w4]. simpl in H4. subst o4.
  simpl valueOf. destruct (JS.truthy r4) eqn:T4; [reflexivity|].
  destruct (total_runStrategy Cache w4) as [r5 H5]. simpl runStrategy in *.
  destruct (getCachedArtwork E w4) as [o5 w5]. simpl in H5. subst o5.
  simpl valueOf. destruct (JS.truthy r5) eqn:T5; [reflexivity|].
  apply truthy_false in T5. subst r5. reflexivity.
Qed.

(** ** One poll *)

Lemma total_getBasicSongInfo : total (getBasicSongInfo E).
Proof. apply total_try_catch, total_ret. Qed.

Lemma getBasicSongInfo_queries w b :
  fst (getBasicSongInfo E w) = Returned (Some b) ->
  history (snd (getBasicSongInfo E w)) = (history w ++ basicQueries)%list.
Proof.
  unfold getBasicSongInfo, getPlayerState, getTrackTitle, getTrackArtist,
    getTrackAlbum, getSongDuration, getSongPosition, execSync, external,
    try_catch, bind, ret.
  simpl.
  repeat match goal with
         | |- context [osascript E ?h ?s] => destruct (osascript E h s); simpl
         | |- context [if ?b then _ else _] => destruct b; simpl
         end;
    try discriminate; intros _; rewrite <- ?app_assoc; reflexivity.
Qed.

Lemma getBasicSongInfo_run w :
  exists ob d,
    getBasicSongInfo E w
    = (Returned ob, {| this := this w; history := (history w ++ d)%list |})
    /\ forallb background d = true
    /\ (forall b, ob = Some b -> d = basicQueries).
Proof.
  destruct (background_getBasicSongInfo w) as [Ht [d [Hd Pd]]].
  destruct (total_getBasicSongInfo w) as [ob Hob].
  exists ob, d. split; [| split; [assumption|]].
  - destruct (getBasicSongInfo E w) as [o [t h]]. simpl in *. now subst.
  - intros b ->. apply getBasicSongInfo_queries in Hob.
    rewrite Hd in Hob. now apply app_inv_head in Hob.
Qed.

(** The song a successful query reports has a title and an artist, and
    its state is not "stopped". *)
Lemma getBasicSongInfo_named w b :
  fst (getBasicSongInfo E w) = Returned (Some b) ->
  title b <> "" /\ artist b <> "" /\ album b <> "" /\ state b <> "stopped".
Proof.
  unfold getBasicSongInfo, getPlayerState, getTrackTitle, getTrackArtist,
    getTrackAlbum, getSongDuration, getSongPosition, execSync, external,
    try_catch, bind, ret.
  cbn.
  repeat match goal with
         | |- context [osascript E ?h ?s] => destruct (osascript E h s); cbn
         | |- context [if String.eqb ?a ?b then _ else _] =>
             destruct (String.eqb_spec a b); cbn
         | |- context [if negb (JS.truthy ?a) || _ then _ else _] =>
             let T := fresh "T" in destruct (JS.truthy a) eqn:T; cbn
         | |- context [if negb (JS.truthy ?a) then _ else _] =>
             let T := fresh "T" in destruct (JS.truthy a) eqn:T; cbn
         end.
  all: try discriminate.
  all: intro H; injection H as <-; cbn.
  all: repeat match goal with
         | T : JS.truthy _ = true |- _ => apply truthy_true in T
         end.
  all: repeat split; try assumption; try discriminate.
  all: unfold JS.orElse;
    match goal with
    | |- context [JS.truthy ?a] =>
        let T := fresh "T" in
        destruct (JS.truthy a) eqn:T; [now apply truthy_true in T | discriminate]
    end.
Qed.

Lemma opens_getAlbumArt_run w :
  exists art d,
    getAlbumArt E w
    = (Returned art,
       {| this := this w; history := (history w ++ ExecSync ArtworkScript :: d)%list |})
    /\ forallb background d = true.
Proof.
  destruct (opens_getAlbumArt w) as [Ht [d [Hd Pd]]].
  destruct (total_getAlbumArt w) as [art Hart].
  exists art, d. split; [| assumption].
  destruct (getAlbumArt E w) as [o [t h]]. simpl in *. now subst.
Qed.

Lemma background_quiet d :
  forallb background d = true -> resolutions d = 0 /\ publications d = [].
Proof.
  induction d as [|e d IH]; simpl; [now split|].
  intro H. apply andb_prop in H as [He Hd]. destruct (IH Hd) as [IH1 IH2].
  unfold resolutions in *. simpl.
  unfold background in He. apply andb_prop in He as [H1 H2].
  apply negb_true_iff in H1, H2. rewrite H2.
  split; [assumption|]. destruct e; simpl in *; try assumption; discriminate.
Qed.

Lemma resolutions_app a b : resolutions (a ++ b) = resolutions a + resolutions b.
Proof. unfold resolutions. now rewrite filter_app, length_app. Qed.

Lemma resolutions_cons e l :
  resolutions (e :: l) = (if isArtworkQuery e then 1 else 0) + resolutions l.
Proof. unfold resolutions. simpl. now destruct (isArtworkQuery e). Qed.

Lemma publications_cons e l :
  publications (e :: l)
  = (match e with Publish p => [p] | _ => [] end ++ publications l)%list.
Proof. reflexivity. Qed.

Lemma publications_app a b : publications (a ++ b) = (publications a ++ publications b)%list.
Proof. unfold publications. now rewrite flat_map_app. Qed.

(** No song: the poll is the query and nothing else. *)
Lemma poll_no_song w :
  fst (getBasicSongInfo E w) = Returned None ->
  checkForChanges E w = (Returned tt, snd (getBasicSongInfo E w)).
Proof.
  intro H. unfold checkForChanges, try_catch, bind.
  destruct (getBasicSongInfo E w) as [o wb]. simpl in *. subst o. reflexivity.
Qed.

(** A new key: the key is stored, the artwork resolved once, the full
    song stored, published and remembered. *)
Lemma poll_new_song w basic :
  fst (getBasicSongInfo E w) = Returned (Some basic) ->
  songKey basic <> lastSongKey (this w) ->
  exists art d,
    let wk := {| this := {| lastSongData := lastSongData (this w);
                            currentSong := currentSong (this w);
                            lastSongKey := songKey basic |};
                 history := (history w ++ basicQueries)%list |} in
    let full := with_albumArt basic (JS.orUndefined art) in
    let h1 := (history wk ++ ExecSync ArtworkScript :: d)%list in
    let t1 := Date_now E h1 in
    let t2 := Date_now E (h1 ++ [DateNow; Publish (payloadOf full t1)])%list in
    getAlbumArt E wk = (Returned art, {| this := this wk; history := h1 |})
    /\ forallb background d = true
    /\ checkForChanges E w
       = (Returned tt,
          {| this := {| lastSongData := Some (with_timestamp full t2);
                        currentSong := Some full;
                        lastSongKey := songKey basic |};
             history := (h1 ++ [DateNow; Publish (payloadOf full t1); DateNow])%list |}).
Proof.
  intros H Hkey.
  destruct (getBasicSongInfo_run w) as (ob & d0 & Hrun & _ & Hq).
  rewrite Hrun in H. simpl in H. injection H as ->.
  rewrite (Hq _ eq_refl) in Hrun. clear Hq d0.
  set (wk := {| this := {| lastSongData := lastSongData (this w);
                           currentSong := currentSong (this w);
                           lastSongKey := songKey basic |};
                history := (history w ++ basicQueries)%list |}).
  destruct (opens_getAlbumArt_run wk) as (art & d & Hart & Pd).
  exists art, d. cbv zeta. split; [exact Hart|]. split; [assumption|].
  unfold checkForChanges, try_catch, bind. rewrite Hrun.
  unfold getThis. cbn [this history].
  destruct (String.eqb_spec (songKey basic) (lastSongKey (this w))) as [Heq|_];
    [contradiction|].
  cbn [negb]. unfold set_lastSongKey, getThis, setThis, bind.
  cbn [this history lastSongData currentSong lastSongKey].
  fold wk. rewrite Hart.
  unfold set_currentSong, set_lastSongData, sendSongToDeskThing, now, external,
    getThis, setThis, try_catch, bind.
  cbn [this history lastSongData currentSong lastSongKey].
  rewrite <- !app_assoc. reflexivity.
Qed.

(** The same key: an update in place and a publication when the state
    or the position moved, else nothing. *)
Lemma poll_same_key w basic :
  fst (getBasicSongInfo E w) = Returned (Some basic) ->
  songKey basic = lastSongKey (this w) ->
  let hb := (history w ++ basicQueries)%list in
  checkForChanges E w
  = (Returned tt,
     match currentSong (this w) with
     | Some cur =>
         if positionDrifted cur basic || negb (String.eqb (state cur) (state basic))
         then
           let cur' :=
             with_playback cur (position basic) (duration basic) (state basic) in
           {| this := {| lastSongData := lastSongData (this w);
                         currentSong := Some cur';
                         lastSongKey := lastSongKey (this w) |};
              history := (hb ++ [DateNow; Publish (payloadOf cur' (Date_now E hb))])%list |}
         else {| this := this w; history := hb |}
     | None =>
         {| this := {| lastSongData := lastSongData (this w);
                       currentSong := Some basic;
                       lastSongKey := lastSongKey (this w) |};
            history := hb |}
     end).
Proof.
  intros H Hkey.
  destruct (getBasicSongInfo_run w) as (ob & d0 & Hrun & _ & Hq).
  rewrite Hrun in H. simpl in H. injection H as ->.
  rewrite (Hq _ eq_refl) in Hrun. clear Hq d0.
  cbv zeta. unfold checkForChanges, try_catch, bind. rewrite Hrun.
  unfold getThis. cbn [this history].
  rewrite Hkey, String.eqb_refl. cbn [negb].
  destruct (currentSong (this w)) as [cur|].
  - destruct (positionDrifted cur basic || negb (String.eqb (state cur) (state basic))).
    + unfold set_currentSong, sendSongToDeskThing, now, external, getThis, setThis,
        try_catch, bind.
      cbn [this history lastSongData currentSong lastSongKey].
      rewrite <- !app_assoc. reflexivity.
    + reflexivity.
  - reflexivity.
Qed.

(** When the query yields no song. *)
Lemma getBasicSongInfo_None_iff w :
  fst (getBasicSongInfo E w) = Returned None <-> cannotObtain E w = true.
Proof.
  unfold cannotObtain.
  replace (history w ++ [ExecSync PlayerStateScript; ExecSync TrackTitleScript])%list
    with ((history w ++ [ExecSync PlayerStateScript]) ++ [ExecSync TrackTitleScript])%list
    by (now rewrite <- app_assoc).
  remember (osascript E (history w) PlayerStateScript) as o1 eqn:H1.
  remember (osascript E (history w ++ [ExecSync PlayerStateScript])%list
              TrackTitleScript) as o2 eqn:H2.
  remember (osascript E ((history w ++ [ExecSync PlayerStateScript])
                         ++ [ExecSync TrackTitleScript])%list
              TrackArtistScript) as o3 eqn:H3.
  unfold noAnswer, getBasicSongInfo, getPlayerState, getTrackTitle,
    getTrackArtist, getTrackAlbum, getSongDuration, getSongPosition, execSync,
    external, try_catch, bind, ret.
  cbn.
  repeat match goal with
         | H : ?o = osascript E ?h ?s |- context [osascript E ?h ?s] =>
             rewrite <- H; destruct o; cbn
         | |- context [osascript E ?h ?s] => destruct (osascript E h s); cbn
         | |- context [if String.eqb ?a ?b then _ else _] =>
             destruct (String.eqb_spec a b); cbn
         end;
    unfold JS.truthy;
    repeat match goal with
           | |- context [String.eqb ?a ?b] => destruct (String.eqb_spec a b); cbn
           end;
    subst; split; intro; try reflexivity; try discriminate; try congruence.
Qed.

(** The detector's invariant holds after every method. *)
Lemma keyed_checkForChanges w :
  keyed (this w) -> keyed (this (snd (checkForChanges E w))).
Proof.
  intro K.
  destruct (total_getBasicSongInfo w) as [[basic|] Hb].
  - destruct (String.eqb_spec (songKey basic) (lastSongKey (this w))) as [Hk|Hk].
    + rewrite (poll_same_key w basic Hb Hk). cbv zeta.
      unfold keyed in *. destruct (currentSong (this w)) as [cur|] eqn:Hc.
      * destruct (positionDrifted cur basic || negb (String.eqb (state cur) (state basic)));
          cbn [snd this currentSong lastSongKey]; [exact K | rewrite Hc; exact K].
      * cbn [snd this currentSong lastSongKey]. congruence.
    + destruct (poll_new_song w basic Hb Hk) as (art & d & _ & _ & Hrun).
      cbv zeta in Hrun. rewrite Hrun. reflexivity.
  - rewrite (poll_no_song w Hb). cbn [snd].
    destruct (background_getBasicSongInfo w) as [Ht _]. now rewrite Ht.
Qed.

Lemma keyed_sendCurrentSong w : keyed (this (snd (sendCurrentSong E w))).
Proof.
  unfold sendCurrentSong, getCurrentSong, try_catch, bind.
  destruct (getBasicSongInfo_run w) as (ob & d0 & Hrun & _ & _). rewrite Hrun.
  destruct ob as [basic|].
  - match goal with
    | |- context [getAlbumArt E ?x] =>
        destruct (opens_getAlbumArt_run x) as (art & d & Hart & _); rewrite Hart
    end.
    unfold ret, set_currentSong, set_lastSongData, set_lastSongKey,
      sendSongToDeskThing, now, external, getThis, setThis, try_catch, bind.
    reflexivity.
  - unfold ret, set_currentSong, getThis, setThis, bind. simpl. exact I.
Qed.

(** ** What the strategies return *)

Lemma jpegOrEmpty_empty : jpegOrEmpty "".
Proof. now left. Qed.

Lemma jpegOrEmpty_jpeg bytes : jpegOrEmpty (dataURI "image/jpeg" bytes).
Proof. right. now exists bytes. Qed.

Lemma jpegIfFound_None : jpegIfFound None.
Proof. intros r H. discriminate. Qed.

Lemma jpegIfFound_Some r : jpegOrEmpty r -> jpegIfFound (Some r).
Proof. intros H r' Hr. now injection Hr as <-. Qed.

Lemma jpegOrEmpty_image r : jpegOrEmpty r -> imageOrEmpty r.
Proof. intros [->|[bytes ->]]; [now left | right; now exists "image/jpeg", bytes]. Qed.

Create HintDb artwork.
#[local] Hint Resolve jpegOrEmpty_empty jpegOrEmpty_jpeg jpegIfFound_None jpegIfFound_Some : artwork.

Lemma jpeg_fetchAndConvertImage url : yields jpegOrEmpty (fetchAndConvertImage E url).
Proof.
  unfold fetchAndConvertImage, fetchAndConvertImage_try, await.
  repeat yields_step; auto with artwork.
Qed.

Lemma jpeg_itunesImage r : yields jpegOrEmpty (itunesImage E r).
Proof.
  unfold itunesImage.
  repeat yields_step; auto with artwork; apply jpeg_fetchAndConvertImage.
Qed.

Lemma jpeg_itunesSearchLoop terms : yields jpegIfFound (itunesSearchLoop E terms).
Proof.
  induction terms as [|t rest IH]; simpl.
  - apply yields_ret. auto with artwork.
  - apply yields_bind. intro response.
    apply (yields_bind_with jpegOrEmpty); [apply jpeg_itunesImage|].
    intros img Himg. destruct (JS.truthy img); [| exact IH].
    apply yields_ret. auto with artwork.
Qed.

Lemma jpeg_getAppleScriptArtworkBase64 :
  yields jpegOrEmpty (getAppleScriptArtworkBase64 E).
Proof.
  unfold getAppleScriptArtworkBase64, getAppleScriptArtworkBase64_try.
  repeat yields_step; auto with artwork.
Qed.

Lemma jpeg_getItunesArtwork : yields jpegOrEmpty (getItunesArtwork E).
Proof.
  unfold getItunesArtwork, getItunesArtwork_try.
  apply yields_try_catch; [| apply yields_ret; auto with artwork].
  do 3 (apply yields_bind; intro).
  destruct (negb (JS.truthy a) || negb (JS.truthy a0)); [apply yields_ret; auto with artwork|].
  cbv zeta.
  apply (yields_bind_with jpegIfFound); [apply jpeg_itunesSearchLoop|].
  intros [found|] Hfound.
  - apply yields_ret. now apply Hfound.
  - apply yields_bind. intro response.
    apply (yields_bind_with jpegOrEmpty); [apply jpeg_itunesImage|].
    intros img Himg. destruct (JS.truthy img); apply yields_ret; auto with artwork.
Qed.

Lemma jpeg_lastfmSearchLoop key l : yields jpegIfFound (lastfmSearchLoop E key l).
Proof.
  induction l as [|p rest IH]; simpl.
  - apply yields_ret. auto with artwork.
  - apply yields_bind. intro response.
    apply (yields_bind_with jpegIfFound).
    + repeat first
        [ apply (yields_bind_with jpegOrEmpty);
          [apply jpeg_fetchAndConvertImage | intros img Himg]
        | yields_step ];
        auto with artwork.
      unfold JS.orUndefined. destruct (JS.truthy img); auto with artwork.
    + intros [found|] Hfound; [| exact IH].
      apply yields_ret. intros r Hr. now apply Hfound.
Qed.

Lemma jpeg_getLastfmArtwork : yields jpegOrEmpty (getLastfmArtwork E).
Proof.
  unfold getLastfmArtwork, getLastfmArtwork_try.
  apply yields_try_catch; [| apply yields_ret; auto with artwork].
  do 3 (apply yields_bind; intro).
  destruct (negb (JS.truthy a) || negb (JS.truthy a0)); [apply yields_ret; auto with artwork|].
  cbv zeta.
  apply (yields_bind_with jpegIfFound); [apply jpeg_lastfmSearchLoop|].
  intros [found|] Hfound; apply yields_ret; auto with artwork.
Qed.

Lemma image_getMetadataArtwork : yields imageOrEmpty (getMetadataArtwork E).
Proof.
  unfold getMetadataArtwork, getMetadataArtwork_try.
  repeat yields_step; try (now left).
  right. now exists (format p), (data p).
Qed.

Lemma jpeg_getCachedArtwork : yields jpegOrEmpty (getCachedArtwork E).
Proof.
  unfold getCachedArtwork, getCachedArtwork_try.
  repeat yields_step; auto with artwork.
Qed.

(** What a strategy returns is empty or a data URI, tagged image/jpeg
    unless the strategy is the one that reads the file's tags. *)
Lemma runStrategy_data_uri s w r :
  fst (runStrategy E s w) = Returned r ->
  r = "" \/ exists mime bytes,
              r = dataURI mime bytes /\ (s <> FileTags -> mime = "image/jpeg").
Proof.
  intro H.
  assert (J : s <> FileTags -> jpegOrEmpty r).
  { intro Hs. destruct s; simpl in H;
      [ apply (jpeg_getAppleScriptArtworkBase64 w r H)
      | apply (jpeg_getItunesArtwork w r H)
      | apply (jpeg_getLastfmArtwork w r H)
      | contradiction
      | apply (jpeg_getCachedArtwork w r H) ]. }
  destruct s;
    try (destruct J as [->|[bytes ->]]; [discriminate | now left
                                        | right; exists "image/jpeg", bytes; now split]).
  destruct (image_getMetadataArtwork w r H) as [->|(mime & bytes & ->)]; [now left|].
  right. exists mime, bytes. split; [reflexivity | intro C; now elim C].
Qed.

(** ** Where the artwork comes from *)

Lemma only_grows {A : Type} P (m : M A) : only P m -> grows m.
Proof. intros H w. destruct (H w) as [_ [d [Hd _]]]. now exists d. Qed.

Lemma traces_ret {A : Type} (Q : list event -> list event -> A -> Prop) (a : A) :
  (forall h, Q h h a) -> traces Q (ret a).
Proof. intros H w b Hb. simpl in *. injection Hb as <-. apply H. Qed.

Lemma traces_bind {A B : Type} (Q : list event -> list event -> B -> Prop)
      (m : M A) (k : A -> M B) :
  (forall h0 d H b, Q (h0 ++ d)%list H b -> Q h0 H b) ->
  grows m -> (forall a, traces Q (k a)) -> traces Q (bind m k).
Proof.
  intros Hw Hg Hk w b. unfold bind. destruct (Hg w) as [d Hd].
  destruct (m w) as [[a|] w1]; [| discriminate].
  simpl in Hd. intro Hb. apply (Hw _ d). rewrite <- Hd. now apply Hk.
Qed.

Lemma traces_try_catch {A : Type} (Q : list event -> list event -> A -> Prop)
      (m : M A) (dflt : A) :
  (forall h0 H, Q h0 H dflt) -> traces Q m -> traces Q (try_catch m (ret dflt)).
Proof.
  intros Hd Hm w b. unfold try_catch. specialize (Hm w).
  destruct (m w) as [[a|] w1].
  - exact (Hm b).
  - simpl. intro Hb. injection Hb as <-. apply Hd.
Qed.

Lemma traces_bind_keep {A B : Type} (P : list event -> list event -> A -> Prop)
      (Q : list event -> list event -> B -> Prop) (m : M A) (k : A -> M B) :
  grows m -> traces P m ->
  (forall h0 d a w1 b,
      history w1 = (h0 ++ d)%list -> P h0 (history w1) a ->
      fst (k a w1) = Returned b -> Q h0 (history (snd (k a w1))) b) ->
  traces Q (bind m k).
Proof.
  intros Hg Hm Hk w b. unfold bind. destruct (Hg w) as [d Hd]. specialize (Hm w).
  destruct (m w) as [[a|] w1]; [| discriminate].
  simpl in *. intro Hb. apply (Hk _ d a w1 b Hd); [now apply Hm | exact Hb].
Qed.

Lemma fetchedJpeg_earlier h0 d H r :
  fetchedJpeg E (h0 ++ d)%list H r -> fetchedJpeg E h0 H r.
Proof.
  intros (d' & url & resp & bytes & HH & Hf & Hrest).
  exists (d ++ d')%list, url, resp, bytes.
  rewrite <- !app_assoc in *. rewrite app_assoc. rewrite <- app_assoc.
  now repeat split.
Qed.

Lemma readJpeg_earlier h0 d H r :
  readJpeg E (h0 ++ d)%list H r -> readJpeg E h0 H r.
Proof.
  intros (d' & path & bytes & HH & Hf & Hrest).
  exists (d ++ d')%list, path, bytes.
  rewrite <- !app_assoc in *. now repeat split.
Qed.

Lemma taggedPicture_earlier h0 d H r :
  taggedPicture E (h0 ++ d)%list H r -> taggedPicture E h0 H r.
Proof.
  intros (d' & path & meta & pic & pics & HH & Hf & Hrest).
  exists (d ++ d')%list, path, meta, pic, pics.
  rewrite <- !app_assoc in *. now repeat split.
Qed.

Lemma producedBy_earlier s h0 d H r :
  producedBy E s (h0 ++ d)%list H r -> producedBy E s h0 H r.
Proof.
  destruct s; simpl;
    first [apply readJpeg_earlier | apply fetchedJpeg_earlier | apply taggedPicture_earlier].
Qed.

Lemma ifAny_earlier Q :
  (forall h0 d H r, Q (h0 ++ d)%list H r -> Q h0 H r) ->
  forall h0 d H r, ifAny Q (h0 ++ d)%list H r -> ifAny Q h0 H r.
Proof. intros HQ h0 d H r Hr Hne. apply (HQ h0 d). now apply Hr. Qed.

Lemma ifFound_earlier Q :
  (forall h0 d H r, Q (h0 ++ d)%list H r -> Q h0 H r) ->
  forall h0 d H o, ifFound Q (h0 ++ d)%list H o -> ifFound Q h0 H o.
Proof.
  intros HQ h0 d H o Ho r Hr. destruct (Ho r Hr) as [Hne Hq].
  split; [assumption|]. now apply (HQ h0 d).
Qed.

Lemma ifAny_empty Q h0 H : ifAny Q h0 H "".
Proof. intro Hne. now elim Hne. Qed.

Lemma ifFound_None Q h0 H : ifFound Q h0 H None.
Proof. intros r Hr. discriminate. Qed.

(** What [fetchAndConvertImage] does, exactly: one request, and the
    body of an ok answer under the tag image/jpeg. *)
Lemma fetchAndConvertImage_run url w :
  fetchAndConvertImage E url w
  = (Returned match fetch E (history w) url with
              | Returned resp =>
                  if ok resp then
                    match arrayBuffer resp with
                    | Returned bytes => "data:image/jpeg;base64," ++ JS.base64 bytes
                    | Threw => ""
                    end
                  else ""
              | Threw => ""
              end,
     {| this := this w; history := (history w ++ [Fetch url false])%list |}).
Proof.
  unfold fetchAndConvertImage, fetchAndConvertImage_try, net_fetch, external,
    try_catch, bind, await.
  cbn [fst snd this history].
  destruct (fetch E (history w) url) as [resp|]; [| reflexivity].
  destruct (ok resp); [| reflexivity].
  destruct (arrayBuffer resp); reflexivity.
Qed.

Lemma fetched_fetchAndConvertImage url :
  traces (ifAny (fetchedJpeg E)) (fetchAndConvertImage E url).
Proof.
  intros w r Hr Hne. rewrite fetchAndConvertImage_run in *.
  cbn [fst snd history] in *. injection Hr as Hr.
  destruct (fetch E (history w) url) as [resp|] eqn:Hf; [| congruence].
  destruct (ok resp) eqn:Hok; [| congruence].
  destruct (arrayBuffer resp) as [bytes|] eqn:Hb; [| congruence].
  exists [], url, resp, bytes. rewrite app_nil_r. now repeat split.
Qed.

(** One step of a [traces] proof. *)
Ltac traces_step :=
  match goal with
  | |- traces (ifAny _) (ret "") => apply traces_ret; intro; apply ifAny_empty
  | |- traces (ifFound _) (ret None) => apply traces_ret; intro; apply ifFound_None
  | |- traces (ifAny _) (try_catch _ (ret "")) =>
      apply traces_try_catch; [intros; apply ifAny_empty |]
  | |- traces (ifAny (fetchedJpeg E)) (bind _ _) =>
      apply traces_bind; [apply ifAny_earlier, fetchedJpeg_earlier | | intro]
  | |- traces (ifAny (readJpeg E)) (bind _ _) =>
      apply traces_bind; [apply ifAny_earlier, readJpeg_earlier | | intro]
  | |- traces (ifAny (taggedPicture E)) (bind _ _) =>
      apply traces_bind; [apply ifAny_earlier, taggedPicture_earlier | | intro]
  | |- traces (ifFound (fetchedJpeg E)) (bind _ _) =>
      apply traces_bind; [apply ifFound_earlier, fetchedJpeg_earlier | | intro]
  | |- traces _ (if ?b then _ else _) => destruct b
  | |- traces _ (match ?x with _ => _ end) => destruct x
  | |- traces _ (let _ := _ in _) => cbv zeta
  | |- grows _ => apply (only_grows anyEvent); only_solve
  end.

Lemma fetched_itunesImage response :
  traces (ifAny (fetchedJpeg E)) (itunesImage E response).
Proof.
  unfold itunesImage. repeat traces_step; apply fetched_fetchAndConvertImage.
Qed.

Lemma grows_itunesImage response : grows (itunesImage E response).
Proof. apply (only_grows background), background_itunesImage. Qed.

Lemma fetched_itunesSearchLoop terms :
  traces (ifFound (fetchedJpeg E)) (itunesSearchLoop E terms).
Proof.
  induction terms as [|t rest IH]; simpl.
  - traces_step.
  - traces_step; [unfold net_fetch; traces_step |].
    apply (traces_bind_keep (ifAny (fetchedJpeg E)));
      [apply grows_itunesImage | apply fetched_itunesImage |].
    intros h0 d img w1 b Hd Himg Hb.
    destruct (JS.truthy img) eqn:T.
    + simpl in *. injection Hb as <-. intros r Hr. injection Hr as <-.
      apply truthy_true in T. split; [assumption | now apply Himg].
    + apply (ifFound_earlier _ fetchedJpeg_earlier h0 d). rewrite <- Hd.
      now apply IH.
Qed.

Lemma traces_keep_truthy Q (m : M string) :
  grows m -> traces (ifAny Q) m ->
  traces (ifAny Q) (x <- m ;; if JS.truthy x then ret x else ret "").
Proof.
  intros Hg Hm. apply (traces_bind_keep (ifAny Q)); [assumption | assumption |].
  intros h0 d img w1 b Hd Himg Hb.
  destruct (JS.truthy img); simpl in Hb; injection Hb as <-;
    [exact Himg | apply ifAny_empty].
Qed.

Lemma fetched_getItunesArtwork : traces (ifAny (fetchedJpeg E)) (getItunesArtwork E).
Proof.
  unfold getItunesArtwork, getItunesArtwork_try, getTrackTitle, getTrackArtist,
    getTrackAlbum, execSync.
  traces_step. do 3 (traces_step; [traces_step |]).
  traces_step; [traces_step |]. cbv zeta.
  apply (traces_bind_keep (ifFound (fetchedJpeg E)));
    [ apply (only_grows background), background_itunesSearchLoop
    | apply fetched_itunesSearchLoop |].
  intros h0 d [found|] w1 b Hd Hfound Hb.
  - simpl in *. injection Hb as <-. intros _. now apply (Hfound found).
  - apply (ifAny_earlier _ fetchedJpeg_earlier h0 d). rewrite <- Hd.
    revert Hb. generalize b. generalize w1.
    change (traces (ifAny (fetchedJpeg E))
              (artistResponse <- net_fetch E (itunesSearchUrl a0) false ;;
               (imageResult <- itunesImage E artistResponse ;;
                if JS.truthy imageResult then ret imageResult else ret ""))).
    traces_step; [unfold net_fetch; traces_step |].
    apply traces_keep_truthy; [apply grows_itunesImage | apply fetched_itunesImage].
Qed.

Lemma fetched_lastfmSearchLoop key l :
  traces (ifFound (fetchedJpeg E)) (lastfmSearchLoop E key l).
Proof.
  induction l as [|p rest IH]; simpl.
  - traces_step.
  - traces_step; [unfold net_fetch; traces_step |].
    apply (traces_bind_keep (ifFound (fetchedJpeg E))).
    + apply (only_grows background). only_solve; apply background_fetchAndConvertImage.
    + repeat first
        [ apply (traces_bind_keep (ifAny (fetchedJpeg E)));
          [ apply (only_grows background), background_fetchAndConvertImage
          | apply fetched_fetchAndConvertImage
          | intros h0 d img w1 b Hd Himg Hb; simpl in Hb; injection Hb as <-;
            unfold JS.orUndefined; destruct (JS.truthy img) eqn:T;
            [ intros r Hr; injection Hr as <-; apply truthy_true in T;
              split; [assumption | now apply Himg]
            | apply ifFound_None ] ]
        | traces_step ].
    + intros h0 d [found|] w1 b Hd Hfound Hb.
      * simpl in *. injection Hb as <-. exact Hfound.
      * apply (ifFound_earlier _ fetchedJpeg_earlier h0 d). rewrite <- Hd.
        now apply IH.
Qed.

Lemma fetched_getLastfmArtwork : traces (ifAny (fetchedJpeg E)) (getLastfmArtwork E).
Proof.
  unfold getLastfmArtwork, getLastfmArtwork_try, getTrackTitle, getTrackArtist,
    getTrackAlbum, execSync.
  traces_step. do 3 (traces_step; [traces_step |]).
  traces_step; [traces_step |]. cbv zeta.
  apply (traces_bind_keep (ifFound (fetchedJpeg E)));
    [ apply (only_grows background), background_lastfmSearchLoop
    | apply fetched_lastfmSearchLoop |].
  intros h0 d [found|] w1 b Hd Hfound Hb; simpl in *; injection Hb as <-.
  - intros _. now apply (Hfound found).
  - apply ifAny_empty.
Qed.

Lemma read_getAppleScriptArtworkBase64 :
  traces (ifAny (readJpeg E)) (getAppleScriptArtworkBase64 E).
Proof.
  intros w r. unfold getAppleScriptArtworkBase64, getAppleScriptArtworkBase64_try,
    execSync, fs_existsSync, fs_readFileSync, external, try_catch, bind, ret.
  cbn [fst snd this history].
  destruct (osascript E (history w) ArtworkScript) as [path|];
    cbn [fst snd this history];
    [| intro H; injection H as <-; apply ifAny_empty].
  destruct (JS.truthy path); cbn [fst snd this history];
    [| intro H; injection H as <-; apply ifAny_empty].
  destruct (existsSync E _ path); cbn [fst snd this history];
    [| intro H; injection H as <-; apply ifAny_empty].
  destruct (readFileSync E _ path) as [bytes|] eqn:Hread; cbn [fst snd this history];
    [| intro H; injection H as <-; apply ifAny_empty].
  intro H. injection H as <-. intros _.
  exists [ExecSync ArtworkScript; ExistsSync path], path, bytes.
  rewrite <- !app_assoc in *. now repeat split.
Qed.

Lemma tagged_getMetadataArtwork :
  traces (ifAny (taggedPicture E)) (getMetadataArtwork E).
Proof.
  intros w r. unfold getMetadataArtwork, getMetadataArtwork_try,
    execSync, fs_existsSync, mm_parseFile, external, try_catch, bind, ret.
  cbn [fst snd this history].
  destruct (osascript E (history w) LocationScript) as [path|];
    cbn [fst snd this history];
    [| intro H; injection H as <-; apply ifAny_empty].
  destruct (JS.truthy path); cbn [fst snd this history];
    [| intro H; injection H as <-; apply ifAny_empty].
  destruct (existsSync E _ path); cbn [fst snd this history];
    [| intro H; injection H as <-; apply ifAny_empty].
  destruct (parseFile E _ path) as [meta|] eqn:Hparse; cbn [fst snd this history];
    [| intro H; injection H as <-; apply ifAny_empty].
  destruct (picture meta) as [[|pic pics]|] eqn:Hpic; cbn [fst snd this history];
    intro H; injection H as <-; try apply ifAny_empty.
  intros _.
  exists [ExecSync LocationScript; ExistsSync path], path, meta, pic, pics.
  rewrite <- !app_assoc in *. now repeat split.
Qed.

Lemma read_file_last path :
  traces (ifAny (readJpeg E))
    (imageData <- fs_readFileSync E path ;; ret (dataURI "image/jpeg" imageData)).
Proof.
  intros w r. unfold fs_readFileSync, external, bind, ret. cbn [fst snd this history].
  destruct (readFileSync E (history w) path) as [bytes|] eqn:Hread;
    cbn [fst snd this history]; [| discriminate].
  intro H. injection H as <-. intros _.
  exists [], path, bytes. rewrite app_nil_r. now repeat split.
Qed.

Lemma read_getCachedArtwork : traces (ifAny (readJpeg E)) (getCachedArtwork E).
Proof.
  unfold getCachedArtwork, getCachedArtwork_try. cbv zeta.
  traces_step.
  traces_step; [unfold fs_existsSync; traces_step |].
  traces_step; [| traces_step].
  traces_step; [unfold fs_readdirSync; traces_step |].
  traces_step; [apply (only_grows background), background_statFiles |].
  traces_step; [traces_step | apply read_file_last].
Qed.

(** The tag reader's first picture, under the format found with it. *)
Lemma getMetadataArtwork_picture w path meta pic pics :
  osascript E (history w) LocationScript = Returned path ->
  path <> "" ->
  existsSync E (history w ++ [ExecSync LocationScript])%list path = true ->
  parseFile E (history w ++ [ExecSync LocationScript; ExistsSync path])%list path
  = Returned meta ->
  picture meta = Some (pic :: pics) ->
  fst (getMetadataArtwork E w)
  = Returned ("data:" ++ format pic ++ ";base64," ++ JS.base64 (data pic)).
Proof.
  intros Hloc Hne Hex Hparse Hpic.
  unfold getMetadataArtwork, getMetadataArtwork_try, execSync, fs_existsSync,
    mm_parseFile, external, try_catch, bind, ret.
  cbn [fst snd this history]. rewrite Hloc. cbn [fst snd this history].
  apply truthy_true in Hne. rewrite Hne. cbn [fst snd this history].
  rewrite Hex. cbn [fst snd this history].
  rewrite <- app_assoc. cbn [List.app]. rewrite Hparse. cbn [fst snd this history].
  rewrite Hpic. reflexivity.
Qed.

(** A non-empty result of a strategy, by what the strategy did last. *)
Lemma runStrategy_producedBy s w r :
  fst (runStrategy E s w) = Returned r -> r <> "" ->
  producedBy E s (history w) (history (snd (runStrategy E s w))) r.
Proof.
  intros Hr Hne.
  destruct s; simpl in *;
    [ apply (read_getAppleScriptArtworkBase64 w r Hr Hne)
    | apply (fetched_getItunesArtwork w r Hr Hne)
    | apply (fetched_getLastfmArtwork w r Hr Hne)
    | apply (tagged_getMetadataArtwork w r Hr Hne)
    | apply (read_getCachedArtwork w r Hr Hne) ].
Qed.

Lemma grows_runStrategy s : grows (runStrategy E s).
Proof.
  intro w. destruct (runStrategy_firstCall s w) as [_ [d [Hd _]]].
  now exists (firstCall E s :: d).
Qed.

(** The attempt the waterfall ends with ran from a history that extends
    the first one, and left the last one. *)
Lemma waterfall_last l : forall w s r,
  last (fst (waterfall E l w)) (AppleScript, "") = (s, r) -> r <> "" ->
  exists d w0,
    history w0 = (history w ++ d)%list
    /\ fst (runStrategy E s w0) = Returned r
    /\ snd (runStrategy E s w0) = snd (waterfall E l w).
Proof.
  induction l as [|s0 l IH]; intros w s r; simpl.
  - intros H Hne. injection H as _ <-. now elim Hne.
  - destruct (total_runStrategy s0 w) as [r0 Hr0].
    destruct (grows_runStrategy s0 w) as [d0 Hd0].
    destruct (runStrategy E s0 w) as [o w1] eqn:Hrun. simpl in Hr0, Hd0. subst o.
    simpl valueOf.
    destruct (JS.truthy r0) eqn:T.
    + simpl. intros H Hne. injection H as <- <-.
      exists [], w. rewrite app_nil_r, Hrun. now repeat split.
    + specialize (IH w1 s r).
      destruct (waterfall E l w1) as [more w2] eqn:Hw. simpl in *.
      destruct more as [|a more].
      * intros H Hne. injection H as <- <-. apply truthy_false in T. contradiction.
      * intros H Hne. destruct (IH H Hne) as (d & w0 & Hh & Hr & Hs).
        exists (d0 ++ d)%list, w0. rewrite Hh, Hd0, app_assoc. now repeat split.
Qed.

(** Every attempt the waterfall lists is a run of that strategy. *)
Lemma waterfall_attempts l : forall w,
  Forall (fun a => exists w0, fst (runStrategy E (fst a) w0) = Returned (snd a))
    (fst (waterfall E l w)).
Proof.
  induction l as [|s l IH]; intro w; simpl; [constructor|].
  destruct (total_runStrategy s w) as [r Hr].
  destruct (runStrategy E s w) as [o w1] eqn:Hrun. simpl in Hr. subst o. simpl.
  assert (Hs : exists w0, fst (runStrategy E s w0) = Returned r)
    by (exists w; now rewrite Hrun).
  destruct (JS.truthy r).
  - constructor; [exact Hs | constructor].
  - specialize (IH w1). destruct (waterfall E l w1) as [more w2].
    constructor; [exact Hs | exact IH].
Qed.


(** ** One call of [sendCurrentSong] *)

Lemma send_no_song w :
  fst (getBasicSongInfo E w) = Returned None ->
  exists d,
    forallb background d = true
    /\ sendCurrentSong E w
       = (Returned tt,
          {| this := {| lastSongData := lastSongData (this w);
                        currentSong := None;
                        lastSongKey := lastSongKey (this w) |};
             history := (history w ++ d)%list |}).
Proof.
  intro H.
  destruct (getBasicSongInfo_run w) as (ob & d & Hrun & Pd & _).
  rewrite Hrun in H. simpl in H. injection H as ->.
  exists d. split; [assumption|].
  unfold sendCurrentSong, getCurrentSong, try_catch, bind. rewrite Hrun.
  reflexivity.
Qed.

Lemma send_song w basic :
  fst (getBasicSongInfo E w) = Returned (Some basic) ->
  exists art d,
    let wb := {| this := this w; history := (history w ++ basicQueries)%list |} in
    let full := with_albumArt basic (JS.orUndefined art) in
    let h1 := (history wb ++ ExecSync ArtworkScript :: d)%list in
    let t1 := Date_now E h1 in
    let t2 := Date_now E (h1 ++ [DateNow; Publish (payloadOf full t1)])%list in
    getAlbumArt E wb = (Returned art, {| this := this wb; history := h1 |})
    /\ forallb background d = true
    /\ sendCurrentSong E w
       = (Returned tt,
          {| this := {| lastSongData := Some (with_timestamp full t2);
                        currentSong := Some full;
                        lastSongKey := songKey basic |};
             history := (h1 ++ [DateNow; Publish (payloadOf full t1); DateNow])%list |}).
Proof.
  intro H.
  destruct (getBasicSongInfo_run w) as (ob & d0 & Hrun & _ & Hq).
  rewrite Hrun in H. simpl in H. injection H as ->.
  rewrite (Hq _ eq_refl) in Hrun. clear Hq d0.
  destruct (opens_getAlbumArt_run
              {| this := this w; history := (history w ++ basicQueries)%list |})
    as (art & d & Hart & Pd).
  exists art, d. cbv zeta. split; [exact Hart|]. split; [assumption|].
  unfold sendCurrentSong, getCurrentSong, try_catch, bind.
  rewrite Hrun, Hart.
  unfold ret, set_currentSong, set_lastSongData, set_lastSongKey,
    sendSongToDeskThing, now, external, getThis, setThis, try_catch, bind.
  cbn [this history lastSongData currentSong lastSongKey fst snd].
  rewrite <- !app_assoc. reflexivity.
Qed.

(** ** What is published *)



(** ** The JSON of a song *)


(** ** The choice among a Last.fm album's images *)

Lemma pickImage_some images : images <> [] -> exists img, pickImage images = Some img.
Proof.
  intro Hne. unfold pickImage.
  destruct (find _ images) as [i|]; [now exists i|].
  destruct (find _ images) as [i|]; [now exists i|].
  destruct (@exists_last _ images Hne) as (l' & x & ->).
  exists x. rewrite length_app. simpl.
  rewrite Nat.add_sub, nth_error_app2, Nat.sub_diag by lia. reflexivity.
Qed.

Lemma pickImage_large images img :
  In img images -> size img = "large" ->
  exists chosen, pickImage images = Some chosen /\ size chosen = "large".
Proof.
  intros Hin Hsize. unfold pickImage.
  destruct (find (fun i => String.eqb (size i) "large") images) as [i|] eqn:Hf.
  - exists i. split; [reflexivity|].
    apply find_some in Hf as [_ Hi]. now apply String.eqb_eq in Hi.
  - apply (find_none _ _ Hf) in Hin. rewrite Hsize in Hin. discriminate.
Qed.

End Facts.

(** C1.  Every run of [getAlbumArt] is the waterfall over the five
    strategies in the order AppleScript, iTunes, Last.fm, file tags,
    cache: it returns the result of the last strategy tried and leaves
    the world that strategy left (so no later strategy ran); the
    strategies tried are an initial part of that order; every one before
    the last returned the empty string, and the next one was tried all
    the same; and when the result is the empty string all five were
    tried. *)
Theorem getAlbumArt_waterfall (E : Env) (w : World) :
  let tried := fst (waterfall E tiers w) in
  getAlbumArt E w = (Returned (resolved tried), snd (waterfall E tiers w))
  /\ (exists rest, tiers = (map fst tried ++ rest)%list)
  /\ Forall (fun a => snd a = "") (removelast tried)
  /\ (resolved tried = "" -> map fst tried = tiers).
Proof.
  cbv zeta. split; [apply getAlbumArt_is_waterfall|].
  split; [apply waterfall_order|].
  split; [apply waterfall_earlier_empty | apply waterfall_exhausts].
Qed.

(** On a machine where every call fails all five strategies are tried. *)
Lemma getAlbumArt_waterfall_witness :
  map fst (fst (waterfall Demo.hostile tiers Demo.fresh)) = tiers.
Proof.
  apply (proj2 (proj2 (proj2 (getAlbumArt_waterfall Demo.hostile Demo.fresh)))).
  reflexivity.
Defined.

(** On a machine where every call fails, the resolver asks each
    strategy in turn and returns the empty string. *)
Example getAlbumArt_hostile :
  getAlbumArt Demo.hostile Demo.fresh
  = (Returned "",
     {| this := newApp;
        history :=
          [ ExecSync ArtworkScript;
            ExecSync TrackTitleScript; ExecSync TrackArtistScript; ExecSync TrackAlbumScript;
            ExecSync TrackTitleScript; ExecSync TrackArtistScript; ExecSync TrackAlbumScript;
            ExecSync LocationScript;
            ExistsSync "Library/Containers/com.apple.AMPMusic/Data/Documents/Artwork" ] |}).
Proof. reflexivity. Qed.

(** C5.  No strategy and no resolver run throws: a strategy returns
    what its [try] block returns, and the empty string when the [try]
    block throws, whatever call failed in it; the same holds for
    [fetchAndConvertImage]; and [getAlbumArt] returns, with the empty
    string or a data URI. *)
Theorem getAlbumArt_never_throws (E : Env) :
  (forall s w, fst (runStrategy E s w) = Returned (valueOf (fst (tryBlock E s w))))
  /\ (forall url w,
        fst (fetchAndConvertImage E url w)
        = Returned (valueOf (fst (fetchAndConvertImage_try E url w))))
  /\ (forall w, exists r, fst (getAlbumArt E w) = Returned r /\ imageOrEmpty r).
Proof.
  split; [| split].
  - intros s w.
    destruct s; simpl; unfold getAppleScriptArtworkBase64, getItunesArtwork,
      getLastfmArtwork, getMetadataArtwork, getCachedArtwork, try_catch;
      match goal with
      | |- context [match ?m w with _ => _ end] => destruct (m w) as [[r|] w']
      end; reflexivity.
  - intros url w. unfold fetchAndConvertImage, try_catch.
    destruct (fetchAndConvertImage_try E url w) as [[r|] w']; reflexivity.
  - intro w. rewrite getAlbumArt_is_waterfall. simpl fst.
    exists (resolved (fst (waterfall E tiers w))). split; [reflexivity|].
    pose proof (waterfall_attempts E tiers w) as Hall.
    destruct (fst (waterfall E tiers w)) as [|a tried].
    + now left.
    + unfold resolved. rewrite Forall_forall in Hall.
      destruct (Hall (last (a :: tried) (AppleScript, ""))) as [w0 Hw0].
      { destruct (@exists_last _ (a :: tried)) as (l' & x & Hx); [discriminate|].
        rewrite Hx, last_last. apply in_or_app. right. now left. }
      destruct (runStrategy_data_uri E _ _ _ Hw0) as [Hr|(mime & bytes & Hr & _)].
      * now left.
      * right. now exists mime, bytes.
Qed.

(** C7.  [fetchAndConvertImage] makes one request and returns the
    bytes of an ok answer's body as [data:image/jpeg;base64,<payload>],
    whatever those bytes are, and the empty string otherwise.  The
    strategy that reads the file's tags returns the data of the first
    picture under the format the tag reader found with it.  A non-empty
    result of a strategy is what the strategy's last external call
    yielded: for the two network strategies the body of an ok answer to
    a request under the tag image/jpeg, for the AppleScript and the
    cache strategy the bytes of a file read under the tag image/jpeg,
    for the file-tags strategy the first picture under its own format.
    A non-empty result of the resolver is such a result of the last
    strategy it tried. *)
Theorem artwork_is_data_uri (E : Env) :
  (forall url w,
      fetchAndConvertImage E url w
      = (Returned match fetch E (history w) url with
                  | Returned resp =>
                      if ok resp then
                        match arrayBuffer resp with
                        | Returned bytes => "data:image/jpeg;base64," ++ JS.base64 bytes
                        | Threw => ""
                        end
                      else ""
                  | Threw => ""
                  end,
         {| this := this w; history := (history w ++ [Fetch url false])%list |}))
  /\ (forall w path meta pic pics,
        osascript E (history w) LocationScript = Returned path ->
        path <> "" ->
        existsSync E (history w ++ [ExecSync LocationScript])%list path = true ->
        parseFile E (history w ++ [ExecSync LocationScript; ExistsSync path])%list path
        = Returned meta ->
        picture meta = Some (pic :: pics) ->
        fst (getMetadataArtwork E w)
        = Returned ("data:" ++ format pic ++ ";base64," ++ JS.base64 (data pic)))
  /\ (forall s w r,
        fst (runStrategy E s w) = Returned r -> r <> "" ->
        producedBy E s (history w) (history (snd (runStrategy E s w))) r)
  /\ (forall w r,
        fst (getAlbumArt E w) = Returned r -> r <> "" ->
        exists s,
          last (fst (waterfall E tiers w)) (AppleScript, "") = (s, r)
          /\ producedBy E s (history w) (history (snd (getAlbumArt E w))) r).
Proof.
  split; [apply fetchAndConvertImage_run|].
  split; [apply getMetadataArtwork_picture|].
  split; [apply runStrategy_producedBy|].
  intros w r Hr Hne.
  pose proof (getAlbumArt_is_waterfall E w) as Hwf.
  assert (Hres : resolved (fst (waterfall E tiers w)) = r)
    by (rewrite Hwf in Hr; cbn [fst] in Hr; congruence).
  assert (Hlast : exists s, last (fst (waterfall E tiers w)) (AppleScript, "") = (s, r)).
  { unfold resolved in Hres.
    destruct (last (fst (waterfall E tiers w)) (AppleScript, "")) as [s r'].
    exists s. cbn [snd] in Hres. now subst r'. }
  destruct Hlast as [s Hlast]. exists s. split; [exact Hlast|].
  destruct (waterfall_last E tiers w s r Hlast Hne) as (d & w0 & Hh & Hrun & Hsnd).
  rewrite Hwf. cbn [snd]. rewrite <- Hsnd.
  apply (producedBy_earlier E s (history w) d). rewrite <- Hh.
  now apply runStrategy_producedBy.
Qed.

(** A run that ends at the second strategy: the search finds the album
    and the image server sends a PNG file, which is tagged image/jpeg. *)
Lemma artwork_is_data_uri_witness :
  exists s,
    last (fst (waterfall Demo2.online tiers Demo.fresh)) (AppleScript, "")
    = (s, "data:image/jpeg;base64,iVBORw0KGgo=")
    /\ producedBy Demo2.online s (history Demo.fresh)
         (history (snd (getAlbumArt Demo2.online Demo.fresh)))
         "data:image/jpeg;base64,iVBORw0KGgo=".
Proof.
  apply (proj2 (proj2 (proj2 (artwork_is_data_uri Demo2.online))) Demo.fresh).
  - vm_compute. reflexivity.
  - discriminate.
Defined.

(** The three strategies that can answer on the sample machines: the
    image server's PNG file comes back tagged image/jpeg from the iTunes
    and from the Last.fm strategy, and the PNG picture in the file's
    tags comes back tagged image/png. *)
Example getAlbumArt_online :
  getAlbumArt Demo2.online Demo.fresh
  = (Returned "data:image/jpeg;base64,iVBORw0KGgo=",
     {| this := newApp;
        history :=
          [ ExecSync ArtworkScript;
            ExecSync TrackTitleScript; ExecSync TrackArtistScript; ExecSync TrackAlbumScript;
            Fetch "https://itunes.apple.com/search?term=A%20C&entity=album&limit=1" true;
            Fetch "https://img/600x600bb.jpg" false ] |}).
Proof. reflexivity. Qed.

Example getAlbumArt_lastfmOnly :
  fst (getAlbumArt Demo2.lastfmOnly Demo.fresh)
  = Returned "data:image/jpeg;base64,iVBORw0KGgo="
  /\ last (history (snd (getAlbumArt Demo2.lastfmOnly Demo.fresh))) DateNow
     = Fetch "https://img/174s.png" false.
Proof. split; reflexivity. Qed.

Example getAlbumArt_tagged :
  fst (getAlbumArt Demo2.tagged Demo.fresh)
  = Returned "data:image/png;base64,iVBORw0KGgo="
  /\ last (history (snd (getAlbumArt Demo2.tagged Demo.fresh))) DateNow
     = ParseFile "/Users/me/Music/b.m4a".
Proof. split; reflexivity. Qed.

(** The sample readers on what AppleScript prints. *)
Example sample_readers :
  Demo.readInt "245.7" = 245%float
  /\ Demo.readFloat "30.5" = 30.5%float
  /\ Demo.readFloat "0.25" = 0.25%float
  /\ Demo.readInt "200" = 200%float
  /\ PrimFloat.is_nan (Demo.readInt "") = true
  /\ PrimFloat.is_nan (Demo.readFloat "missing value") = true.
Proof. repeat split. Qed.





(** C3 on the code.  The player goes from title C by artist A-B to
    title B-C by artist A on the same album D: the triples differ, the
    dash-joined keys do not, and the poll resolves no artwork, publishes
    nothing and keeps the old song. *)
Theorem key_collision_goes_unnoticed :
  let w1 := snd (sendCurrentSong (Demo.offline Demo.trackC_byAB Demo.noDisk) Demo.fresh) in
  let E2 := Demo.offline Demo.trackBC_byA Demo.noDisk in
  let w2 := snd (checkForChanges E2 w1) in
  exists cur basic,
    currentSong (this w1) = Some cur
    /\ fst (getBasicSongInfo E2 w1) = Returned (Some basic)
    /\ (artist basic, title basic) = ("A", "B-C")
    /\ (artist cur, title cur) = ("A-B", "C")
    /\ songKey basic = songKey cur
    /\ resolutions (since w1 w2) = 0
    /\ publications (since w1 w2) = []
    /\ currentSong (this w2) = Some cur.
Proof.
  cbv zeta. eexists _, _.
  split; [vm_compute; reflexivity|].
  split; [vm_compute; reflexivity|].
  vm_compute. repeat split.
Qed.



(** C10.  When the poller cannot obtain basic song info, the poll leaves
    [lastSongKey], [currentSong] and [lastSongData] as they were, begins
    no resolution and publishes nothing, and the HTTP handler answers
    every request as before. *)
Theorem poll_without_song (E : Env) (w : World) :
  cannotObtain E w = true ->
  let w' := snd (checkForChanges E w) in
  fst (getBasicSongInfo E w) = Returned None
  /\ this w' = this w
  /\ publications (since w w') = []
  /\ resolutions (since w w') = 0
  /\ (forall req, handler (this w') req = handler (this w) req).
Proof.
  intro Hc. cbv zeta. apply getBasicSongInfo_None_iff in Hc.
  rewrite (poll_no_song E w Hc). cbn [snd].
  destruct (background_getBasicSongInfo E w) as [Ht [d [Hd Pd]]].
  destruct (background_quiet d Pd) as [R P].
  rewrite (since_app w _ d Hd), Ht. now repeat split.
Qed.

(** The player stops while the server holds a song. *)
Lemma poll_without_song_witness :
  let E := Demo.offline Demo.stopped Demo.noDisk in
  let w' := snd (checkForChanges E Demo.holdingABC) in
  this w' = this Demo.holdingABC
  /\ getCurrentSongData (this w') = Some Demo.songABC
  /\ publications (since Demo.holdingABC w') = [].
Proof.
  cbv zeta.
  destruct (poll_without_song (Demo.offline Demo.stopped Demo.noDisk) Demo.holdingABC)
    as (_ & H2 & H3 & _).
  - vm_compute. reflexivity.
  - rewrite H2. split; [reflexivity|]. split; [vm_compute; reflexivity | exact H3].
Defined.

(** C6 on the code.  From a list that goes from small to mega the
    resolver takes the entry of size large, the third of five. *)
Theorem pickImage_takes_large_not_largest :
  pickImage Demo.lastfmImages = Some {| size := "large"; text := "https://img/174s.png" |}
  /\ nth_error Demo.lastfmImages 3
     = Some {| size := "extralarge"; text := "https://img/300x300.png" |}
  /\ last Demo.lastfmImages {| size := ""; text := "" |}
     = {| size := "mega"; text := "https://img/600x600.png" |}.
Proof. repeat split. Qed.



(** X2.  The detector's invariant, call by call: a call of
    [sendCurrentSong] during which no other call runs establishes it,
    and such a call of [checkForChanges] that begins with it ends with
    it. *)
Theorem keyed_call_by_call (E : Env) (w : World) :
  keyed (this (snd (sendCurrentSong E w)))
  /\ (keyed (this w) -> keyed (this (snd (checkForChanges E w)))).
Proof. split; [apply keyed_sendCurrentSong | apply keyed_checkForChanges]. Qed.

End ServerFacts.

(** * Properties of the display client *)

Module ClientFacts.

Import Client.
Local Open Scope float_scope.

(** [Math.min(p, 100)] is never above 100, [NaN] included. *)
Lemma Math_min_100 p : PrimFloat.ltb 100 (JS.Math_min p 100) = false.
Proof.
  unfold JS.Math_min.
  destruct (is_nan p || is_nan 100); [reflexivity|].
  destruct (PrimFloat.ltb 100 p) eqn:H; [reflexivity|].
  cbn [orb].
  destruct (is_zero p && is_zero 100 && get_sign 100 && negb (get_sign p));
    [reflexivity | exact H].
Qed.

(** The effect that follows the song keeps the songs themselves. *)
Lemma songToUse_syncProgress now v : songToUse (syncProgress now v) = songToUse v.
Proof. unfold syncProgress. destruct (timing (songToUse v)) as [[d p]|]; reflexivity. Qed.

(** Without a playing song the interval is not set up at all. *)
Lemma simulated_playing v song : simulated v = Some song -> state song = "playing".
Proof.
  unfold simulated. destruct (songToUse v) as [s|]; [| discriminate].
  destruct (String.eqb_spec (state s) "playing") as [Heq|Hne].
  - destruct (negb _ || negb _ || negb true); [discriminate|].
    intro H. now injection H as <-.
  - rewrite orb_true_r. discriminate.
Qed.

(** A tick moves the progress only to a value of at most 100. *)
Lemma intervalTick_progress now v :
  progress (intervalTick now v) = progress v
  \/ PrimFloat.leb (progress (intervalTick now v)) 100 = true.
Proof.
  unfold intervalTick. destruct (simulated v) as [song|]; [| now left].
  unfold simulateProgress.
  match goal with
  | |- context [if PrimFloat.leb ?x 100 then _ else _] =>
      destruct (PrimFloat.leb x 100) eqn:H; [right; exact H | now left]
  end.
Qed.

(** C8.  With position 30, duration 200 and state playing, a tick five
    seconds after the last update shows 17.5 percent; the width of the
    bar is never above 100, whatever the view holds; and a tick changes
    nothing when the song in use is not playing. *)
Theorem progress_simulation :
  (forall v song t0 t1,
      songToUse v = Some song ->
      position song = Some 30 ->
      duration song = Some 200 ->
      state song = "playing" ->
      (t1 - t0) / 1000 = 5 ->
      progressBarWidth (intervalTick t1 (syncProgress t0 v)) = 17.5)
  /\ (forall v, PrimFloat.ltb 100 (progressBarWidth v) = false)
  /\ (forall v now,
        (forall song, songToUse v = Some song -> state song <> "playing") ->
        intervalTick now v = v).
Proof.
  split; [| split].
  - intros v song t0 t1 Hsong Hpos Hdur Hstate Helapsed.
    unfold intervalTick, simulated. rewrite songToUse_syncProgress, Hsong.
    rewrite Hpos, Hdur, Hstate. cbn [JS.optTruthyNum].
    change (negb (JS.truthyNum 200) || negb (JS.truthyNum 30)
            || negb (String.eqb "playing" "playing")) with false.
    cbv iota.
    unfold simulateProgress, syncProgress, timing. rewrite Hsong, Hpos, Hdur.
    change (JS.truthyNum 200 && JS.truthyNum 30) with true. cbv iota.
    cbn [lastUpdateTime lastPosition]. rewrite Helapsed.
    change (JS.truthyNum 200) with true. cbv iota.
    reflexivity.
  - intro v. apply Math_min_100.
  - intros v now Hnot. unfold intervalTick.
    destruct (simulated v) as [song|] eqn:Hs; [| reflexivity].
    exfalso. apply (Hnot song).
    + unfold simulated in Hs. destruct (songToUse v) as [s|]; [| discriminate].
      destruct (_ || _) in Hs; [discriminate|]. exact Hs.
    + now apply simulated_playing with v.
Qed.

(** The server's song B by A on C, polled at second 30 of 200, five
    seconds later. *)
Lemma progress_simulation_witness :
  let song := {| title := "B"; artist := "A"; album := "C"; state := "playing";
                 timestamp := 1700000000000; albumArt := None;
                 duration := Some 200; position := Some 30 |} in
  let v := {| currentSong := Some song; displaySong := None; progress := 0;
              lastUpdateTime := 0; lastPosition := 0 |} in
  progressBarWidth (intervalTick 1700000005000 (syncProgress 1700000000000 v)) = 17.5.
Proof.
  cbv zeta.
  apply (proj1 progress_simulation) with
    (song := {| title := "B"; artist := "A"; album := "C"; state := "playing";
                timestamp := 1700000000000; albumArt := None;
                duration := Some 200; position := Some 30 |});
    reflexivity.
Defined.

End ClientFacts.
(** * More properties of the server *)

Module ServerMore.

Import Server Observe Measure ServerFacts.
Local Open Scope js_scope.

(** ** Numbers *)

Lemma SFsub_same x : SF64sub x x = S754_nan \/ SF64sub x x = S754_zero false.
Proof.
  unfold SF64sub, SFsub. destruct x as [[|]|[|]| |s m e]; auto.
  right. rewrite Z.sub_diag. reflexivity.
Qed.

(** [Math.abs(x - x) > 1] is false for every number, the infinities and
    [NaN] included. *)
Lemma sub_same_not_above_one x : PrimFloat.ltb 1 (PrimFloat.abs (x - x)) = false.
Proof.
  rewrite ltb_spec, abs_spec, sub_spec.
  destruct (SFsub_same (Prim2SF x)) as [-> | ->]; reflexivity.
Qed.

Lemma positionDrifted_same a b : position a = position b -> positionDrifted a b = false.
Proof.
  intro H. unfold positionDrifted, JS.Math_abs. rewrite H. apply sub_same_not_above_one.
Qed.

(** ** The song a query reports *)

Lemma getBasicSongInfo_shape (E : Env) (w : World) (b : SongData) :
  fst (getBasicSongInfo E w) = Returned (Some b) ->
  albumArt b = None /\ timestamp b = None
  /\ (forall d, duration b = Some d -> PrimFloat.ltb 0 d = true)
  /\ (forall p, position b = Some p -> PrimFloat.ltb 0 p = true).
Proof.
  unfold getBasicSongInfo, getPlayerState, getTrackTitle, getTrackArtist,
    getTrackAlbum, getSongDuration, getSongPosition, execSync, external,
    try_catch, bind, ret.
  cbn.
  repeat match goal with
         | |- context [osascript E ?h ?s] => destruct (osascript E h s); cbn
         | |- context [if String.eqb ?a ?b then _ else _] =>
             destruct (String.eqb a b); cbn
         | |- context [if negb (JS.truthy ?a) || _ then _ else _] =>
             destruct (JS.truthy a); cbn
         | |- context [if negb (JS.truthy ?a) then _ else _] =>
             destruct (JS.truthy a); cbn
         end.
  all: try discriminate.
  all: intro H; injection H as <-; cbn.
  all: repeat split.
  all: intros x Hx;
    match type of Hx with
    | (if ?c then _ else _) = _ =>
        let C := fresh "C" in
        destruct c eqn:C; [injection Hx as <-; exact C | discriminate]
    | _ => discriminate
    end.
Qed.

(** X3.  A song reported by [getBasicSongInfo] has a title, an artist
    and an album that are not empty, a state other than "stopped", no
    artwork and no timestamp, and a duration and a position that are
    strictly positive when they are present. *)
Theorem reported_song_wellformed (E : Env) (w : World) (b : SongData) :
  fst (getBasicSongInfo E w) = Returned (Some b) ->
  title b <> "" /\ artist b <> "" /\ album b <> "" /\ state b <> "stopped"
  /\ albumArt b = None /\ timestamp b = None
  /\ (forall d, duration b = Some d -> PrimFloat.ltb 0 d = true)
  /\ (forall p, position b = Some p -> PrimFloat.ltb 0 p = true).
Proof.
  intro H. destruct (getBasicSongInfo_named E w b H) as (Ht & Ha & Hl & Hs).
  repeat (split; [assumption|]). exact (getBasicSongInfo_shape E w b H).
Qed.

Lemma reported_song_wellformed_witness :
  title Demo.songABC <> "" /\ artist Demo.songABC <> "" /\ album Demo.songABC <> ""
  /\ state Demo.songABC <> "stopped"
  /\ albumArt Demo.songABC = None /\ timestamp Demo.songABC = None
  /\ (forall d, duration Demo.songABC = Some d -> PrimFloat.ltb 0 d = true)
  /\ (forall p, position Demo.songABC = Some p -> PrimFloat.ltb 0 p = true).
Proof.
  apply (reported_song_wellformed (Demo.offline Demo.playingABC Demo.noDisk) Demo.fresh).
  vm_compute. reflexivity.
Defined.

(** ** One call of [sendCurrentSong] *)

(** X4.  When the poller cannot obtain basic song info, the call of
    [sendCurrentSong] that [start()] makes stores no current song, even
    over a song the instance held: the HTTP handler then serves [null].
    The stored key and the last song data stay, nothing is published and
    no artwork is resolved. *)
Theorem sendCurrentSong_without_song (E : Env) (w : World) :
  cannotObtain E w = true ->
  let w' := snd (sendCurrentSong E w) in
  currentSong (this w') = None
  /\ lastSongKey (this w') = lastSongKey (this w)
  /\ lastSongData (this w') = lastSongData (this w)
  /\ publications (since w w') = []
  /\ resolutions (since w w') = 0
  /\ body (handler (this w') {| method := "GET"; pathname := Some "/api/current-song" |})
     = JsonBody JS.JNull.
Proof.
  intro Hc. cbv zeta. apply getBasicSongInfo_None_iff in Hc.
  destruct (send_no_song E w Hc) as (d & Pd & Hrun). rewrite Hrun. cbn [snd this].
  destruct (background_quiet d Pd) as [R P].
  rewrite (since_app w _ d) by reflexivity.
  now repeat split.
Qed.

(** The player has stopped when the server holding a song starts again. *)
Lemma sendCurrentSong_without_song_witness :
  let w' := snd (sendCurrentSong (Demo.offline Demo.stopped Demo.noDisk) Demo.holdingABC) in
  currentSong (this Demo.holdingABC) = Some Demo.songABC
  /\ currentSong (this w') = None
  /\ lastSongKey (this w') = "A-B-C".
Proof.
  cbv zeta.
  destruct (sendCurrentSong_without_song (Demo.offline Demo.stopped Demo.noDisk) Demo.holdingABC)
    as (H1 & H2 & _).
  - vm_compute. reflexivity.
  - split; [vm_compute; reflexivity|]. split; [exact H1|].
    rewrite H2. vm_compute. reflexivity.
Defined.



(** ** What one poll can do at most *)

(** X6.  A poll begins at most one artwork resolution and publishes at
    most one payload, and it never begins a resolution without
    publishing. *)
Theorem poll_at_most_once (E : Env) (w : World) :
  let d := since w (snd (checkForChanges E w)) in
  resolutions d <= 1
  /\ List.length (publications d) <= 1
  /\ resolutions d <= List.length (publications d).
Proof.
  cbv zeta.
  destruct (total_getBasicSongInfo E w) as [[basic|] Hb].
  - destruct (String.eqb_spec (songKey basic) (lastSongKey (this w))) as [Hk|Hk].
    + rewrite (poll_same_key E w basic Hb Hk). cbv zeta. cbn [snd].
      destruct (currentSong (this w)) as [cur|].
      * destruct (positionDrifted cur basic || negb (String.eqb (state cur) (state basic)));
          (erewrite since_app; [| cbn [history]; try rewrite <- app_assoc; reflexivity]);
          cbn; lia.
      * rewrite (since_app w _ basicQueries) by reflexivity. cbn. lia.
    + destruct (poll_new_song E w basic Hb Hk) as (art & d & _ & Pd & Hrun).
      cbv zeta in Hrun. cbn [history] in Hrun. rewrite Hrun. cbn [snd].
      erewrite since_app; [| cbn [history]; rewrite <- !app_assoc; reflexivity].
      destruct (background_quiet d Pd) as [R P].
      rewrite !resolutions_app, !publications_app, resolutions_cons, publications_cons,
        ?resolutions_app, ?publications_app, R, P.
      cbn. lia.
  - rewrite (poll_no_song E w Hb). cbn [snd].
    destruct (background_getBasicSongInfo E w) as [Ht [d [Hd Pd]]].
    destruct (background_quiet d Pd) as [R P].
    rewrite (since_app w _ d Hd), R, P. cbn. lia.
Qed.

(** ** A player that does not move *)

Lemma steady_getBasicSongInfo (E : Env) :
  steady E ->
  forall w w', fst (getBasicSongInfo E w) = fst (getBasicSongInfo E w').
Proof.
  intros S w w'.
  unfold getBasicSongInfo, getPlayerState, getTrackTitle, getTrackArtist,
    getTrackAlbum, getSongDuration, getSongPosition, execSync, external,
    try_catch, bind, ret.
  cbn.
  repeat first
    [ match goal with
      | |- context [osascript E ?h ?s] =>
          lazymatch h with
          | @nil _ => fail
          | _ => rewrite (S h [] s)
          end
      end
    | match goal with
      | |- context [osascript E [] ?s] => destruct (osascript E [] s); cbn
      end
    | match goal with
      | |- context [if ?b then _ else _] => destruct b; cbn
      end ];
    reflexivity.
Qed.

Lemma steady_offline p disk : steady (Demo.offline p disk).
Proof. intros h h' s. reflexivity. Qed.

(** ** The HTTP handler *)


(** ** What the handler serves *)

Lemma untimed_sendCurrentSong (E : Env) (w : World) :
  untimed (this (snd (sendCurrentSong E w))).
Proof.
  destruct (total_getBasicSongInfo E w) as [[basic|] Hb].
  - destruct (send_song E w basic Hb) as (art & d & _ & _ & Hrun).
    cbv zeta in Hrun. rewrite Hrun. intros s Hs. cbn in Hs. injection Hs as <-.
    cbn. now destruct (getBasicSongInfo_shape E w basic Hb) as (_ & Ht & _).
  - destruct (send_no_song E w Hb) as (d & _ & Hrun). rewrite Hrun.
    intros s Hs. discriminate.
Qed.

Lemma untimed_checkForChanges (E : Env) (w : World) :
  untimed (this w) -> untimed (this (snd (checkForChanges E w))).
Proof.
  intro U.
  destruct (total_getBasicSongInfo E w) as [[basic|] Hb].
  - destruct (getBasicSongInfo_shape E w basic Hb) as (_ & Ht & _).
    destruct (String.eqb_spec (songKey basic) (lastSongKey (this w))) as [Hk|Hk].
    + rewrite (poll_same_key E w basic Hb Hk). cbv zeta. cbn [snd].
      destruct (currentSong (this w)) as [cur|] eqn:Hc.
      * destruct (positionDrifted cur basic || negb (String.eqb (state cur) (state basic))).
        -- intros s Hs. cbn in Hs. injection Hs as <-. cbn. now apply U.
        -- exact U.
      * intros s Hs. cbn in Hs. now injection Hs as <-.
    + destruct (poll_new_song E w basic Hb Hk) as (art & d & _ & _ & Hrun).
      cbv zeta in Hrun. rewrite Hrun. intros s Hs. cbn in Hs. now injection Hs as <-.
  - rewrite (poll_no_song E w Hb). cbn [snd].
    destruct (background_getBasicSongInfo E w) as [Ht _]. now rewrite Ht.
Qed.

Lemma songJSON_keys s :
  timestamp s = None ->
  ~ In "timestamp" (jsonKeys (songJSON s)) /\ ~ In "version" (jsonKeys (songJSON s)).
Proof.
  intro Ht. unfold songJSON, jsonKeys, JS.jsonField. rewrite Ht.
  destruct (duration s), (position s), (albumArt s); cbn;
    split; intro H; repeat (destruct H as [H|H]; [discriminate|]); exact H.
Qed.

(** ** The artwork cache *)

Lemma insertByMtime_perm x l : Permutation (x :: l) (insertByMtime x l).
Proof.
  induction l as [|y l IH]; simpl; [reflexivity|].
  destruct (snd y <=? snd x)%Z; [reflexivity|].
  rewrite perm_swap. now constructor.
Qed.

Lemma sortByMtime_perm l : Permutation l (sortByMtime l).
Proof.
  induction l as [|x l IH]; simpl; [constructor|].
  rewrite <- insertByMtime_perm. now constructor.
Qed.

Lemma insertByMtime_newestFirst x l :
  newestFirst l -> newestFirst (insertByMtime x l).
Proof.
  induction 1 as [|y l Hy Hl IH]; simpl.
  - constructor; constructor.
  - destruct (Z.leb_spec (snd y) (snd x)) as [Hle|Hgt].
    + constructor; [| now constructor].
      constructor; [exact Hle|].
      rewrite Forall_forall in *. intros z Hz. specialize (Hy z Hz).
      unfold mtimeOf in *. lia.
    + constructor; [| exact IH].
      rewrite Forall_forall in *. intros z Hz.
      apply (Permutation_in _ (Permutation_sym (insertByMtime_perm x l))) in Hz.
      destruct Hz as [<-|Hz]; [unfold mtimeOf; lia | now apply Hy].
Qed.

Lemma sortByMtime_newestFirst l : newestFirst (sortByMtime l).
Proof.
  induction l as [|x l IH]; simpl; [constructor|].
  now apply insertByMtime_newestFirst.
Qed.

(** The head of the sorted list is the first of the newest entries of
    the listing. *)
Lemma sortByMtime_head l x r :
  sortByMtime l = x :: r ->
  exists before after,
    l = (before ++ x :: after)%list
    /\ Forall (fun y => (mtimeOf y < mtimeOf x)%Z) before
    /\ Forall (fun y => (mtimeOf y <= mtimeOf x)%Z) after.
Proof.
  revert x r. induction l as [|a l IH]; intros x r; simpl; [discriminate|].
  destruct (sortByMtime l) as [|y r'] eqn:Hs.
  - simpl. intro H. injection H as <- <-.
    assert (l = []) as ->.
    { apply Permutation_nil. rewrite <- Hs. apply Permutation_sym, sortByMtime_perm. }
    exists [], []. now repeat split.
  - destruct (IH y r' eq_refl) as (before & after & -> & Hb & Ha).
    simpl. destruct (Z.leb_spec (snd y) (snd a)) as [Hle|Hgt]; intro H; injection H as <- <-.
    + exists [], (before ++ y :: after)%list. split; [reflexivity|]. split; [constructor|].
      apply Forall_app. split; [| constructor].
      * eapply Forall_impl; [| exact Hb]. unfold mtimeOf. intros z Hz. simpl in *. lia.
      * exact Hle.
      * eapply Forall_impl; [| exact Ha]. unfold mtimeOf. intros z Hz. simpl in *. lia.
    + exists (a :: before), after. split; [reflexivity|]. split; [| exact Ha].
      constructor; [unfold mtimeOf; lia | exact Hb].
Qed.

(** X10.  The sort [getCachedArtwork] applies to the directory listing
    only reorders it, puts newer files before older ones, and puts in
    front the first of the listing's newest files. *)
Theorem sortByMtime_newest_first (l : list (string * string * Z)) :
  Permutation l (sortByMtime l)
  /\ newestFirst (sortByMtime l)
  /\ (forall x r, sortByMtime l = x :: r ->
        exists before after,
          l = (before ++ x :: after)%list
          /\ Forall (fun y => (mtimeOf y < mtimeOf x)%Z) before
          /\ Forall (fun y => (mtimeOf y <= mtimeOf x)%Z) after).
Proof.
  split; [apply sortByMtime_perm|]. split; [apply sortByMtime_newestFirst|].
  apply sortByMtime_head.
Qed.

Lemma statFiles_still (E : Env) files mt content :
  stillCache E files mt content ->
  forall l w,
    exists d,
      statFiles E (artworkPath E) l w
      = (Returned (map (fun f => (f, join E (artworkPath E) f, mt f)) l),
         {| this := this w; history := (history w ++ d)%list |}).
Proof.
  intros (_ & _ & Hstat & _). induction l as [|f l IH]; intro w.
  - exists []. rewrite app_nil_r. now destruct w.
  - simpl. unfold bind, fs_statSync_mtime, external. rewrite Hstat.
    destruct (IH {| this := this w;
                    history := (history w ++ [StatSync (join E (artworkPath E) f)])%list |})
      as (d & Hd).
    rewrite Hd. cbn [this history]. eexists. rewrite <- app_assoc. reflexivity.
Qed.

(** X11.  On a cache directory that does not change during the scan,
    [getCachedArtwork] returns the empty string when the directory is
    empty, and otherwise the content of one of its newest files, the
    first of them in the listing, as an image/jpeg data URI. *)
Theorem cached_artwork_is_newest (E : Env) (w : World) files mt content :
  stillCache E files mt content ->
  match files with
  | [] => fst (getCachedArtwork E w) = Returned ""
  | _ :: _ =>
      exists before f after,
        files = (before ++ f :: after)%list
        /\ Forall (fun g => (mt g < mt f)%Z) before
        /\ Forall (fun g => (mt g <= mt f)%Z) after
        /\ fst (getCachedArtwork E w)
           = Returned (dataURI "image/jpeg" (content (join E (artworkPath E) f)))
  end.
Proof.
  intro Still. pose proof Still as (Hex & Hdir & _ & Hread).
  assert (Hrun : forall stats,
             stats = map (fun f => (f, join E (artworkPath E) f, mt f)) files ->
             fst (getCachedArtwork E w)
             = Returned (match sortByMtime stats with
                         | latest :: _ => dataURI "image/jpeg" (content (snd (fst latest)))
                         | [] => ""
                         end)).
  { intros stats ->.
    unfold getCachedArtwork, getCachedArtwork_try, try_catch, bind,
      fs_existsSync, fs_readdirSync, fs_readFileSync, external.
    fold (artworkPath E). cbv zeta. cbn [fst snd this history].
    rewrite Hex, Hdir.
    match goal with
    | |- context [statFiles E (artworkPath E) files ?w1] =>
        destruct (statFiles_still E files mt content Still files w1) as (d & Hd);
        rewrite Hd
    end.
    destruct (sortByMtime _) as [|latest rest]; [reflexivity|].
    cbn [fst snd this history]. rewrite Hread. reflexivity. }
  destruct files as [|f0 files'].
  - now rewrite (Hrun _ eq_refl).
  - rewrite (Hrun _ eq_refl).
    destruct (sortByMtime _) as [|latest rest] eqn:Hs.
    + apply (f_equal (@List.length _)) in Hs.
      rewrite <- (Permutation_length (sortByMtime_perm _)) in Hs. discriminate.
    + destruct (sortByMtime_head _ _ _ Hs) as (sb & sa & Hl & Hb & Ha).
      apply map_eq_app in Hl as (before & l2 & Hfiles & <- & Hl2).
      destruct l2 as [|f after]; [discriminate|].
      simpl in Hl2. injection Hl2 as <- <-.
      exists before, f, after. split; [assumption|].
      cbn [fst snd]. unfold mtimeOf in *.
      rewrite Forall_map in Hb, Ha. now repeat split.
Qed.

Lemma stillCache_cached :
  stillCache Demo2.cached Demo2.cacheFiles Demo2.cacheMtime Demo2.cacheContent.
Proof.
  repeat split; reflexivity.
Qed.

(** Of a.jpg (older), b.jpg and c.jpg (equally new), b.jpg is returned. *)
Lemma cached_artwork_is_newest_witness :
  exists before f after,
    Demo2.cacheFiles = (before ++ f :: after)%list
    /\ Forall (fun g => (Demo2.cacheMtime g < Demo2.cacheMtime f)%Z) before
    /\ Forall (fun g => (Demo2.cacheMtime g <= Demo2.cacheMtime f)%Z) after
    /\ fst (getCachedArtwork Demo2.cached Demo.fresh)
       = Returned (dataURI "image/jpeg"
                     (Demo2.cacheContent (join Demo2.cached (artworkPath Demo2.cached) f))).
Proof.
  exact (cached_artwork_is_newest Demo2.cached Demo.fresh _ _ _ stillCache_cached).
Defined.

Example cached_artwork_is_b :
  fst (getCachedArtwork Demo2.cached Demo.fresh) = Returned "data:image/jpeg;base64,TWFu".
Proof. reflexivity. Qed.

(** ** The resolver and the network *)

Lemma truthy_dataURI mime bytes : JS.truthy (dataURI mime bytes) = true.
Proof. reflexivity. Qed.

(** X12.  When the player exports embedded artwork to a file that
    exists and can be read, the resolver returns that file as an
    image/jpeg data URI after three calls (the artwork query, the
    existence check, the read): it asks no other strategy and makes no
    network request. *)
Theorem embedded_artwork_wins (E : Env) (w : World) (path : string)
    (bytes : list Byte.byte) :
  osascript E (history w) ArtworkScript = Returned path ->
  path <> "" ->
  existsSync E (history w ++ [ExecSync ArtworkScript])%list path = true ->
  readFileSync E (history w ++ [ExecSync ArtworkScript; ExistsSync path])%list path
  = Returned bytes ->
  getAlbumArt E w
  = (Returned (dataURI "image/jpeg" bytes),
     {| this := this w;
        history := (history w ++ [ExecSync ArtworkScript; ExistsSync path;
                                  ReadFileSync path])%list |})
  /\ fetches (since w (snd (getAlbumArt E w))) = 0.
Proof.
  intros Hq Hne Hex Hread.
  assert (Hrun : getAlbumArt E w
                 = (Returned (dataURI "image/jpeg" bytes),
                    {| this := this w;
                       history := (history w ++ [ExecSync ArtworkScript; ExistsSync path;
                                                 ReadFileSync path])%list |})).
  { unfold getAlbumArt, getAppleScriptArtworkBase64, getAppleScriptArtworkBase64_try,
      try_catch, bind, execSync, fs_existsSync, fs_readFileSync, external.
    cbn [fst snd this history]. rewrite Hq.
    apply truthy_true in Hne. rewrite Hne. cbn [fst snd this history].
    rewrite Hex. cbn [fst snd this history].
    rewrite <- !app_assoc. cbn [List.app]. rewrite Hread.
    reflexivity. }
  split; [exact Hrun|]. rewrite Hrun. cbn [snd].
  rewrite (since_app w _ [ExecSync ArtworkScript; ExistsSync path; ReadFileSync path])
    by reflexivity.
  reflexivity.
Qed.

Lemma embedded_artwork_wins_witness :
  getAlbumArt (Demo.offline Demo.playingABCart Demo.artDisk) Demo.fresh
  = (Returned "data:image/jpeg;base64,TWFu",
     {| this := newApp;
        history := [ExecSync ArtworkScript; ExistsSync "/tmp/album_art_1234.jpg";
                    ReadFileSync "/tmp/album_art_1234.jpg"] |}).
Proof.
  apply (embedded_artwork_wins (Demo.offline Demo.playingABCart Demo.artDisk) Demo.fresh
           "/tmp/album_art_1234.jpg" [Byte.x4d; Byte.x61; Byte.x6e]).
  - reflexivity.
  - discriminate.
  - reflexivity.
  - reflexivity.
Defined.

Lemma offNetwork_fetches d : forallb offNetwork d = true -> fetches d = 0.
Proof.
  induction d as [|e d IH]; simpl; [reflexivity|].
  intro H. apply andb_prop in H as [He Hd]. unfold fetches in *. simpl.
  unfold offNetwork in He. apply negb_true_iff in He. rewrite He. now apply IH.
Qed.

Lemma fetches_app a b : fetches (a ++ b) = fetches a + fetches b.
Proof. unfold fetches. now rewrite filter_app, length_app. Qed.

Lemma costs_offNetwork {A : Type} n (m : M A) : only offNetwork m -> costs n m.
Proof.
  intros H w. destruct (H w) as [_ [d [Hd Pd]]]. exists d. split; [assumption|].
  rewrite (offNetwork_fetches d Pd). lia.
Qed.

Lemma costs_ret {A : Type} n (a : A) : costs n (ret a).
Proof. apply costs_offNetwork, only_ret. Qed.

Lemma costs_fetch n url ua (E : Env) : 1 <= n -> costs n (net_fetch E url ua).
Proof. intros H w. exists [Fetch url ua]. split; [reflexivity | exact H]. Qed.

Lemma costs_bind {A B : Type} a b n (m : M A) (k : A -> M B) :
  a + b <= n -> costs a m -> (forall x, costs b (k x)) -> costs n (bind m k).
Proof.
  intros Hn Hm Hk w. unfold bind.
  destruct (Hm w) as [d [Hd Pd]]. destruct (m w) as [[x|] w']; simpl in *.
  - destruct (Hk x w') as [d' [Hd' Pd']].
    exists (d ++ d')%list. rewrite Hd', Hd, app_assoc, fetches_app. split; [reflexivity | lia].
  - exists d. split; [assumption | lia].
Qed.

Lemma costs_try_catch {A : Type} n (m h : M A) :
  costs n m -> only offNetwork h -> costs n (try_catch m h).
Proof.
  intros Hm Hh w. unfold try_catch.
  destruct (Hm w) as [d [Hd Pd]]. destruct (m w) as [[x|] w']; simpl in *.
  - now exists d.
  - destruct (Hh w') as [_ [d' [Hd' Pd']]].
    exists (d ++ d')%list. rewrite Hd', Hd, app_assoc, fetches_app.
    rewrite (offNetwork_fetches d' Pd'). split; [reflexivity | lia].
Qed.

Section Network.

Variable E : Env.

Lemma offNetwork_getTrackTitle : only offNetwork (getTrackTitle E).
Proof. unfold getTrackTitle, execSync. only_solve. Qed.

Lemma offNetwork_getTrackArtist : only offNetwork (getTrackArtist E).
Proof. unfold getTrackArtist, execSync. only_solve. Qed.

Lemma offNetwork_getTrackAlbum : only offNetwork (getTrackAlbum E).
Proof. unfold getTrackAlbum, execSync. only_solve. Qed.

Lemma offNetwork_getAppleScriptArtworkBase64 :
  only offNetwork (getAppleScriptArtworkBase64 E).
Proof.
  unfold getAppleScriptArtworkBase64, getAppleScriptArtworkBase64_try, execSync,
    fs_existsSync, fs_readFileSync.
  only_solve.
Qed.

Lemma offNetwork_getMetadataArtwork : only offNetwork (getMetadataArtwork E).
Proof.
  unfold getMetadataArtwork, getMetadataArtwork_try, execSync, fs_existsSync,
    mm_parseFile.
  only_solve.
Qed.

Lemma offNetwork_statFiles dir files : only offNetwork (statFiles E dir files).
Proof.
  induction files as [|f rest IH]; simpl.
  - apply only_ret.
  - unfold fs_statSync_mtime. only_solve.
Qed.

Lemma offNetwork_getCachedArtwork : only offNetwork (getCachedArtwork E).
Proof.
  unfold getCachedArtwork, getCachedArtwork_try, fs_existsSync, fs_readdirSync,
    fs_readFileSync.
  only_solve; apply offNetwork_statFiles.
Qed.

Lemma costs_fetchAndConvertImage url : costs 1 (fetchAndConvertImage E url).
Proof.
  unfold fetchAndConvertImage, fetchAndConvertImage_try.
  apply costs_try_catch; [| apply only_ret].
  apply (costs_bind 1 0); [lia | now apply costs_fetch |].
  intro r. apply costs_offNetwork. only_solve.
Qed.

Lemma costs_itunesImage r : costs 1 (itunesImage E r).
Proof.
  unfold itunesImage.
  destruct (ok r); [| apply costs_ret].
  apply (costs_bind 0 1); [lia | apply costs_offNetwork, only_await |].
  intro data. destruct (results data) as [[|result rest]|]; try apply costs_ret.
  destruct (option_map _ _) as [url|]; [| apply costs_ret].
  destruct (JS.truthy url); [apply costs_fetchAndConvertImage | apply costs_ret].
Qed.

Lemma costs_itunesSearchLoop terms :
  costs (2 * List.length terms) (itunesSearchLoop E terms).
Proof.
  induction terms as [|t rest IH]; simpl List.length; simpl itunesSearchLoop.
  - apply costs_ret.
  - apply (costs_bind 1 (1 + 2 * List.length rest)); [lia | now apply costs_fetch |].
    intro response.
    apply (costs_bind 1 (2 * List.length rest)); [lia | apply costs_itunesImage |].
    intro img. destruct (JS.truthy img); [apply costs_ret | exact IH].
Qed.

Lemma costs_getItunesArtwork : costs 8 (getItunesArtwork E).
Proof.
  unfold getItunesArtwork, getItunesArtwork_try.
  apply costs_try_catch; [| apply only_ret].
  apply (costs_bind 0 8); [lia | apply costs_offNetwork, offNetwork_getTrackTitle |].
  intro title.
  apply (costs_bind 0 8); [lia | apply costs_offNetwork, offNetwork_getTrackArtist |].
  intro artist.
  apply (costs_bind 0 8); [lia | apply costs_offNetwork, offNetwork_getTrackAlbum |].
  intro album.
  destruct (negb (JS.truthy title) || negb (JS.truthy artist)); [apply costs_ret|].
  cbv zeta.
  apply (costs_bind 6 2); [lia | apply (costs_itunesSearchLoop [_; _; _]) |].
  intros [found|]; [apply costs_ret|].
  apply (costs_bind 1 1); [lia | now apply costs_fetch |].
  intro response.
  apply (costs_bind 1 0); [lia | apply costs_itunesImage |].
  intro img. destruct (JS.truthy img); apply costs_ret.
Qed.

Lemma costs_lastfmSearchLoop key l :
  costs (2 * List.length l) (lastfmSearchLoop E key l).
Proof.
  induction l as [|p rest IH]; simpl List.length; simpl lastfmSearchLoop.
  - apply costs_ret.
  - apply (costs_bind 1 (1 + 2 * List.length rest)); [lia | now apply costs_fetch |].
    intro response.
    apply (costs_bind 1 (2 * List.length rest)); [lia | |].
    + destruct (ok response); [| apply costs_ret].
      apply (costs_bind 0 1); [lia | apply costs_offNetwork, only_await |].
      intro data. destruct (lfAlbum data) as [alb|]; [| apply costs_ret].
      destruct (image alb) as [[|i is']|]; try apply costs_ret.
      destruct (pickImage (i :: is')) as [largeImage|]; [| apply costs_ret].
      destruct (JS.truthy (text largeImage)); [| apply costs_ret].
      apply (costs_bind 1 0); [lia | apply costs_fetchAndConvertImage |].
      intro img. apply costs_ret.
    + intros [found|]; [apply costs_ret | exact IH].
Qed.

Lemma costs_getLastfmArtwork : costs 6 (getLastfmArtwork E).
Proof.
  unfold getLastfmArtwork, getLastfmArtwork_try.
  apply costs_try_catch; [| apply only_ret].
  apply (costs_bind 0 6); [lia | apply costs_offNetwork, offNetwork_getTrackTitle |].
  intro title.
  apply (costs_bind 0 6); [lia | apply costs_offNetwork, offNetwork_getTrackArtist |].
  intro artist.
  apply (costs_bind 0 6); [lia | apply costs_offNetwork, offNetwork_getTrackAlbum |].
  intro album.
  destruct (negb (JS.truthy title) || negb (JS.truthy artist)); [apply costs_ret|].
  cbv zeta.
  eapply (costs_bind _ 0); [| apply costs_lastfmSearchLoop |].
  - destruct (JS.truthy album); simpl; lia.
  - intros [found|]; apply costs_ret.
Qed.

Lemma costs_getAlbumArt : costs 14 (getAlbumArt E).
Proof.
  unfold getAlbumArt.
  apply (costs_bind 0 14);
    [lia | apply costs_offNetwork, offNetwork_getAppleScriptArtworkBase64 |].
  intro a1. destruct (JS.truthy a1); [apply costs_ret|].
  apply (costs_bind 8 6); [lia | apply costs_getItunesArtwork |].
  intro a2. destruct (JS.truthy a2); [apply costs_ret|].
  apply (costs_bind 6 0); [lia | apply costs_getLastfmArtwork |].
  intro a3. destruct (JS.truthy a3); [apply costs_ret|].
  apply (costs_bind 0 0); [lia | apply costs_offNetwork, offNetwork_getMetadataArtwork |].
  intro a4. destruct (JS.truthy a4); [apply costs_ret|].
  apply (costs_bind 0 0); [lia | apply costs_offNetwork, offNetwork_getCachedArtwork |].
  intro a5. destruct (JS.truthy a5); apply costs_ret.
Qed.

End Network.

(** X13.  One run of the resolver makes at most fourteen network
    requests: at most eight by the iTunes strategy (four searches, each
    with at most one image download) and at most six by the Last.fm
    strategy.  Fourteen are made when every search finds an album and no
    image can be downloaded. *)
Theorem resolver_network_bound :
  (forall E w, fetches (since w (snd (getItunesArtwork E w))) <= 8)
  /\ (forall E w, fetches (since w (snd (getLastfmArtwork E w))) <= 6)
  /\ (forall E w, fetches (since w (snd (getAlbumArt E w))) <= 14)
  /\ fetches (since Demo.fresh (snd (getAlbumArt Demo2.noImages Demo.fresh))) = 14.
Proof.
  assert (H : forall A n (m : M A) w, costs n m -> fetches (since w (snd (m w))) <= n).
  { intros A n m w Hm. destruct (Hm w) as [d [Hd Pd]]. now rewrite (since_app w _ d Hd). }
  split; [intros; apply H, costs_getItunesArtwork|].
  split; [intros; apply H, costs_getLastfmArtwork|].
  split; [intros; apply H, costs_getAlbumArt|].
  vm_compute. reflexivity.
Qed.

Lemma only_bind_with {A B : Type} (Q : A -> Prop) P (m : M A) (k : A -> M B) :
  yields Q m -> only P m -> (forall a, Q a -> only P (k a)) -> only P (bind m k).
Proof.
  intros Hq Hm Hk w. unfold bind.
  destruct (Hm w) as [Ht [d [Hd Pd]]]. specialize (Hq w).
  destruct (m w) as [[a|] w']; simpl in *.
  - destruct (Hk a (Hq a eq_refl) w') as [Ht' [d' [Hd' Pd']]]. split; [congruence|].
    exists (d ++ d')%list. rewrite Hd', Hd, app_assoc, forallb_app, Pd, Pd'. now split.
  - split; [assumption|]. now exists d.
Qed.

Lemma untitled_getTrackTitle (E : Env) :
  untitled E -> yields (fun t => t = "") (getTrackTitle E).
Proof.
  intros U w t. unfold getTrackTitle, try_catch, execSync, external. cbn.
  specialize (U (history w)). unfold noAnswer in U.
  destruct (osascript E (history w) TrackTitleScript) as [s|]; cbn; intro H;
    injection H as <-; [now apply String.eqb_eq | reflexivity].
Qed.

Lemma untitled_getItunesArtwork (E : Env) :
  untitled E -> only offNetwork (getItunesArtwork E).
Proof.
  intro U. unfold getItunesArtwork, getItunesArtwork_try.
  apply only_try_catch; [| apply only_ret].
  apply (only_bind_with (fun t => t = ""));
    [now apply untitled_getTrackTitle | apply offNetwork_getTrackTitle |].
  intros title ->.
  apply only_bind; [apply offNetwork_getTrackArtist | intro artist].
  apply only_bind; [apply offNetwork_getTrackAlbum | intro album].
  apply only_ret.
Qed.

Lemma untitled_getLastfmArtwork (E : Env) :
  untitled E -> only offNetwork (getLastfmArtwork E).
Proof.
  intro U. unfold getLastfmArtwork, getLastfmArtwork_try.
  apply only_try_catch; [| apply only_ret].
  apply (only_bind_with (fun t => t = ""));
    [now apply untitled_getTrackTitle | apply offNetwork_getTrackTitle |].
  intros title ->.
  apply only_bind; [apply offNetwork_getTrackArtist | intro artist].
  apply only_bind; [apply offNetwork_getTrackAlbum | intro album].
  apply only_ret.
Qed.

(** X14.  While the player reports no track title, the resolver makes
    no network request: the two network strategies return before their
    first search. *)
Theorem untitled_resolver_stays_offline (E : Env) (w : World) :
  untitled E ->
  fetches (since w (snd (getAlbumArt E w))) = 0.
Proof.
  intro U.
  assert (H : only offNetwork (getAlbumArt E)).
  { unfold getAlbumArt.
    pose proof (offNetwork_getAppleScriptArtworkBase64 E).
    pose proof (untitled_getItunesArtwork E U).
    pose proof (untitled_getLastfmArtwork E U).
    pose proof (offNetwork_getMetadataArtwork E).
    pose proof (offNetwork_getCachedArtwork E).
    only_solve. }
  destruct (H w) as [_ [d [Hd Pd]]].
  rewrite (since_app w _ d Hd). now apply offNetwork_fetches.
Qed.

Lemma untitled_resolver_stays_offline_witness :
  fetches (since Demo.fresh (snd (getAlbumArt Demo2.cached Demo.fresh))) = 0.
Proof.
  apply (untitled_resolver_stays_offline Demo2.cached Demo.fresh).
  intro h. reflexivity.
Defined.

(** X16.  A run of the resolver leaves every field of the instance as
    it was and publishes nothing; it only adds to the history, and what
    it adds starts with the artwork query, which it makes once. *)
Theorem resolver_is_read_only (E : Env) (w : World) :
  let w' := snd (getAlbumArt E w) in
  this w' = this w
  /\ (exists d, history w' = (history w ++ ExecSync ArtworkScript :: d)%list)
  /\ publications (since w w') = []
  /\ resolutions (since w w') = 1.
Proof.
  cbv zeta. destruct (opens_getAlbumArt_run E w) as (art & d & Hrun & Pd).
  rewrite Hrun. cbn [snd this history].
  destruct (background_quiet d Pd) as [R P].
  split; [reflexivity|]. split; [now exists d|].
  rewrite (since_app w _ (ExecSync ArtworkScript :: d)) by reflexivity.
  rewrite resolutions_cons, publications_cons, R, P. now split.
Qed.

(** ** The choice among a Last.fm album's images, in general *)

(** X15.  From a list that is not empty [pickImage] always takes an
    entry of the list: one of size large when there is one, else one of
    size medium when there is one, else the last entry. *)
Theorem pickImage_choice (images : list LastFmImage) :
  images <> [] ->
  exists img,
    pickImage images = Some img
    /\ In img images
    /\ ((exists i, In i images /\ size i = "large") -> size img = "large")
    /\ ((forall i, In i images -> size i <> "large") ->
        (exists i, In i images /\ size i = "medium") -> size img = "medium")
    /\ ((forall i, In i images -> size i <> "large" /\ size i <> "medium") ->
        img = last images img).
Proof.
  intro Hne. unfold pickImage.
  destruct (find (fun i => String.eqb (size i) "large") images) as [l|] eqn:Hl.
  - apply find_some in Hl as [Hin Hs]. apply String.eqb_eq in Hs.
    exists l. split; [reflexivity|]. split; [assumption|]. split; [auto|]. split.
    + intros Hno _. now elim (Hno l Hin).
    + intro Hno. now elim (proj1 (Hno l Hin)).
  - assert (Hnol : forall i, In i images -> size i <> "large").
    { intros i Hi Hs. apply (find_none _ _ Hl) in Hi. rewrite Hs in Hi. discriminate. }
    destruct (find (fun i => String.eqb (size i) "medium") images) as [m|] eqn:Hm.
    + apply find_some in Hm as [Hin Hs]. apply String.eqb_eq in Hs.
      exists m. split; [reflexivity|]. split; [assumption|]. split; [| split].
      * intros (i & Hi & Hsi). now elim (Hnol i Hi).
      * auto.
      * intro Hno. now elim (proj2 (Hno m Hin)).
    + destruct (@exists_last _ images Hne) as (l' & x & ->).
      exists x. rewrite length_app. simpl.
      rewrite Nat.add_sub, nth_error_app2, Nat.sub_diag by lia.
      split; [reflexivity|]. split; [apply in_or_app; right; now left|].
      split; [| split].
      * intros (i & Hi & Hsi). now elim (Hnol i Hi).
      * intros _ (i & Hi & Hsi). apply (find_none _ _ Hm) in Hi.
        rewrite Hsi in Hi. discriminate.
      * intros _. now rewrite last_last.
Qed.

Lemma pickImage_choice_witness :
  exists img,
    pickImage Demo.lastfmImages = Some img
    /\ In img Demo.lastfmImages
    /\ ((exists i, In i Demo.lastfmImages /\ size i = "large") -> size img = "large")
    /\ ((forall i, In i Demo.lastfmImages -> size i <> "large") ->
        (exists i, In i Demo.lastfmImages /\ size i = "medium") -> size img = "medium")
    /\ ((forall i, In i Demo.lastfmImages -> size i <> "large" /\ size i <> "medium") ->
        img = last Demo.lastfmImages img).
Proof.
  apply (pickImage_choice Demo.lastfmImages). discriminate.
Defined.

(** ** Search URLs *)

Lemma occurrences_app c a b :
  occurrences c (a ++ b) = occurrences c a + occurrences c b.
Proof. induction a as [|x a IH]; simpl; [reflexivity|]. rewrite IH. lia. Qed.

Lemma hexDigit_unreserved n : JS.isUnreserved (JS.hexDigit n) = true.
Proof.
  unfold JS.hexDigit. generalize (N.to_nat n). intro k.
  do 16 (destruct k as [|k]; [reflexivity|]).
  simpl. now destruct k.
Qed.

(** A character that [encodeURIComponent] does not keep, other than the
    percent sign, does not occur in what it returns. *)
Lemma encodeURIComponent_escapes c s :
  JS.isUnreserved c = false -> c <> "%"%char ->
  occurrences c (JS.encodeURIComponent s) = 0.
Proof.
  intros Hc Hp. induction s as [|x s IH]; [reflexivity|].
  assert (Hhex : forall n, Ascii.eqb (JS.hexDigit n) c = false).
  { intro n. destruct (Ascii.eqb_spec (JS.hexDigit n) c) as [<-|]; [| reflexivity].
    rewrite hexDigit_unreserved in Hc. discriminate. }
  assert (Hpercent : Ascii.eqb "%"%char c = false)
    by (apply Ascii.eqb_neq; congruence).
  cbn [JS.encodeURIComponent]. destruct (JS.isUnreserved x) eqn:Hx; cbv zeta;
    cbn [occurrences].
  - destruct (Ascii.eqb_spec x c) as [->|]; [congruence | exact IH].
  - rewrite !Hhex, Hpercent. exact IH.
Qed.

(** X22.  Whatever the search term, the iTunes search URL has one
    question mark, the two ampersands and three equals signs of its
    three parameters, and neither a hash sign nor a space: a title or an
    artist cannot add a parameter to the query or cut it short. *)
Theorem itunesSearchUrl_parameters (term : string) :
  occurrences "?" (itunesSearchUrl term) = 1
  /\ occurrences "&" (itunesSearchUrl term) = 2
  /\ occurrences "=" (itunesSearchUrl term) = 3
  /\ occurrences "#" (itunesSearchUrl term) = 0
  /\ occurrences " " (itunesSearchUrl term) = 0.
Proof.
  unfold itunesSearchUrl. rewrite !occurrences_app.
  rewrite !encodeURIComponent_escapes by (reflexivity || discriminate).
  now repeat split.
Qed.

End ServerMore.

(** * More properties of the display client *)

Module ClientMore.

Import Client ClientUI.

(** ** Fetching *)

(** The loop goes past every port that does not answer and leaves at
    the first that does. *)
Lemma probePorts_first net before : forall ps p after resp,
  ps = (before ++ p :: after)%list ->
  Forall (fun q => answers net q = false) before ->
  net p = Server.Returned resp ->
  probe_ok resp = true ->
  probePorts net ps = ((before ++ [p])%list, Some resp).
Proof.
  induction before as [|q before IH]; intros ps p after resp -> Hfail Hnet Hok; simpl.
  - now rewrite Hnet, Hok.
  - inversion Hfail as [|x l Hq Hrest]; subst. unfold answers in Hq.
    rewrite (IH _ p after resp eq_refl Hrest Hnet Hok).
    destruct (net q) as [r|]; [now rewrite Hq | reflexivity].
Qed.

Lemma probePorts_none net ps :
  Forall (fun q => answers net q = false) ps -> probePorts net ps = (ps, None).
Proof.
  induction 1 as [|q ps Hq Hrest IH]; simpl; [reflexivity|].
  unfold answers in Hq. rewrite IH.
  destruct (net q) as [r|]; [now rewrite Hq | reflexivity].
Qed.

(** X17.  [fetchCurrentSong] fetches from the ports 3001 to 3005 in
    that order, goes past every port whose fetch throws or returns a
    response that is not ok, and stops at the first port that answers
    with an ok response: the ports it fetched from are exactly those up
    to and including that one.  The current song becomes what that
    response's JSON holds ([null] clears it), and is kept when the JSON
    cannot be read.  When no port answers, all five were fetched from
    and the current song is kept.  The loading state always ends. *)
Theorem fetchCurrentSong_first_port (net : Net) (cur : option SongData) (loading : bool) :
  let r := fetchCurrentSong net cur loading in
  f_isLoading r = false
  /\ (Forall (fun p => answers net p = false) ports ->
      f_probed r = ports /\ f_currentSong r = cur)
  /\ (forall before p after resp,
        ports = (before ++ p :: after)%list ->
        Forall (fun q => answers net q = false) before ->
        net p = Server.Returned resp ->
        probe_ok resp = true ->
        f_probed r = (before ++ [p])%list
        /\ f_currentSong r
           = match probe_json resp with
             | Server.Returned song => song
             | Server.Threw => cur
             end).
Proof.
  cbv zeta. split; [| split].
  - unfold fetchCurrentSong. destruct (probePorts net ports) as [tried [r|]];
      [| reflexivity].
    destruct (probe_ok r); [| reflexivity].
    now destruct (probe_json r) as [[song|]|].
  - intro Hall. unfold fetchCurrentSong. rewrite (probePorts_none net ports Hall).
    now split.
  - intros before p after resp Hports Hfail Hnet Hok. unfold fetchCurrentSong.
    rewrite (probePorts_first net before ports p after resp Hports Hfail Hnet Hok), Hok.
    now destruct (probe_json resp) as [[song|]|].
Qed.

(** Nothing listens on 3001, 3002 answers 503, and the server is on
    3003: three ports are fetched from and the song is taken from the
    third. *)
Lemma fetchCurrentSong_first_port_witness :
  let song := {| title := "B"; artist := "A"; album := "C"; state := "playing";
                 timestamp := 0%float; albumArt := None;
                 duration := Some 200%float; position := Some 30%float |} in
  let net := fun port : N =>
               if (port =? 3001)%N then Server.Threw
               else if (port =? 3002)%N
                    then Server.Returned {| probe_ok := false;
                                            probe_json := Server.Threw |}
                    else Server.Returned {| probe_ok := true;
                                            probe_json := Server.Returned (Some song) |} in
  let r := fetchCurrentSong net None true in
  f_probed r = [3001; 3002; 3003]%N /\ f_currentSong r = Some song.
Proof.
  cbv zeta.
  apply (proj2 (proj2 (fetchCurrentSong_first_port _ None true))
           [3001; 3002]%N 3003%N [3004; 3005]%N
           {| probe_ok := true;
              probe_json :=
                Server.Returned
                  (Some {| title := "B"; artist := "A"; album := "C"; state := "playing";
                           timestamp := 0%float; albumArt := None;
                           duration := Some 200%float; position := Some 30%float |}) |}).
  - reflexivity.
  - repeat constructor.
  - reflexivity.
  - reflexivity.
Defined.

(** ** Transitions *)

Lemma songChanged_same s : songChanged s s = false.
Proof. unfold songChanged. now rewrite !String.eqb_refl. Qed.

Lemma display_kept_apply e s d :
  st_display s = Some d -> exists d', st_display (apply e s) = Some d'.
Proof.
  intro Hd. destruct e as [song|]; simpl.
  - unfold receive, songEffect. cbn [st_current st_previous st_display].
    destruct song as [cur|]; [destruct (st_previous s) as [prev|]|].
    + destruct (songChanged cur prev); cbn; eauto.
    + cbn. eauto.
    + cbn. eauto.
  - unfold timeout. destruct (st_timers s); cbn; eauto.
Qed.

Lemma display_kept_run steps : forall s d,
  st_display s = Some d -> exists d', st_display (run steps s) = Some d'.
Proof.
  induction steps as [|e steps IH]; intros s d Hd; simpl; [eauto|].
  destruct (display_kept_apply e s d Hd) as [d' Hd']. now apply IH with d'.
Qed.

(** X18.  Once a song is on display, the client shows the player screen
    after whatever follows: no fetch result (not even [null]) and no
    timer brings back the loading screen or the No Music Playing
    screen. *)
Theorem display_is_never_cleared (steps : list step) (s : Stage) (d : SongData)
    (isLoading : bool) :
  st_display s = Some d ->
  exists d', render isLoading (run steps s) = PlayerScreen d'.
Proof.
  intro Hd. destruct (display_kept_run steps s d Hd) as [d' Hd'].
  exists d'. unfold render. now rewrite Hd'.
Qed.

(** The server reports [null] after a first song, and a timer fires. *)
Lemma display_is_never_cleared_witness :
  let song := {| title := "B"; artist := "A"; album := "C"; state := "playing";
                 timestamp := 1700000000000%float; albumArt := None;
                 duration := Some 200%float; position := Some 30%float |} in
  exists d',
    render false (run [Receive None; Timeout] (receive (Some song) initial))
    = PlayerScreen d'.
Proof.
  cbv zeta.
  eapply (display_is_never_cleared [Receive None; Timeout]).
  reflexivity.
Defined.

(** X19.  The first song received is displayed at once, without
    animation.  A later song with the same title, artist and album
    changes neither the display nor the animation.  A later song that
    differs in one of the three starts the animation and leaves the old
    song on display until the timer fires, which puts the new song on
    display and ends the animation. *)
Theorem song_transition (s : Stage) (cur : SongData) :
  (st_previous s = None ->
   st_display (receive (Some cur) s) = Some cur
   /\ st_animating (receive (Some cur) s) = st_animating s
   /\ st_timers (receive (Some cur) s) = st_timers s)
  /\ (forall prev, st_previous s = Some prev -> songChanged cur prev = false ->
      st_display (receive (Some cur) s) = st_display s
      /\ st_animating (receive (Some cur) s) = st_animating s
      /\ st_timers (receive (Some cur) s) = st_timers s)
  /\ (forall prev, st_previous s = Some prev -> songChanged cur prev = true ->
      st_timers s = [] ->
      st_display (receive (Some cur) s) = st_display s
      /\ st_animating (receive (Some cur) s) = true
      /\ st_display (timeout (receive (Some cur) s)) = Some cur
      /\ st_animating (timeout (receive (Some cur) s)) = false)
  /\ st_previous (receive (Some cur) s) = Some cur.
Proof.
  unfold receive, songEffect. cbn [st_current st_previous st_display st_animating st_timers].
  split; [| split; [| split]].
  - intros ->. now repeat split.
  - intros prev -> ->. now repeat split.
  - intros prev -> -> Ht. cbn. rewrite Ht. now repeat split.
  - destruct (st_previous s) as [prev|]; [destruct (songChanged cur prev)|]; reflexivity.
Qed.

(** ** Colours *)

Lemma hexLower_inj a b : (a < 16)%N -> (b < 16)%N -> hexLower a = hexLower b -> a = b.
Proof.
  intros Ha Hb.
  assert (Hcases : forall x, (x < 16)%N ->
            (x = 0 \/ x = 1 \/ x = 2 \/ x = 3 \/ x = 4 \/ x = 5 \/ x = 6 \/ x = 7
             \/ x = 8 \/ x = 9 \/ x = 10 \/ x = 11 \/ x = 12 \/ x = 13 \/ x = 14
             \/ x = 15)%N) by (intros; lia).
  destruct (Hcases a Ha) as [->|[->|[->|[->|[->|[->|[->|[->|[->|[->|[->|[->|[->|[->|[->| ->]]]]]]]]]]]]]]];
  destruct (Hcases b Hb) as [->|[->|[->|[->|[->|[->|[->|[->|[->|[->|[->|[->|[->|[->|[->| ->]]]]]]]]]]]]]]];
  cbn; intro H; try reflexivity; discriminate H.
Qed.

(** A component below 256 is written with two digits. *)
Lemma component_two_digits x :
  (x < 256)%N ->
  component x = String (hexLower (x / 16)) (String (hexLower (x mod 16)) EmptyString).
Proof.
  intro Hx. unfold component, toString16.
  destruct (N.ltb_spec x 16) as [Hlt|Hge].
  - assert (Hhex : toHex (S (N.size_nat x)) x = String (hexLower x) EmptyString).
    { simpl. destruct (N.ltb_spec x 16); [reflexivity | lia]. }
    rewrite Hhex. cbn [String.length Nat.eqb].
    rewrite N.div_small, N.mod_small by assumption. reflexivity.
  - assert (Hfuel : exists k, N.size_nat x = S k).
    { destruct x as [|p]; [lia|]. destruct p; simpl; eauto. }
    destruct Hfuel as [k Hk]. rewrite Hk.
    assert (Hq : (x / 16 < 16)%N) by (apply N.Div0.div_lt_upper_bound; lia).
    assert (Hhex : toHex (S (S k)) x
                   = String (hexLower (x / 16)) (String (hexLower (x mod 16)) EmptyString)).
    { cbn [toHex]. destruct (N.ltb_spec x 16); [lia|].
      destruct (N.ltb_spec (x / 16) 16); [reflexivity | lia]. }
    rewrite Hhex. reflexivity.
Qed.

(** X20.  For components from 0 to 255, [rgbToHex] gives a # followed by
    six lowercase hexadecimal digits, two for each component, and two
    colours get the same text only when they are the same colour. *)
Theorem rgbToHex_six_digits (r g b : N) :
  (r < 256)%N -> (g < 256)%N -> (b < 256)%N ->
  rgbToHex r g b
  = String "#"
      (String (hexLower (r / 16)) (String (hexLower (r mod 16))
      (String (hexLower (g / 16)) (String (hexLower (g mod 16))
      (String (hexLower (b / 16)) (String (hexLower (b mod 16)) EmptyString))))))
  /\ String.length (rgbToHex r g b) = 7
  /\ (forall r' g' b', (r' < 256)%N -> (g' < 256)%N -> (b' < 256)%N ->
        rgbToHex r g b = rgbToHex r' g' b' -> r = r' /\ g = g' /\ b = b').
Proof.
  intros Hr Hg Hb.
  assert (Hfmt : forall r g b, (r < 256)%N -> (g < 256)%N -> (b < 256)%N ->
            rgbToHex r g b
            = String "#"
                (String (hexLower (r / 16)) (String (hexLower (r mod 16))
                (String (hexLower (g / 16)) (String (hexLower (g mod 16))
                (String (hexLower (b / 16)) (String (hexLower (b mod 16)) EmptyString))))))).
  { intros r0 g0 b0 H1 H2 H3. unfold rgbToHex.
    rewrite !component_two_digits by assumption. reflexivity. }
  split; [now apply Hfmt|]. split; [now rewrite Hfmt|].
  intros r' g' b' Hr' Hg' Hb' Heq.
  rewrite (Hfmt r g b), (Hfmt r' g' b') in Heq by assumption.
  injection Heq as H1 H2 H3 H4 H5 H6.
  assert (Hjoin : forall x y, (x < 256)%N -> (y < 256)%N ->
            hexLower (x / 16) = hexLower (y / 16) ->
            hexLower (x mod 16) = hexLower (y mod 16) -> x = y).
  { intros x y Hx Hy Hq Hm.
    apply hexLower_inj in Hq;
      [| apply N.Div0.div_lt_upper_bound; lia | apply N.Div0.div_lt_upper_bound; lia].
    apply hexLower_inj in Hm; [| apply N.mod_lt; lia | apply N.mod_lt; lia].
    rewrite (N.div_mod x 16), (N.div_mod y 16) by lia. now rewrite Hq, Hm. }
  repeat split; apply Hjoin; assumption.
Qed.

Lemma rgbToHex_six_digits_witness :
  rgbToHex 102 126 234 = "#667eea" /\ String.length (rgbToHex 102 126 234) = 7.
Proof.
  destruct (rgbToHex_six_digits 102 126 234) as (H1 & H2 & _); try reflexivity.
  split; [exact H1 | exact H2].
Defined.

(** ** Progress without timing *)

(** X21.  For a song without a duration or without a position (the
    server sends no position at second 0, for one) the sync effect
    resets the progress, the last position and the time of the last
    update to 0 and keeps the songs; no simulation is set up, so ticks
    leave the view as it is; and the bar has width 0. *)
Theorem no_timing_no_motion (v : View) (t0 : float) (ticks : list float) :
  timing (songToUse v) = None ->
  let v0 := syncProgress t0 v in
  v0 = {| currentSong := currentSong v; displaySong := displaySong v;
          progress := 0%float; lastUpdateTime := 0%float; lastPosition := 0%float |}
  /\ simulated v0 = None
  /\ fold_left (fun acc now => intervalTick now acc) ticks v0 = v0
  /\ progressBarWidth v0 = 0%float.
Proof.
  intro Ht. cbv zeta.
  assert (Hv0 : syncProgress t0 v
                = {| currentSong := currentSong v; displaySong := displaySong v;
                     progress := 0%float; lastUpdateTime := 0%float;
                     lastPosition := 0%float |})
    by (unfold syncProgress; now rewrite Ht).
  assert (Hsim : simulated (syncProgress t0 v) = None).
  { unfold simulated. rewrite ClientFacts.songToUse_syncProgress.
    unfold timing in Ht. destruct (songToUse v) as [song|]; [| reflexivity].
    unfold JS.optTruthyNum.
    destruct (duration song) as [d|], (position song) as [p|]; try reflexivity.
    - destruct (JS.truthyNum d), (JS.truthyNum p); try reflexivity. discriminate.
    - now destruct (JS.truthyNum d). }
  split; [exact Hv0|]. split; [exact Hsim|]. split; [| now rewrite Hv0].
  induction ticks as [|t ticks IH]; simpl; [reflexivity|].
  unfold intervalTick at 2. now rewrite Hsim.
Qed.

(** A playing song at second 0, whose position the server leaves out,
    after the bar stood at 42: three ticks later everything is still
    0. *)
Lemma no_timing_no_motion_witness :
  let song := {| title := "B"; artist := "A"; album := "C"; state := "playing";
                 timestamp := 1700000000000%float; albumArt := None;
                 duration := Some 200%float; position := None |} in
  let v := {| currentSong := Some song; displaySong := None; progress := 42%float;
              lastUpdateTime := 7%float; lastPosition := 9%float |} in
  let v0 := syncProgress 1700000000000%float v in
  let v3 := fold_left (fun acc now => intervalTick now acc)
              [1700000000100; 1700000000200; 1700000000300]%float v0 in
  v3 = {| currentSong := Some song; displaySong := None;
          progress := 0%float; lastUpdateTime := 0%float; lastPosition := 0%float |}
  /\ simulated v0 = None
  /\ progressBarWidth v3 = 0%float.
Proof.
  cbv zeta.
  destruct (no_timing_no_motion
              {| currentSong :=
                   Some {| title := "B"; artist := "A"; album := "C"; state := "playing";
                           timestamp := 1700000000000%float; albumArt := None;
                           duration := Some 200%float; position := None |};
                 displaySong := None; progress := 42%float;
                 lastUpdateTime := 7%float; lastPosition := 9%float |}
              1700000000000%float
              [1700000000100; 1700000000200; 1700000000300]%float eq_refl)
    as (H1 & H2 & H3 & H4).
  rewrite H3. split; [exact H1|]. split; [exact H2 | exact H4].
Defined.

End ClientMore.
(** * The event loop *)

Module LoopFacts.

Import Server Observe Measure Loop ServerFacts ServerMore.
Local Open Scope js_scope.

(** ** Heads and tails *)

Lemma checkForChanges_tail_run (E : Env) (b : SongData) (art : string) (w : World) :
  let full := with_albumArt b (JS.orUndefined art) in
  let t1 := Date_now E (history w) in
  let t2 := Date_now E (history w ++ [DateNow; Publish (payloadOf full t1)])%list in
  checkForChanges_tail E b art w
  = (Returned tt,
     {| this := {| lastSongData := Some (with_timestamp full t2);
                   currentSong := Some full;
                   lastSongKey := lastSongKey (this w) |};
        history := (history w ++ [DateNow; Publish (payloadOf full t1); DateNow])%list |}).
Proof.
  cbv zeta.
  unfold checkForChanges_tail, set_currentSong, set_lastSongData, sendSongToDeskThing,
    now, external, getThis, setThis, try_catch, bind.
  cbn [this history lastSongData currentSong lastSongKey fst snd].
  rewrite <- !app_assoc. reflexivity.
Qed.

Lemma sendCurrentSong_tail_run (E : Env) (b : SongData) (art : string) (w : World) :
  let full := with_albumArt b (JS.orUndefined art) in
  let t1 := Date_now E (history w) in
  let t2 := Date_now E (history w ++ [DateNow; Publish (payloadOf full t1)])%list in
  sendCurrentSong_tail E b art w
  = (Returned tt,
     {| this := {| lastSongData := Some (with_timestamp full t2);
                   currentSong := Some full;
                   lastSongKey := songKey b |};
        history := (history w ++ [DateNow; Publish (payloadOf full t1); DateNow])%list |}).
Proof.
  cbv zeta.
  unfold sendCurrentSong_tail, set_currentSong, set_lastSongData, set_lastSongKey,
    sendSongToDeskThing, now, external, getThis, setThis, try_catch, bind.
  cbn [this history lastSongData currentSong lastSongKey fst snd].
  rewrite <- !app_assoc. reflexivity.
Qed.

(** What a tail does, whichever call it ends. *)
Lemma tail_run (E : Env) (c : call) (art : string) (w : World) :
  let full := with_albumArt (basicOf c) (JS.orUndefined art) in
  let t1 := Date_now E (history w) in
  let t2 := Date_now E (history w ++ [DateNow; Publish (payloadOf full t1)])%list in
  tail E c art w
  = (Returned tt,
     {| this := {| lastSongData := Some (with_timestamp full t2);
                   currentSong := Some full;
                   lastSongKey := match c with
                                  | Sending b => songKey b
                                  | Checking _ => lastSongKey (this w)
                                  end |};
        history := (history w ++ [DateNow; Publish (payloadOf full t1); DateNow])%list |}).
Proof.
  destruct c as [b|b]; [apply sendCurrentSong_tail_run | apply checkForChanges_tail_run].
Qed.

Lemma tier1_run (E : Env) (w : World) :
  exists art d,
    getAppleScriptArtworkBase64 E w
    = (Returned art,
       {| this := this w; history := (history w ++ ExecSync ArtworkScript :: d)%list |})
    /\ forallb background d = true.
Proof.
  destruct (opens_getAppleScriptArtworkBase64 E w) as [Ht [d [Hd Pd]]].
  destruct (total_runStrategy E AppleScript w) as [art Hart]. simpl in Hart.
  exists art, d. split; [| assumption].
  destruct (getAppleScriptArtworkBase64 E w) as [o [t h]]. simpl in *. now subst.
Qed.




(** The resolver is its first strategy and then the rest. *)
Lemma getAlbumArt_parts (E : Env) (w : World) :
  getAlbumArt E w
  = match getAppleScriptArtworkBase64 E w with
    | (Returned art, w1) => if JS.truthy art then (Returned art, w1)
                            else getAlbumArt_rest E w1
    | (Threw, w1) => (Threw, w1)
    end.
Proof.
  unfold getAlbumArt, getAlbumArt_rest, bind.
  destruct (getAppleScriptArtworkBase64 E w) as [[art|] w1]; [| reflexivity].
  now destruct (JS.truthy art).
Qed.

(** The head of a poll, case by case. *)
Lemma head_no_song (E : Env) (w : World) :
  fst (getBasicSongInfo E w) = Returned None ->
  checkForChanges_head E w = (Returned None, snd (getBasicSongInfo E w)).
Proof.
  intro H. unfold checkForChanges_head, try_catch, bind.
  destruct (getBasicSongInfo E w) as [o wb]. simpl in *. subst o. reflexivity.
Qed.

Lemma head_same_key (E : Env) (w : World) (basic : SongData) :
  fst (getBasicSongInfo E w) = Returned (Some basic) ->
  songKey basic = lastSongKey (this w) ->
  checkForChanges_head E w = (Returned None, snd (checkForChanges E w)).
Proof.
  intros H Hkey. rewrite (poll_same_key E w basic H Hkey). cbv zeta. cbn [snd].
  destruct (getBasicSongInfo_run E w) as (ob & d0 & Hrun & _ & Hq).
  rewrite Hrun in H. simpl in H. injection H as ->.
  rewrite (Hq _ eq_refl) in Hrun. clear Hq d0.
  unfold checkForChanges_head, try_catch, bind. rewrite Hrun.
  unfold getThis. cbn [this history].
  rewrite Hkey, String.eqb_refl. cbn [negb].
  destruct (currentSong (this w)) as [cur|].
  - destruct (positionDrifted cur basic || negb (String.eqb (state cur) (state basic))).
    + unfold set_currentSong, sendSongToDeskThing, now, external, getThis, setThis,
        try_catch, bind, ret.
      cbn [this history lastSongData currentSong lastSongKey].
      rewrite <- !app_assoc. reflexivity.
    + reflexivity.
  - reflexivity.
Qed.

Lemma head_new_key (E : Env) (w : World) (basic : SongData) :
  fst (getBasicSongInfo E w) = Returned (Some basic) ->
  songKey basic <> lastSongKey (this w) ->
  exists art d,
    let wk := {| this := {| lastSongData := lastSongData (this w);
                            currentSong := currentSong (this w);
                            lastSongKey := songKey basic |};
                 history := (history w ++ basicQueries)%list |} in
    let wk1 := {| this := this wk;
                  history := (history wk ++ ExecSync ArtworkScript :: d)%list |} in
    getAppleScriptArtworkBase64 E wk = (Returned art, wk1)
    /\ forallb background d = true
    /\ checkForChanges_head E w
       = if JS.truthy art
         then (Returned None, snd (checkForChanges_tail E basic art wk1))
         else (Returned (Some basic), wk1).
Proof.
  intros H Hkey.
  destruct (getBasicSongInfo_run E w) as (ob & d0 & Hrun & _ & Hq).
  rewrite Hrun in H. simpl in H. injection H as ->.
  rewrite (Hq _ eq_refl) in Hrun. clear Hq d0.
  set (wk := {| this := {| lastSongData := lastSongData (this w);
                           currentSong := currentSong (this w);
                           lastSongKey := songKey basic |};
                history := (history w ++ basicQueries)%list |}).
  destruct (tier1_run E wk) as (art & d & Hart & Pd).
  exists art, d. cbv zeta. fold wk. split; [exact Hart|]. split; [assumption|].
  unfold checkForChanges_head, try_catch, bind. rewrite Hrun.
  unfold getThis. cbn [this history].
  destruct (String.eqb_spec (songKey basic) (lastSongKey (this w))) as [Heq|_];
    [contradiction|].
  cbn [negb]. unfold set_lastSongKey, getThis, setThis, bind.
  cbn [this history lastSongData currentSong lastSongKey].
  fold wk. rewrite Hart.
  destruct (JS.truthy art); [| reflexivity].
  rewrite checkForChanges_tail_run. reflexivity.
Qed.


(** A poll with nothing in between is its head, the rest of the
    resolver when the head waits, and its tail. *)
Lemma checkForChanges_split (E : Env) (w : World) :
  checkForChanges E w
  = match checkForChanges_head E w with
    | (Returned (Some b), w1) =>
        checkForChanges_tail E b (valueOf (fst (getAlbumArt_rest E w1)))
          (snd (getAlbumArt_rest E w1))
    | (_, w1) => (Returned tt, w1)
    end.
Proof.
  destruct (total_getBasicSongInfo E w) as [[basic|] Hb].
  - destruct (String.eqb_spec (songKey basic) (lastSongKey (this w))) as [Hk|Hk].
    + rewrite (head_same_key E w basic Hb Hk).
      destruct (checkForChanges E w) as [[[]|] w1] eqn:Hc; [reflexivity|].
      rewrite (poll_same_key E w basic Hb Hk) in Hc. discriminate.
    + destruct (head_new_key E w basic Hb Hk) as (art & d & Hart & Pd & Hhead).
      destruct (poll_new_song E w basic Hb Hk) as (art' & d' & Hart' & Pd' & Hrun).
      cbv zeta in *. rewrite Hhead, Hrun.
      rewrite getAlbumArt_parts, Hart in Hart'.
      destruct (JS.truthy art) eqn:T.
      * injection Hart' as <- Hd. apply app_inv_head in Hd. injection Hd as <-.
        cbn [snd]. rewrite checkForChanges_tail_run. reflexivity.
      * rewrite Hart'. cbn [fst snd valueOf]. rewrite checkForChanges_tail_run.
        reflexivity.
  - rewrite (head_no_song E w Hb). now rewrite (poll_no_song E w Hb).
Qed.

(** The head of [sendCurrentSong], case by case. *)
Lemma send_head_no_song (E : Env) (w : World) :
  fst (getBasicSongInfo E w) = Returned None ->
  sendCurrentSong_head E w = (Returned None, snd (sendCurrentSong E w)).
Proof.
  intro H.
  destruct (getBasicSongInfo_run E w) as (ob & d & Hrun & Pd & _).
  rewrite Hrun in H. simpl in H. injection H as ->.
  unfold sendCurrentSong_head, sendCurrentSong, getCurrentSong, try_catch, bind.
  rewrite Hrun. reflexivity.
Qed.

Lemma send_head_song (E : Env) (w : World) (basic : SongData) :
  fst (getBasicSongInfo E w) = Returned (Some basic) ->
  exists art d,
    let wb := {| this := this w; history := (history w ++ basicQueries)%list |} in
    let wb1 := {| this := this w;
                  history := (history wb ++ ExecSync ArtworkScript :: d)%list |} in
    getAppleScriptArtworkBase64 E wb = (Returned art, wb1)
    /\ forallb background d = true
    /\ sendCurrentSong_head E w
       = if JS.truthy art
         then (Returned None, snd (sendCurrentSong_tail E basic art wb1))
         else (Returned (Some basic), wb1).
Proof.
  intro H.
  destruct (getBasicSongInfo_run E w) as (ob & d0 & Hrun & _ & Hq).
  rewrite Hrun in H. simpl in H. injection H as ->.
  rewrite (Hq _ eq_refl) in Hrun. clear Hq d0.
  destruct (tier1_run E {| this := this w; history := (history w ++ basicQueries)%list |})
    as (art & d & Hart & Pd).
  exists art, d. cbv zeta. split; [exact Hart|]. split; [assumption|].
  cbn [this history] in Hart |- *.
  unfold sendCurrentSong_head, try_catch, bind. rewrite Hrun, Hart.
  destruct (JS.truthy art); [| reflexivity].
  rewrite !sendCurrentSong_tail_run. reflexivity.
Qed.

Lemma sendCurrentSong_split (E : Env) (w : World) :
  sendCurrentSong E w
  = match sendCurrentSong_head E w with
    | (Returned (Some b), w1) =>
        sendCurrentSong_tail E b (valueOf (fst (getAlbumArt_rest E w1)))
          (snd (getAlbumArt_rest E w1))
    | (_, w1) => (Returned tt, w1)
    end.
Proof.
  destruct (total_getBasicSongInfo E w) as [[basic|] Hb].
  - destruct (send_head_song E w basic Hb) as (art & d & Hart & Pd & Hhead).
    destruct (send_song E w basic Hb) as (art' & d' & Hart' & Pd' & Hrun).
    cbv zeta in *. rewrite Hhead, Hrun.
    rewrite getAlbumArt_parts, Hart in Hart'.
    destruct (JS.truthy art) eqn:T.
    + injection Hart' as <- Hd. apply app_inv_head in Hd. injection Hd as <-.
      cbn [snd]. rewrite sendCurrentSong_tail_run. reflexivity.
    + rewrite Hart'. cbn [fst snd valueOf]. rewrite sendCurrentSong_tail_run.
      reflexivity.
  - rewrite (send_head_no_song E w Hb).
    destruct (send_no_song E w Hb) as (d & _ & Hrun). now rewrite Hrun.
Qed.

(** A head returns, and when it waits it has stored at most a key. *)
Lemma checkForChanges_head_returns (E : Env) (w : World) :
  exists o, fst (checkForChanges_head E w) = Returned o.
Proof.
  unfold checkForChanges_head, try_catch.
  match goal with
  | |- context [match ?m w with _ => _ end] => destruct (m w) as [[o|] w1]
  end; eexists; reflexivity.
Qed.

Lemma sendCurrentSong_head_returns (E : Env) (w : World) :
  exists o, fst (sendCurrentSong_head E w) = Returned o.
Proof.
  unfold sendCurrentSong_head, try_catch.
  match goal with
  | |- context [match ?m w with _ => _ end] => destruct (m w) as [[o|] w1]
  end; eexists; reflexivity.
Qed.

Lemma checkForChanges_head_done (E : Env) (w : World) :
  fst (checkForChanges_head E w) = Returned None ->
  snd (checkForChanges_head E w) = snd (checkForChanges E w).
Proof.
  intro H. rewrite (checkForChanges_split E w).
  destruct (checkForChanges_head E w) as [[[b|]|] w1]; simpl in *;
    [discriminate | reflexivity | reflexivity].
Qed.

Lemma sendCurrentSong_head_done (E : Env) (w : World) :
  fst (sendCurrentSong_head E w) = Returned None ->
  snd (sendCurrentSong_head E w) = snd (sendCurrentSong E w).
Proof.
  intro H. rewrite (sendCurrentSong_split E w).
  destruct (sendCurrentSong_head E w) as [[[b|]|] w1]; simpl in *;
    [discriminate | reflexivity | reflexivity].
Qed.

Lemma checkForChanges_head_waits (E : Env) (w : World) (b : SongData) :
  fst (checkForChanges_head E w) = Returned (Some b) ->
  fst (getBasicSongInfo E w) = Returned (Some b)
  /\ songKey b <> lastSongKey (this w)
  /\ exists d,
       forallb background d = true
       /\ snd (checkForChanges_head E w)
          = {| this := {| lastSongData := lastSongData (this w);
                          currentSong := currentSong (this w);
                          lastSongKey := songKey b |};
               history := (history w ++ basicQueries ++ ExecSync ArtworkScript :: d)%list |}.
Proof.
  intro H.
  destruct (total_getBasicSongInfo E w) as [[basic|] Hb].
  - destruct (String.eqb_spec (songKey basic) (lastSongKey (this w))) as [Hk|Hk].
    + rewrite (head_same_key E w basic Hb Hk) in H. discriminate.
    + destruct (head_new_key E w basic Hb Hk) as (art & d & Hart & Pd & Hhead).
      cbv zeta in Hhead. rewrite Hhead in *.
      destruct (JS.truthy art); [discriminate|].
      simpl in H. injection H as <-.
      split; [assumption|]. split; [assumption|].
      exists d. split; [assumption|]. cbn [snd this history].
      now rewrite <- app_assoc.
  - rewrite (head_no_song E w Hb) in H. discriminate.
Qed.

Lemma sendCurrentSong_head_waits (E : Env) (w : World) (b : SongData) :
  fst (sendCurrentSong_head E w) = Returned (Some b) ->
  fst (getBasicSongInfo E w) = Returned (Some b)
  /\ exists d,
       forallb background d = true
       /\ snd (sendCurrentSong_head E w)
          = {| this := this w;
               history := (history w ++ basicQueries ++ ExecSync ArtworkScript :: d)%list |}.
Proof.
  intro H.
  destruct (total_getBasicSongInfo E w) as [[basic|] Hb].
  - destruct (send_head_song E w basic Hb) as (art & d & Hart & Pd & Hhead).
    cbv zeta in Hhead. rewrite Hhead in *.
    destruct (JS.truthy art); [discriminate|].
    simpl in H. injection H as <-.
    split; [assumption|].
    exists d. split; [assumption|]. cbn [snd this history].
    now rewrite <- app_assoc.
  - rewrite (send_head_no_song E w Hb) in H. discriminate.
Qed.

(** ** Runs *)


Lemma enter_done (mk : SongData -> call) (head : M (option SongData)) (l : State) :
  fst (head (world l)) = Returned None ->
  enter mk head l = {| world := snd (head (world l)); waiting := waiting l |}.
Proof. intro H. unfold enter. now rewrite H. Qed.

Lemma enter_waits (mk : SongData -> call) (head : M (option SongData)) (l : State) b :
  fst (head (world l)) = Returned (Some b) ->
  enter mk head l
  = {| world := snd (head (world l)); waiting := (waiting l ++ [mk b])%list |}.
Proof. intro H. unfold enter. now rewrite H. Qed.




(** ** What is served while calls overlap *)

Lemma untimedState_idle (w : World) : untimed (this w) -> untimedState (idle w).
Proof. intro U. split; [exact U | constructor]. Qed.

Lemma untimedState_start (E : Env) (w : World) :
  untimed (this w) -> untimedState (start E w).
Proof.
  intro U. unfold start. fold (idle w).
  destruct (sendCurrentSong_head_returns E w) as [[b|] Hh].
  - rewrite (enter_waits Sending _ (idle w) b Hh).
    destruct (sendCurrentSong_head_waits E w b Hh) as (Hb & d & _ & Hw).
    cbn [idle world waiting] in *. rewrite Hw. split; [exact U|].
    constructor; [| constructor]. simpl.
    now destruct (getBasicSongInfo_shape E w b Hb) as (_ & Ht & _).
  - rewrite (enter_done Sending _ (idle w) Hh). cbn [idle world waiting].
    rewrite (sendCurrentSong_head_done E w Hh).
    apply untimedState_idle, untimed_sendCurrentSong.
Qed.

Lemma untimedState_step (E : Env) (l l' : State) :
  untimedState l -> step E l l' -> untimedState l'.
Proof.
  intros [U W] Hs. destruct Hs as [l | l d Hne Pd | l before c after art Hw].
  - destruct (checkForChanges_head_returns E (world l)) as [[b|] Hh].
    + rewrite (enter_waits Checking _ l b Hh).
      destruct (checkForChanges_head_waits E (world l) b Hh) as (Hb & _ & d & _ & Hw).
      rewrite Hw. split; [exact U|]. cbn [waiting].
      apply Forall_app. split; [exact W|]. constructor; [| constructor]. simpl.
      now destruct (getBasicSongInfo_shape E (world l) b Hb) as (_ & Ht & _).
    + rewrite (enter_done Checking _ l Hh).
      rewrite (checkForChanges_head_done E (world l) Hh).
      split; [| exact W]. now apply untimed_checkForChanges.
  - split; [exact U | exact W].
  - rewrite tail_run. cbv zeta. rewrite Hw in W.
    apply Forall_app in W as [Wb Wa]. inversion Wa as [|x r Hc Hr]; subst.
    split.
    + intros s Hs. cbn in Hs. injection Hs as <-. exact Hc.
    + cbn [waiting]. apply Forall_app. now split.
Qed.

Lemma untimedState_runs (E : Env) (l l' : State) :
  untimedState l -> runs E l l' -> untimedState l'.
Proof.
  intros U H. induction H as [|l1 l2 l3 H12 IH H23]; [assumption|].
  eapply untimedState_step; [now apply IH | exact H23].
Qed.

(** ** A player that does not move, with calls that overlap *)

Lemma songKey_nonempty (b : SongData) : songKey b <> "".
Proof. unfold songKey. destruct (artist b); discriminate. Qed.

Lemma quiet_basicQueries : resolutions basicQueries = 0 /\ publications basicQueries = [].
Proof. now split. Qed.

(** Counting through a history that grew. *)
Ltac count :=
  repeat first
    [ rewrite resolutions_app | rewrite publications_app
    | rewrite resolutions_cons | rewrite publications_cons
    | rewrite length_app ];
  cbn [isArtworkQuery resolutions publications filter flat_map List.app List.length
       basicQueries].

Lemma steady_start (E : Env) (basic : SongData) :
  (forall w, fst (getBasicSongInfo E w) = Returned (Some basic)) ->
  steadyState basic (start E Demo.fresh).
Proof.
  intro Hall. unfold start. fold (idle Demo.fresh).
  destruct (send_head_song E Demo.fresh basic (Hall _)) as (art & d & Hart & Pd & Hhead).
  cbv zeta in Hhead. destruct (background_quiet d Pd) as [R P].
  destruct (JS.truthy art) eqn:T.
  - rewrite enter_done by (cbn [idle world]; now rewrite Hhead).
    cbn [idle world waiting]. rewrite Hhead. cbn [snd].
    rewrite sendCurrentSong_tail_run. cbv zeta.
    unfold steadyState. cbn [fst snd world waiting this history currentSong lastSongKey Demo.fresh].
    count. rewrite R, P. cbn.
    split; [constructor|]. split.
    { intros c Hc. injection Hc as <-. now split. }
    split; [discriminate|]. split; [reflexivity|]. right. split; [reflexivity | lia].
  - rewrite (enter_waits Sending _ _ basic) by (cbn [idle world]; now rewrite Hhead).
    cbn [idle world waiting List.app]. rewrite Hhead. cbn [snd].
    unfold steadyState. cbn [fst snd world waiting this history currentSong lastSongKey Demo.fresh].
    count. rewrite R, P. cbn.
    split; [repeat constructor|]. split; [intros c Hc; discriminate|].
    split; [intro H; now elim H|]. split; [reflexivity|]. left. now repeat split.
Qed.

Lemma steady_step (E : Env) (basic : SongData) (l l' : State) :
  (forall w, fst (getBasicSongInfo E w) = Returned (Some basic)) ->
  steadyState basic l -> step E l l' -> steadyState basic l'.
Proof.
  intros Hall (W & M & N & C & K) Hs. cbv zeta in *.
  destruct Hs as [l | l d Hne Pd | l before c after art Hw].
  - (* a tick *)
    destruct (String.eqb_spec (songKey basic) (lastSongKey (this (world l)))) as [Hk|Hk].
    + (* the key is stored *)
      assert (Khave : lastSongKey (this (world l)) = songKey basic
                      /\ 1 <= resolutions (history (world l)) <= 2).
      { destruct K as [(K0 & _)|K1]; [| exact K1].
        rewrite K0 in Hk. now elim (songKey_nonempty basic). }
      pose proof (head_same_key E (world l) basic (Hall _) Hk) as Hhead.
      rewrite enter_done by (now rewrite Hhead). rewrite Hhead. cbn [snd].
      rewrite (poll_same_key E (world l) basic (Hall _) Hk). cbv zeta. cbn [snd].
      unfold steadyState, inStep in *.
      destruct (currentSong (this (world l))) as [cur|] eqn:Hcur.
      * destruct (M cur eq_refl) as [Mp Ms].
        rewrite (positionDrifted_same cur basic Mp), Ms, String.eqb_refl. cbn [orb negb].
        cbn [fst snd world waiting this history currentSong lastSongKey].
        count. rewrite Hcur, !Nat.add_0_r, app_nil_r.
        split; [exact W|]. split; [exact M|]. split; [exact N|]. split; [exact C|].
        now right.
      * cbn [fst snd world waiting this history currentSong lastSongKey].
        count. rewrite !Nat.add_0_r, app_nil_r.
        split; [exact W|]. split; [intros c Hc; injection Hc as <-; now split|].
        split; [discriminate|]. split; [exact C|]. now right.
    + (* the key is not stored: only the first call has begun *)
      destruct K as [(K0 & Kw & Kp)|[K1 _]]; [| now elim Hk].
      destruct (head_new_key E (world l) basic (Hall _) Hk) as (art & d & Hart & Pd & Hhead).
      cbv zeta in Hhead. destruct (background_quiet d Pd) as [R P].
      rewrite Kw, Kp in C. cbn in C.
      destruct (JS.truthy art) eqn:T.
      * rewrite enter_done by (now rewrite Hhead). rewrite Hhead. cbn [snd].
        rewrite checkForChanges_tail_run. cbv zeta.
        unfold steadyState, inStep.
        cbn [fst snd world waiting this history currentSong lastSongKey].
        count. rewrite R, P, Kp, Kw, C. cbn.
        split; [repeat constructor|].
        split; [intros c Hc; injection Hc as <-; now split|].
        split; [discriminate|]. split; [reflexivity|]. right. split; [reflexivity | lia].
      * rewrite (enter_waits Checking _ _ basic) by (now rewrite Hhead). rewrite Hhead.
        cbn [snd]. unfold steadyState, inStep in *.
        cbn [fst snd world waiting this history currentSong lastSongKey].
        count. rewrite R, P, Kp, Kw, C. cbn.
        split; [repeat constructor|]. split; [exact M|].
        split; [intro H; now elim H|]. split; [reflexivity|].
        right. split; [reflexivity | lia].
  - (* the resolvers make calls *)
    destruct (background_quiet d Pd) as [R P].
    unfold steadyState. cbn [fst snd world waiting this history].
    count. rewrite R, P, !Nat.add_0_r, app_nil_r.
    split; [exact W|]. split; [exact M|]. split; [exact N|]. split; [exact C|]. exact K.
  - (* a resolver returns *)
    rewrite tail_run. cbv zeta. rewrite Hw in W, C.
    pose proof W as W'. apply Forall_app in W' as [Wb Wa].
    inversion Wa as [|x r Hc Hr]; subst x r.
    unfold steadyState, inStep.
    cbn [snd world waiting this history currentSong lastSongKey].
    count. rewrite length_app in *. cbn [List.length] in *.
    split; [apply Forall_app; now split|].
    split; [intros s Hs; injection Hs as <-; rewrite Hc; now split|].
    split; [discriminate|].
    split; [cbn; lia|].
    right. split.
    + destruct K as [(K0 & Kw & Kp)|[K1 _]].
      * rewrite Hw in Kw.
        destruct before as [|x before]; [| destruct before; discriminate].
        injection Kw as -> _. reflexivity.
      * destruct c as [b|b]; [simpl in Hc; now subst b | exact K1].
    + destruct K as [(K0 & Kw & Kp)|[_ K1]].
      * rewrite Hw in Kw.
        destruct before as [|x before]; [| destruct before; discriminate].
        injection Kw as -> ->. rewrite Kp in C. cbn in C. cbn. lia.
      * cbn. lia.
Qed.

Lemma steady_runs (E : Env) (basic : SongData) (l l' : State) :
  (forall w, fst (getBasicSongInfo E w) = Returned (Some basic)) ->
  steadyState basic l -> runs E l l' -> steadyState basic l'.
Proof.
  intros Hall S H. induction H as [|l1 l2 l3 H12 IH H23]; [assumption|].
  eapply steady_step; [exact Hall | now apply IH | exact H23].
Qed.

Lemma steady_bound (basic : SongData) (l : State) :
  steadyState basic l ->
  List.length (publications (history (world l))) <= 2
  /\ resolutions (history (world l)) <= 2.
Proof.
  intros (W & M & N & C & K). cbv zeta in *.
  destruct K as [(K0 & Kw & Kp)|[_ K1]].
  - rewrite Kw, Kp in C. rewrite Kp, C. cbn. lia.
  - lia.
Qed.

Lemma steady_settled (basic : SongData) (l : State) :
  steadyState basic l -> waiting l = [] -> settled basic l.
Proof.
  intros (W & M & N & C & K) Hw. cbv zeta in *.
  destruct K as [(K0 & Kw & Kp)|[K1 K2]]; [rewrite Hw in Kw; discriminate|].
  split; [exact Hw|]. split; [exact K1|]. split; [| exact M].
  apply N. rewrite Hw in C. cbn in C.
  destruct (publications (history (world l))); [cbn in C; lia | discriminate].
Qed.

(** Once settled, nothing happens but the six queries of each tick. *)
Lemma settled_step (E : Env) (basic : SongData) (l l' : State) :
  fst (getBasicSongInfo E (world l)) = Returned (Some basic) ->
  settled basic l -> step E l l' ->
  settled basic l'
  /\ this (world l') = this (world l)
  /\ history (world l') = (history (world l) ++ basicQueries)%list.
Proof.
  intros Hb (Hw & Hk & Hc & M) Hs.
  destruct Hs as [l | l d Hne Pd | l before c after art Hw'].
  - pose proof (head_same_key E (world l) basic Hb (eq_sym Hk)) as Hhead.
    rewrite enter_done by (now rewrite Hhead). rewrite Hhead. cbn [snd].
    rewrite (poll_same_key E (world l) basic Hb (eq_sym Hk)). cbv zeta. cbn [snd].
    unfold settled, inStep in *.
    destruct (currentSong (this (world l))) as [cur|] eqn:Hcur; [| now elim Hc].
    destruct (M cur eq_refl) as [Mp Ms].
    rewrite (positionDrifted_same cur basic Mp), Ms, String.eqb_refl. cbn [orb negb].
    cbn [fst snd world waiting this history]. rewrite Hcur.
    split; [| now split]. split; [exact Hw|]. split; [exact Hk|]. split; assumption.
  - now elim Hne.
  - rewrite Hw in Hw'. destruct before; discriminate.
Qed.

Lemma settled_runs (E : Env) (basic : SongData) (l l' : State) :
  (forall w d, history w = (history (world l) ++ d)%list ->
               fst (getBasicSongInfo E w) = Returned (Some basic)) ->
  settled basic l -> runs E l l' ->
  settled basic l'
  /\ this (world l') = this (world l)
  /\ exists d, history (world l') = (history (world l) ++ d)%list
               /\ resolutions d = 0 /\ publications d = [].
Proof.
  intros Hall S H. induction H as [|l1 l2 l3 H12 IH H23].
  - split; [assumption|]. split; [reflexivity|]. exists []. now rewrite app_nil_r.
  - destruct (IH Hall S) as (S2 & T2 & d & Hd & R & P).
    destruct (settled_step E basic l2 l3 (Hall _ d Hd) S2 H23) as (S3 & T3 & H3).
    split; [assumption|]. split; [congruence|].
    exists (d ++ basicQueries)%list. rewrite H3, Hd, app_assoc.
    split; [reflexivity|]. rewrite resolutions_app, publications_app, R, P. now split.
Qed.

(** A player without a song: nothing waits, and a tick is its queries. *)
Lemma nosong_start (E : Env) :
  (forall w, fst (getBasicSongInfo E w) = Returned None) ->
  waiting (start E Demo.fresh) = []
  /\ resolutions (history (world (start E Demo.fresh))) = 0
  /\ publications (history (world (start E Demo.fresh))) = [].
Proof.
  intro Hall. unfold start. fold (idle Demo.fresh).
  pose proof (send_head_no_song E Demo.fresh (Hall _)) as Hhead.
  rewrite enter_done by (cbn [idle world]; now rewrite Hhead).
  cbn [idle world waiting]. rewrite Hhead. cbn [snd].
  destruct (send_no_song E Demo.fresh (Hall _)) as (d & Pd & Hrun). rewrite Hrun.
  destruct (background_quiet d Pd) as [R P]. cbn [snd history Demo.fresh].
  now repeat split.
Qed.

Lemma nosong_step (E : Env) (l l' : State) :
  (forall w, fst (getBasicSongInfo E w) = Returned None) ->
  waiting l = [] -> step E l l' ->
  waiting l' = []
  /\ this (world l') = this (world l)
  /\ exists d, history (world l') = (history (world l) ++ d)%list
               /\ resolutions d = 0 /\ publications d = [].
Proof.
  intros Hall Hw Hs. destruct Hs as [l | l d Hne Pd | l before c after art Hw'].
  - pose proof (head_no_song E (world l) (Hall _)) as Hhead.
    rewrite enter_done by (now rewrite Hhead). rewrite Hhead. cbn [snd world waiting].
    destruct (getBasicSongInfo_run E (world l)) as (ob & d & Hrun & Pd & _).
    rewrite Hrun. cbn [snd this history].
    destruct (background_quiet d Pd) as [R P].
    split; [exact Hw|]. split; [reflexivity|]. now exists d.
  - now elim Hne.
  - rewrite Hw in Hw'. destruct before; discriminate.
Qed.

Lemma nosong_runs (E : Env) (l l' : State) :
  (forall w, fst (getBasicSongInfo E w) = Returned None) ->
  waiting l = [] -> runs E l l' ->
  waiting l' = []
  /\ this (world l') = this (world l)
  /\ exists d, history (world l') = (history (world l) ++ d)%list
               /\ resolutions d = 0 /\ publications d = [].
Proof.
  intros Hall Hw H. induction H as [|l1 l2 l3 H12 IH H23].
  - split; [assumption|]. split; [reflexivity|]. exists []. now rewrite app_nil_r.
  - destruct (IH Hw) as (W2 & T2 & d & Hd & R & P).
    destruct (nosong_step E l2 l3 Hall W2 H23) as (W3 & T3 & d3 & H3 & R3 & P3).
    split; [assumption|]. split; [congruence|].
    exists (d ++ d3)%list. rewrite H3, Hd, app_assoc.
    split; [reflexivity|]. rewrite resolutions_app, publications_app, R, P, R3, P3.
    now split.
Qed.

(** ** The player that moves on *)



(** ** Theorems *)


(** X9.  Whatever calls overlap, a JSON body the handler sends has
    neither a timestamp nor a version property: the song served over
    HTTP is the stored song, not the published payload.  This holds in
    every state the loop reaches after [start()] on an instance whose
    song has no timestamp (a new instance has no song), and in every
    state it reaches after a call of [sendCurrentSong] that ran alone
    on any instance. *)
Theorem served_song_is_not_the_payload (E : Env) (w : World) (l : State)
    (req : Request) (j : JS.JSON) :
  (untimed (this w) /\ runs E (start E w) l)
  \/ runs E (idle (snd (sendCurrentSong E w))) l ->
  jsonBody (handler (this (world l)) req) = Some j ->
  ~ In "timestamp" (jsonKeys j) /\ ~ In "version" (jsonKeys j).
Proof.
  intro H.
  assert (U : untimedState l).
  { destruct H as [[U H]|H].
    - eapply untimedState_runs; [| exact H]. now apply untimedState_start.
    - eapply untimedState_runs; [| exact H].
      apply untimedState_idle, untimed_sendCurrentSong. }
  destruct U as [U _].
  unfold jsonBody, handler, respond.
  destruct (String.eqb (method req) "HEAD"); [discriminate|].
  destruct (String.eqb (method req) "OPTIONS"); [discriminate|].
  destruct (pathIs (pathname req) "/api/current-song"); [| discriminate].
  cbn. intro Hj. injection Hj as <-. unfold getCurrentSongData.
  destruct (currentSong _) as [s|] eqn:Hs.
  - apply songJSON_keys. now apply U.
  - cbn. tauto.
Qed.

(** The first call and a poll both wait for the network; the first
    call's resolver returns while the poll still waits. *)
Lemma served_song_is_not_the_payload_witness :
  let j := songJSON (with_albumArt Demo2.songLocal
                       (Some "data:image/jpeg;base64,iVBORw0KGgo=")) in
  ~ In "timestamp" (jsonKeys j) /\ ~ In "version" (jsonKeys j).
Proof.
  cbv zeta.
  pose (l1 := start Demo2.online Demo.fresh).
  pose (l2 := enter Checking (checkForChanges_head Demo2.online) l1).
  apply (served_song_is_not_the_payload Demo2.online Demo.fresh
           {| world := snd (tail Demo2.online (Sending Demo2.songLocal)
                              "data:image/jpeg;base64,iVBORw0KGgo=" (world l2));
              waiting := [Checking Demo2.songLocal] |}
           {| method := "GET"; pathname := Some "/api/current-song" |}).
  - left. split; [intros s Hs; discriminate|].
    refine (runs_on _ _ l2 _ _
              (resume _ l2 [] (Sending Demo2.songLocal) [Checking Demo2.songLocal]
                 "data:image/jpeg;base64,iVBORw0KGgo=" _)).
    + refine (runs_on _ _ l1 _ (runs_here _ _) _). apply tick.
    + vm_compute. reflexivity.
  - vm_compute. reflexivity.
Defined.

Lemma steady_machine net tags : steady (Demo2.machine net tags).
Proof. intros h h' s. reflexivity. Qed.

(** X7.  While the player answers every query the same way, the loop
    started on a new instance begins at most two resolutions and
    publishes at most two payloads, however the calls overlap; and once
    no call waits, whatever follows leaves the instance as it is,
    begins no resolution and publishes nothing.  This uses that
    [Math.abs(x - x) > 1] is false for every number. *)
Theorem steady_player (E : Env) (l l' : State) :
  steady E ->
  runs E (start E Demo.fresh) l ->
  List.length (publications (history (world l))) <= 2
  /\ resolutions (history (world l)) <= 2
  /\ (waiting l = [] -> runs E l l' ->
      this (world l') = this (world l)
      /\ waiting l' = []
      /\ publications (since (world l) (world l')) = []
      /\ resolutions (since (world l) (world l')) = 0).
Proof.
  intros S H.
  destruct (total_getBasicSongInfo E Demo.fresh) as [[basic|] Hb].
  - assert (Hall : forall w0, fst (getBasicSongInfo E w0) = Returned (Some basic))
      by (intro w0; now rewrite (steady_getBasicSongInfo E S w0 Demo.fresh)).
    pose proof (steady_runs E basic _ l Hall (steady_start E basic Hall) H) as St.
    destruct (steady_bound basic l St) as [B1 B2].
    split; [exact B1|]. split; [exact B2|].
    intros Hw H'.
    destruct (settled_runs E basic l l' (fun w0 _ _ => Hall w0)
                (steady_settled basic l St Hw) H')
      as ((Hw' & _) & T & d & Hd & R & P).
    rewrite (since_app _ _ d Hd). now repeat split.
  - assert (Hall : forall w0, fst (getBasicSongInfo E w0) = Returned None)
      by (intro w0; now rewrite (steady_getBasicSongInfo E S w0 Demo.fresh)).
    destruct (nosong_start E Hall) as (W0 & R0 & P0).
    destruct (nosong_runs E _ l Hall W0 H) as (W1 & _ & d & Hd & R & P).
    rewrite Hd, resolutions_app, publications_app, R0, P0, R, P. cbn.
    split; [lia|]. split; [lia|].
    intros _ H'.
    destruct (nosong_runs E l l' Hall W1 H') as (W2 & T & d' & Hd' & R' & P').
    rewrite (since_app _ _ d' Hd'). now repeat split.
Qed.

(** The first call and the first poll both wait for the network, so the
    same song is resolved and published twice; the polls that follow
    change nothing. *)
Lemma steady_player_witness :
  let E := Demo2.online in
  let art := "data:image/jpeg;base64,iVBORw0KGgo=" in
  let l1 := start E Demo.fresh in
  let l2 := enter Checking (checkForChanges_head E) l1 in
  let l3 := {| world := snd (tail E (Sending Demo2.songLocal) art (world l2));
               waiting := [Checking Demo2.songLocal] |} in
  let l4 := {| world := snd (tail E (Checking Demo2.songLocal) art (world l3));
               waiting := [] |} in
  let l5 := enter Checking (checkForChanges_head E) l4 in
  List.length (publications (history (world l4))) = 2
  /\ resolutions (history (world l4)) = 2
  /\ this (world l5) = this (world l4)
  /\ publications (since (world l4) (world l5)) = [].
Proof.
  cbv zeta.
  pose (l1 := start Demo2.online Demo.fresh).
  pose (l2 := enter Checking (checkForChanges_head Demo2.online) l1).
  pose (l3 := {| world := snd (tail Demo2.online (Sending Demo2.songLocal)
                                 "data:image/jpeg;base64,iVBORw0KGgo=" (world l2));
                 waiting := [Checking Demo2.songLocal] |}).
  pose (l4 := {| world := snd (tail Demo2.online (Checking Demo2.songLocal)
                                 "data:image/jpeg;base64,iVBORw0KGgo=" (world l3));
                 waiting := [] |}).
  pose (l5 := enter Checking (checkForChanges_head Demo2.online) l4).
  assert (R14 : runs Demo2.online l1 l4).
  { refine (runs_on _ _ l3 _ _
              (resume _ l3 [] (Checking Demo2.songLocal) []
                 "data:image/jpeg;base64,iVBORw0KGgo=" eq_refl)).
    refine (runs_on _ _ l2 _ _
              (resume _ l2 [] (Sending Demo2.songLocal) [Checking Demo2.songLocal]
                 "data:image/jpeg;base64,iVBORw0KGgo=" _)).
    - refine (runs_on _ _ l1 _ (runs_here _ _) _). apply tick.
    - vm_compute. reflexivity. }
  destruct (steady_player Demo2.online l4 l5 (steady_machine _ _) R14)
    as (_ & _ & Q).
  destruct Q as (Q1 & _ & Q3 & _).
  - reflexivity.
  - refine (runs_on _ _ l4 _ (runs_here _ _) _). apply tick.
  - split; [vm_compute; reflexivity|]. split; [vm_compute; reflexivity|].
    split; [exact Q1 | exact Q3].
Defined.


End LoopFacts.
